(** * nvidia-forum-scraper: the crawl controller and its CSV sink

    A shallow embedding of [src/index.ts] (the crawler: [stripHtml],
    [escapeCsv], [fetchJson], [saveTopic], [createCsvHeader], [crawlPage],
    [crawlNvidia]) and the properties of it that the specification states.

    Conventions of the embedding.
    - A JavaScript string is a [string]: the functions below only look for
      the ASCII characters [<], [>], [,], the double quote and the line
      feed, which are single code units in UTF-16 and single bytes in UTF-8,
      so the unit of the string does not matter to them.
    - A [Date] is [option Z]: the time value in milliseconds, [None] being
      the Invalid Date (time value NaN).
    - An [Effect] value of the [effect] library is a description of a
      computation; it is embedded as a tree of external calls, and
      [Effect.runPromise] as the interpreter of such trees against a world
      that answers the calls.
    - A file operation that is rejected may have changed the file before
      the error: [fs.appendFile] may have written a part of the line,
      [fs.writeFile] may have emptied the file and written a part of the
      data. The world that rejects the call says how far it got. *)

From Stdlib Require Import String Ascii List ZArith Bool Arith Lia DecimalString.
From Stdlib Require DecimalZ DecimalPos.
Import ListNotations.

Local Open Scope string_scope.
Local Open Scope list_scope.

Set Implicit Arguments.

(** ** Strings *)

Module Js.

(** [String(n)] for an integer [n] (thread ids, page numbers, status
    codes), as a template literal or [Array.prototype.join] prints it. *)
Definition of_int (n : Z) : string := NilZero.string_of_int (Z.to_int n).

(** [s.includes(c)] for a one-character needle. *)
Fixpoint includes (s : string) (c : ascii) : bool :=
  match s with
  | EmptyString => false
  | String d r => Ascii.eqb d c || includes r c
  end.

(** [xs.join(sep)] on an array of strings. *)
Fixpoint join (sep : string) (xs : list string) : string :=
  match xs with
  | [] => ""
  | [x] => x
  | x :: r => x ++ sep ++ join sep r
  end.

(** The first [n] code units removed. *)
Fixpoint drop (n : nat) (s : string) : string :=
  match n, s with
  | S k, String _ r => drop k r
  | _, _ => s
  end.

(** [s.replace(re, by)] for a global regular expression [re] whose matches
    are never empty. The expression is given by its matcher anchored at
    the start of a string, which returns the length of the match there.
    The scan goes left to right; after a match it resumes behind the
    match, [skip] counting the code units of the match still to pass. *)
Fixpoint replace_from (re : string -> option nat) (by_ : string)
         (skip : nat) (s : string) : string :=
  match s with
  | EmptyString => EmptyString
  | String c r =>
      match skip with
      | S k => replace_from re by_ k r
      | O =>
          match re s with
          | Some (S n) => by_ ++ replace_from re by_ n r
          | _ => String c (replace_from re by_ 0 r)
          end
      end
  end.

Definition replace (re : string -> option nat) (by_ : string) (s : string) : string :=
  replace_from re by_ 0 s.

(** The greedy run [[^c]*]: how many leading code units differ from [c]. *)
Fixpoint run_not (c : ascii) (s : string) : nat :=
  match s with
  | EmptyString => 0
  | String d r => if Ascii.eqb d c then 0 else S (run_not c r)
  end.

End Js.

(** The characters the source names. *)
Definition comma : ascii := ","%char.
Definition dquote : ascii := "034"%char.
Definition newline : ascii := "010"%char.
Definition lt_sign : ascii := "<"%char.
Definition gt_sign : ascii := ">"%char.

(** The two regular expressions of the source. *)

(** The regular expression of [escapeCsv]: one double quote. *)
Definition re_quote (s : string) : option nat :=
  match s with
  | String c _ => if Ascii.eqb c dquote then Some 1 else None
  | EmptyString => None
  end.

(** [/<[^>]+>/]: a [<], one or more code units other than [>], a [>].
    The run [[^>]+] is greedy; giving back some of it never helps, since
    what it gives back is not a [>]. *)
Definition re_tag (s : string) : option nat :=
  match s with
  | String c r =>
      if Ascii.eqb c lt_sign then
        match Js.run_not gt_sign r with
        | O => None
        | S n =>
            match Js.drop (S n) r with
            | String _ _ => Some (S n + 2)
            | EmptyString => None
            end
        end
      else None
  | EmptyString => None
  end.

(** [stripHtml]: [html.replace(/<[^>]+>/g, "")]. *)
Definition stripHtml (html : string) : string := Js.replace re_tag "" html.

(** [escapeCsv]. *)
Definition escapeCsv (str : string) : string :=
  if Js.includes str comma || Js.includes str newline || Js.includes str dquote
  then String dquote (Js.replace re_quote (String dquote (String dquote "")) str
                        ++ String dquote "")
  else str.


(** ** Data model *)

Record TopicListItem := {
  id : Z;
  title : string;
  slug : string;
  created_at : string
}.

Record TopicList := {
  topics : list TopicListItem;
  more_topics_url : option string   (* [string | null] *)
}.

Record TopicListRes := { topic_list : TopicList }.

Record Post := {
  raw : option string;
  cooked : option string;
  post_created_at : string
}.

Record PostStream := { posts : option (list Post) }.

Record TopicDetail := { post_stream : option PostStream }.

(** A JavaScript [Date]: its time value, [None] for the Invalid Date. *)
Definition Date := option Z.

Record CrawlParams := {
  tag : string;
  since : Date;
  outputDir : string
}.

(** A JavaScript [Error] object, as far as the crawler looks at it. *)
Record Error := { message : string }.

(** What a promise is rejected with: an [Error], or some other value, of
    which only [String(e)] is used. *)
Inductive Thrown :=
| ThrowError (e : Error)
| ThrowOther (shown : string).

(** [(e) => (e instanceof Error ? e : new Error(String(e)))] *)
Definition toError (t : Thrown) : Error :=
  match t with
  | ThrowError e => e
  | ThrowOther shown => {| message := shown |}
  end.

(** ** The outside world: network, file system, console *)

(** The [Response] of [fetch], with the outcome of its [json()]. *)
Record Response (T : Type) := {
  status : Z;
  json : Thrown + T
}.

(** [r.ok]: the status is in the range 200-299. *)
Definition ok {T} (r : Response T) : bool :=
  (200 <=? status r)%Z && (status r <=? 299)%Z.

Inductive Fetched (T : Type) :=
| Rejected (t : Thrown)          (* the request could not be made *)
| Resolved (r : Response T).

Arguments Rejected {T} t.
Arguments Resolved {T} r.

(** The type argument of [fetchJson<T>]: the two payloads it is used at. *)
Inductive Kind := Listing | Detail.

Definition Payload (k : Kind) : Type :=
  match k with
  | Listing => TopicListRes
  | Detail => TopicDetail
  end.

(** A rejected file operation: the reason the promise is rejected with,
    and what the operation had done to the file by then. [kept = None]:
    the file could not be opened and is as it was; [kept = Some n]: the
    file was opened (created if absent, and emptied by [fs.writeFile]) and
    the first [n] code units of the data were written to it. *)
Record Rejection := {
  reason :> Thrown;
  kept : option nat
}.

(** The external calls of the crawler, and what each one answers. For the
    two file operations the answer is [None] when the promise resolves and
    the rejection when it is rejected. *)
Inductive Op :=
| Fetch (k : Kind) (url : string)
| WriteFile (path data : string)
| AppendFile (path data : string)
| ConsoleError (e : Error).

Definition Answer (op : Op) : Type :=
  match op with
  | Fetch k _ => Fetched (Payload k)
  | WriteFile _ _ => option Rejection
  | AppendFile _ _ => option Rejection
  | ConsoleError _ => unit
  end.

(** One external call with its answer. *)
Inductive Event := Ev (op : Op) (a : Answer op).

(** The files of the output directory: path to content. *)
Definition Files := string -> option string.

Definition put (path data : string) (fs : Files) : Files :=
  fun p => if String.eqb p path then Some data else fs p.

Definition content (fs : Files) (path : string) : string :=
  match fs path with
  | Some c => c
  | None => ""
  end.

(** The first [n] code units of [s], all of [s] if it has no more. *)
Fixpoint take (n : nat) (s : string) : string :=
  match n, s with
  | S k, String c r => String c (take k r)
  | _, _ => ""
  end.

(** What a call does to the files. [fs.writeFile] replaces the content,
    [fs.appendFile] extends it (creating the file if need be). A call that
    is rejected before the file is opened leaves the files as they were;
    one that is rejected later leaves the part of the data it had written,
    in place of the old content for [fs.writeFile], behind it for
    [fs.appendFile]. *)
Definition perform (op : Op) : Answer op -> Files -> Files :=
  match op with
  | Fetch _ _ => fun _ fs => fs
  | WriteFile path data => fun a fs =>
      match a with
      | None => put path data fs
      | Some rej =>
          match kept rej with
          | None => fs
          | Some n => put path (take n data) fs
          end
      end
  | AppendFile path data => fun a fs =>
      match a with
      | None => put path (content fs path ++ data) fs
      | Some rej =>
          match kept rej with
          | None => fs
          | Some n => put path (content fs path ++ take n data) fs
          end
      end
  | ConsoleError _ => fun _ fs => fs
  end.

(** The state of a run: the calls made so far, oldest first, and the
    files. *)
Record State := {
  log : list Event;
  files : Files
}.

Definition record (op : Op) (a : Answer op) (s : State) : State :=
  {| log := log s ++ [Ev op a]; files := perform op a (files s) |}.

(** The world answers a call depending on the call and on how many calls
    came before it. *)
Definition World := nat -> forall op : Op, Answer op.

(** ** Effects *)

(** A description of a computation that ends with a value of [A] or an
    error of [E], making external calls on the way. [Cut] marks where the
    unfolding of a recursive description was stopped. *)
Inductive Task (E A : Type) : Type :=
| Done (a : A)
| Raise (e : E)
| Call (op : Op) (k : Answer op -> Task E A)
| Cut.

Arguments Done {E A} a.
Arguments Raise {E A} e.
Arguments Call {E A} op k.
Arguments Cut {E A}.

(** A promise is rejected with anything; an [Effect<A, Error>] fails with
    an [Error]. *)
Definition Promise (A : Type) := Task Thrown A.
Definition Effect (A : Type) := Task Error A.

Inductive Exit (E A : Type) : Type :=
| Success (a : A)
| Failure (e : E)
| Unfinished.

Arguments Success {E A} a.
Arguments Failure {E A} e.
Arguments Unfinished {E A}.

Module Eff.

(** [Effect.flatMap], and [then] on promises. *)
Fixpoint flatMap {E A B} (m : Task E A) (f : A -> Task E B) : Task E B :=
  match m with
  | Done a => f a
  | Raise e => Raise e
  | Call op k => Call op (fun a => flatMap (k a) f)
  | Cut => Cut
  end.

Definition succeed {A} (a : A) : Effect A := Done a.
Definition sync {A} (a : A) : Effect A := Done a.
Definition suspend {A} (m : Effect A) : Effect A := m.

(** [Effect.tryPromise({ try, catch })] *)
Fixpoint tryPromise {A} (try : Promise A) (catch : Thrown -> Error) : Effect A :=
  match try with
  | Done a => Done a
  | Raise t => Raise (catch t)
  | Call op k => Call op (fun a => tryPromise (k a) catch)
  | Cut => Cut
  end.

(** [Effect.forEach], sequential. *)
Fixpoint forEach {A B} (xs : list A) (f : A -> Effect B) : Effect (list B) :=
  match xs with
  | [] => Done []
  | x :: r => flatMap (f x) (fun y => flatMap (forEach r f) (fun ys => Done (y :: ys)))
  end.

(** [Effect.tapError] *)
Fixpoint tapError {A B} (m : Effect A) (f : Error -> Effect B) : Effect A :=
  match m with
  | Done a => Done a
  | Raise e => flatMap (f e) (fun _ => Raise e)
  | Call op k => Call op (fun a => tapError (k a) f)
  | Cut => Cut
  end.

(** [Effect.runPromise] in a world [W], from a state [s]. *)
Fixpoint runPromise {E A} (W : World) (m : Task E A) (s : State) : Exit E A * State :=
  match m with
  | Done a => (Success a, s)
  | Raise e => (Failure e, s)
  | Call op k =>
      let a := W (length (log s)) op in
      runPromise W (k a) (record op a s)
  | Cut => (Unfinished, s)
  end.

(** One external call of a run, and [n] of them. *)
Definition step {E A} (W : World) (c : Task E A * State) : Task E A * State :=
  match fst c with
  | Call op k =>
      let a := W (length (log (snd c))) op in
      (k a, record op a (snd c))
  | _ => c
  end.

Fixpoint steps {E A} (W : World) (n : nat) (c : Task E A * State) : Task E A * State :=
  match n with
  | O => c
  | S n' => steps W n' (step W c)
  end.

End Eff.

(** The external calls as promises. *)
Definition fetch (k : Kind) (url : string) : Promise (Response (Payload k)) :=
  Call (Fetch k url) (fun a : Fetched (Payload k) =>
    match a with
    | Rejected t => Raise t
    | Resolved r => Done r
    end).

Definition fs_writeFile (path data : string) : Promise unit :=
  Call (WriteFile path data) (fun a : option Rejection =>
    match a with
    | None => Done tt
    | Some rej => Raise (reason rej)
    end).

Definition fs_appendFile (path data : string) : Promise unit :=
  Call (AppendFile path data) (fun a : option Rejection =>
    match a with
    | None => Done tt
    | Some rej => Raise (reason rej)
    end).

Definition console_error (e : Error) : Effect unit :=
  Call (ConsoleError e) (fun _ => Done tt).

(** ** The crawler *)

Definition buildListUrl (tag : string) (page : Z) : string :=
  "https://forums.developer.nvidia.com/tag/" ++ tag ++ ".json?solved=no&page="
    ++ Js.of_int page.

Definition buildDetailUrl (id : Z) : string :=
  "https://forums.developer.nvidia.com/t/" ++ Js.of_int id ++ ".json".

(** [d < limit] on two dates compares their time values; a comparison with
    NaN is false. *)
Definition isBefore (d limit : Date) : bool :=
  match d, limit with
  | Some a, Some b => (a <? b)%Z
  | _, _ => false
  end.

(** [fetchJson] *)
Definition fetchJson (k : Kind) (url : string) : Effect (Payload k) :=
  Eff.tryPromise
    (Eff.flatMap (fetch k url) (fun r =>
       if negb (ok r)
       then Raise (ThrowError {| message := "HTTP " ++ Js.of_int (status r) |})
       else match json r with
            | inl t => Raise t
            | inr v => Done v
            end))
    toError.

(** [!more_topics_url]: null and the empty string are falsy. *)
Definition falsy (u : option string) : bool :=
  match u with
  | None => true
  | Some EmptyString => true
  | Some (String _ _) => false
  end.

(** [detail.post_stream?.posts?.[0]] *)
Definition firstPost (detail : TopicDetail) : option Post :=
  match post_stream detail with
  | Some ps =>
      match posts ps with
      | Some (p :: _) => Some p
      | _ => None
      end
  | None => None
  end.

(** [firstPost?.cooked ?? firstPost?.raw ?? ""] *)
Definition html (detail : TopicDetail) : string :=
  match match firstPost detail with Some p => cooked p | None => None end with
  | Some c => c
  | None =>
      match match firstPost detail with Some p => raw p | None => None end with
      | Some r => r
      | None => ""
      end
  end.

Definition header : string := "id,title,body,created_at,tag" ++ String newline "".

Section Crawler.

(** [parseISO] of date-fns and [path.join] of Node. *)
Variable parseISO : string -> Date.
Variable path_join : string -> string -> string.

Definition outputFile (params : CrawlParams) : string :=
  path_join (outputDir params) (tag params ++ "_topics.csv").

Definition csvLine (params : CrawlParams) (listing : TopicListItem)
           (cleanBody : string) : string :=
  Js.join ","
    [ Js.of_int (id listing);
      escapeCsv (title listing);
      escapeCsv cleanBody;
      created_at listing;
      tag params ]
  ++ String newline "".

(** [saveTopic] *)
Definition saveTopic (params : CrawlParams) (listing : TopicListItem)
           (detail : TopicDetail) : Effect unit :=
  Eff.flatMap
    (Eff.sync (listing, stripHtml (html detail)))
    (fun '(listing, cleanBody) =>
       Eff.tryPromise
         (fs_appendFile (outputFile params) (csvLine params listing cleanBody))
         toError).

(** [createCsvHeader] *)
Definition createCsvHeader (params : CrawlParams) : Effect unit :=
  Eff.tryPromise (fs_writeFile (outputFile params) header) toError.

(** The callback of [Effect.forEach] in [crawlPage]. *)
Definition crawlTopic (params : CrawlParams) (t : TopicListItem) : Effect unit :=
  Eff.suspend
    (let createdDate := parseISO (created_at t) in
     if isBefore createdDate (since params)
     then Eff.succeed tt
     else Eff.flatMap (fetchJson Detail (buildDetailUrl (id t)))
                      (fun detail => saveTopic params t detail)).

(** [crawlPage]; [fuel] bounds the number of pages. *)
Fixpoint crawlPage (fuel : nat) (params : CrawlParams) (page : Z) : Effect unit :=
  match fuel with
  | O => Cut
  | S fuel' =>
      Eff.flatMap (fetchJson Listing (buildListUrl (tag params) page))
        (fun res =>
           let topics := topics (topic_list res) in
           let more_topics_url := more_topics_url (topic_list res) in
           Eff.flatMap
             (Eff.forEach topics (crawlTopic params))
             (fun _ =>
                if falsy more_topics_url
                   || existsb (fun t => isBefore (parseISO (created_at t)) (since params))
                              topics
                then Eff.succeed tt
                else crawlPage fuel' params (page + 1)))
  end.

(** [crawlNvidia] *)
Definition crawlNvidia (fuel : nat) (p : CrawlParams) : Effect unit :=
  Eff.tapError
    (Eff.flatMap (createCsvHeader p) (fun _ => crawlPage fuel p 1))
    (fun e => console_error e).

End Crawler.

(** ** Reading a run off its log *)

(** The calls of a run are answered in order, so the log tells what the
    run saw and did. *)

(** The failure a call amounts to, if any: a request that could not be
    made, a status that is not a success, a body that does not decode, a
    file operation that is rejected. *)
Definition failure_of (ev : Event) : option Error :=
  match ev with
  | Ev op a =>
      match op as o return Answer o -> option Error with
      | Fetch _ _ => fun a =>
          match a with
          | Rejected t => Some (toError t)
          | Resolved r =>
              if ok r then
                match json r with
                | inl t => Some (toError t)
                | inr _ => None
                end
              else Some {| message := "HTTP " ++ Js.of_int (status r) |}
          end
      | WriteFile _ _ => fun a => option_map (fun rej => toError (reason rej)) a
      | AppendFile _ _ => fun a => option_map (fun rej => toError (reason rej)) a
      | ConsoleError _ => fun _ => None
      end a
  end.

(** The payload a fetch delivered. *)
Definition delivered (k : Kind) (a : Fetched (Payload k)) : option (Payload k) :=
  match a with
  | Resolved r =>
      if ok r then
        match json r with
        | inr v => Some v
        | inl _ => None
        end
      else None
  | Rejected _ => None
  end.

(** What [fetchJson] makes of an answer. *)
Definition fetch_exit (k : Kind) (a : Fetched (Payload k)) : Exit Error (Payload k) :=
  match delivered k a, failure_of (Ev (Fetch k "") a) with
  | Some v, _ => Success v
  | None, Some e => Failure e
  | None, None => Unfinished
  end.

(** The listing items a call delivered, in the order of the page. *)
Definition listing_of (ev : Event) : list TopicListItem :=
  match ev with
  | Ev op a =>
      match op as o return Answer o -> list TopicListItem with
      | Fetch Listing _ => fun a =>
          match delivered Listing a with
          | Some res => topics (topic_list res)
          | None => []
          end
      | _ => fun _ => []
      end a
  end.

(** The items discovered: page after page, each page in its order. *)
Definition listed (evs : list Event) : list TopicListItem :=
  flat_map listing_of evs.

(** The line a call appended to the file [path]. *)
Definition appended_by (path : string) (ev : Event) : list string :=
  match ev with
  | Ev op a =>
      match op as o return Answer o -> list string with
      | AppendFile p data => fun a =>
          match a with
          | None => if String.eqb p path then [data] else []
          | Some _ => []
          end
      | _ => fun _ => []
      end a
  end.

Definition appended (path : string) (evs : list Event) : list string :=
  flat_map (appended_by path) evs.

(** The lines one after the other. *)
Definition cat (lines : list string) : string :=
  fold_right String.append "" lines.

(** The part of a line that a rejected append left in the file [path]. *)
Definition remnant_by (path : string) (ev : Event) : string :=
  match ev with
  | Ev op a =>
      match op as o return Answer o -> string with
      | AppendFile p data => fun a =>
          match a with
          | None => ""
          | Some rej =>
              match kept rej with
              | Some n => if String.eqb p path then take n data else ""
              | None => ""
              end
          end
      | _ => fun _ => ""
      end a
  end.

Definition remnant (path : string) (evs : list Event) : string :=
  cat (map (remnant_by path) evs).

(** All that the appends put into the file [path], call after call: whole
    lines and parts of lines. *)
Definition added (path : string) (evs : list Event) : string :=
  cat (map (fun ev => (cat (appended_by path ev) ++ remnant_by path ev)%string) evs).

Definition is_write (ev : Event) : bool :=
  match ev with
  | Ev (WriteFile _ _) _ => true
  | _ => false
  end.

(** The files after the calls [evs]. *)
Definition replay (evs : list Event) (fs : Files) : Files :=
  fold_left (fun fs ev => match ev with Ev op a => perform op a fs end) evs fs.

(** Two worlds that answer alike every call made before time [n]. *)
Definition agree_before (n : nat) (W W' : World) : Prop :=
  forall t op, t < n -> W t op = W' t op.

(** [t.createdAt] is strictly before [since]: both are dates and the
    first is the earlier one. *)
Definition stale (parseISO : string -> Date) (p : CrawlParams) (t : TopicListItem) : Prop :=
  exists a b, parseISO (created_at t) = Some a /\ since p = Some b /\ (a < b)%Z.

(** The same as a test. *)
Definition fresh (parseISO : string -> Date) (p : CrawlParams) (t : TopicListItem) : bool :=
  negb (isBefore (parseISO (created_at t)) (since p)).

(** The page has a link to a next page: present and not empty. *)
Definition has_next (u : option string) : Prop :=
  exists c r, u = Some (String c r).

(** ** The runs the specification allows *)

(** The exit of a run without its value, and the outcome of a run so. *)
Definition void {E A} (r : Exit E A) : Exit E unit :=
  match r with
  | Success _ => Success tt
  | Failure e => Failure e
  | Unfinished => Unfinished
  end.

Definition voided {E A} (x : Exit E A * State) : Exit E unit * State :=
  (void (fst x), snd x).

(** The report of a failure on the console. *)
Definition report (r : Exit Error unit) : list Event :=
  match r with
  | Failure e => [Ev (ConsoleError e) tt]
  | _ => []
  end.

(** The state machine that the specification gives for the crawl
    controller (Init, FetchingPage, ProcessingItems, Decide, Done, Failed),
    written as the logs it leaves: per item, per page, per sequence of
    pages, per run. The crawler is proved below to leave such logs only. *)

Section Traces.

Variable parseISO : string -> Date.
Variable path_join : string -> string -> string.
Variable p : CrawlParams.

(** A harvested thread: the listing item and the detail fetched for it;
    its row; the two calls made for it. *)
Definition row (h : TopicListItem * TopicDetail) : string :=
  csvLine p (fst h) (stripHtml (html (snd h))).

Definition listing_call (page : Z) : Op :=
  Fetch Listing (buildListUrl (tag p) page).

Definition detail_call (t : TopicListItem) : Op :=
  Fetch Detail (buildDetailUrl (id t)).

Definition append_call (h : TopicListItem * TopicDetail) : Op :=
  AppendFile (outputFile path_join p) (row h).

(** Decide: stop when the page has no next-page link or a stale item. *)
Definition stops (res : TopicListRes) : bool :=
  falsy (more_topics_url (topic_list res))
  || negb (forallb (fresh parseISO p) (topics (topic_list res))).

(** ProcessingItems, one item: skipped when stale; else its detail is
    fetched and its row appended, and either call may fail. *)
Inductive TopicTrace (t : TopicListItem) : Exit Error unit -> list Event -> Prop :=
| TopicSkipped :
    fresh parseISO p t = false ->
    TopicTrace t (Success tt) []
| TopicFetchFailed a e :
    fresh parseISO p t = true ->
    failure_of (Ev (detail_call t) a) = Some e ->
    TopicTrace t (Failure e) [Ev (detail_call t) a]
| TopicAppendFailed a d (th : Rejection) :
    fresh parseISO p t = true ->
    delivered Detail a = Some d ->
    TopicTrace t (Failure (toError th))
               [Ev (detail_call t) a; Ev (append_call (t, d)) (Some th)]
| TopicSaved a d :
    fresh parseISO p t = true ->
    delivered Detail a = Some d ->
    TopicTrace t (Success tt)
               [Ev (detail_call t) a; Ev (append_call (t, d)) None].

(** ProcessingItems, the items of a page in order, up to the first
    failure. *)
Inductive ItemsTrace : list TopicListItem -> Exit Error unit -> list Event -> Prop :=
| ItemsDone : ItemsTrace [] (Success tt) []
| ItemsNext t ts evs r evs' :
    TopicTrace t (Success tt) evs ->
    ItemsTrace ts r evs' ->
    ItemsTrace (t :: ts) r (evs ++ evs')
| ItemsFailed t ts e evs :
    TopicTrace t (Failure e) evs ->
    ItemsTrace (t :: ts) (Failure e) evs.

(** FetchingPage, ProcessingItems, Decide, from page [page] on. *)
Inductive PagesTrace : Z -> Exit Error unit -> list Event -> Prop :=
| PagesCut page :
    PagesTrace page Unfinished []
| PageFetchFailed page a e :
    failure_of (Ev (listing_call page) a) = Some e ->
    PagesTrace page (Failure e) [Ev (listing_call page) a]
| PageItemsFailed page a res e evs :
    delivered Listing a = Some res ->
    ItemsTrace (topics (topic_list res)) (Failure e) evs ->
    PagesTrace page (Failure e) (Ev (listing_call page) a :: evs)
| PageLast page a res evs :
    delivered Listing a = Some res ->
    ItemsTrace (topics (topic_list res)) (Success tt) evs ->
    stops res = true ->
    PagesTrace page (Success tt) (Ev (listing_call page) a :: evs)
| PageNext page a res evs r evs' :
    delivered Listing a = Some res ->
    ItemsTrace (topics (topic_list res)) (Success tt) evs ->
    stops res = false ->
    PagesTrace (page + 1) r evs' ->
    PagesTrace page r (Ev (listing_call page) a :: evs ++ evs').

(** Init, then the pages; a failure is reported on the console. *)
Definition header_call : Op := WriteFile (outputFile path_join p) header.

Inductive RunTrace : Exit Error unit -> list Event -> Prop :=
| RunHeaderFailed (th : Rejection) :
    RunTrace (Failure (toError th))
             [Ev header_call (Some th); Ev (ConsoleError (toError th)) tt]
| RunFailed e evs :
    PagesTrace 1 (Failure e) evs ->
    RunTrace (Failure e) (Ev header_call None :: evs ++ [Ev (ConsoleError e) tt])
| RunEnded r evs :
    PagesTrace 1 r evs ->
    (forall e, r <> Failure e) ->
    RunTrace r (Ev header_call None :: evs).

(** The threads harvested by the calls [l] out of the listing [items]:
    their rows are the lines appended, they are the fresh ones among the
    first [k] items, and the detail of each was delivered by a fetch. *)
Definition Harvest (items : list TopicListItem) (l : list Event)
           (hs : list (TopicListItem * TopicDetail)) (k : nat) : Prop :=
  appended (outputFile path_join p) l = map row hs
  /\ map fst hs = filter (fresh parseISO p) (firstn k items)
  /\ Forall (fun h => exists a, In (Ev (detail_call (fst h)) a) l
                                /\ delivered Detail a = Some (snd h)) hs.

(** A log without a failure, and a log that a failure ends. *)
Definition Quiet (evs : list Event) : Prop :=
  Forall (fun ev => failure_of ev = None) evs.

Definition AbortsAt (r : Exit Error unit) (evs : list Event) : Prop :=
  match r with
  | Failure e =>
      exists pre fev, evs = pre ++ [fev] /\ Quiet pre /\ failure_of fev = Some e
  | _ => Quiet evs
  end.

End Traces.

(** ** Strings: escaping and stripping *)

(** The character [c] occurs in [s]. *)
Definition occurs (c : ascii) (s : string) : Prop :=
  exists a b, s = (a ++ String c b)%string.

(** Every double quote written twice, every other character as it is. *)
Fixpoint doubled (s : string) : string :=
  match s with
  | EmptyString => EmptyString
  | String c r =>
      if Ascii.eqb c dquote then String dquote (String dquote (doubled r))
      else String c (doubled r)
  end.

(** A reader of a quoted CSV field, from behind its opening quote: a
    doubled quote stands for one quote, a single one must end the field. *)
Fixpoint read_quoted (s : string) : option string :=
  match s with
  | EmptyString => None
  | String c r =>
      if Ascii.eqb c dquote then
        match r with
        | EmptyString => Some EmptyString
        | String d r' =>
            if Ascii.eqb d dquote then option_map (String dquote) (read_quoted r')
            else None
        end
      else option_map (String c) (read_quoted r)
  end.

(** [s] starts with a tag: a [<], a body that is not empty and has no [>],
    a [>]; [rest] is what follows the tag. *)
Definition tag_at (s body rest : string) : Prop :=
  s = String lt_sign (body ++ String gt_sign rest)%string
  /\ body <> "" /\ ~ occurs gt_sign body.

(** [out] is [s] with its tags removed, read from left to right; a
    character stays exactly when no tag starts at it. *)
Inductive Stripped : string -> string -> Prop :=
| Stripped_nil : Stripped "" ""
| Stripped_tag s body rest out :
    tag_at s body rest -> Stripped rest out -> Stripped s out
| Stripped_keep c r out :
    (forall body rest, ~ tag_at (String c r) body rest) ->
    Stripped r out -> Stripped (String c r) (String c out).

(** The line of a row as the specification words it: every field escaped,
    in the order of the header, and a line feed. *)
Definition escaped_line (params : CrawlParams) (listing : TopicListItem)
           (cleanBody : string) : string :=
  (Js.join ","
     (map escapeCsv
        [ Js.of_int (id listing); title listing; cleanBody;
          created_at listing; tag params ])
   ++ String newline "")%string.

(** The detail has no post at all. *)
Definition NoPosts (detail : TopicDetail) : Prop :=
  post_stream detail = None
  \/ exists ps, post_stream detail = Some ps
                /\ (posts ps = None \/ posts ps = Some []).

(** The body to clean, as the specification words it: the rendered body of
    the first post if present, otherwise its raw body, otherwise the empty
    string. *)
Inductive Selected (detail : TopicDetail) : string -> Prop :=
| SelCooked ps post rest c :
    post_stream detail = Some ps -> posts ps = Some (post :: rest) ->
    cooked post = Some c ->
    Selected detail c
| SelRaw ps post rest r :
    post_stream detail = Some ps -> posts ps = Some (post :: rest) ->
    cooked post = None -> raw post = Some r ->
    Selected detail r
| SelBare ps post rest :
    post_stream detail = Some ps -> posts ps = Some (post :: rest) ->
    cooked post = None -> raw post = None ->
    Selected detail ""
| SelNoPosts :
    NoPosts detail ->
    Selected detail "".

(** ** Concrete runs *)

(** The scenarios of the specification, as worlds. *)
Module Demo.

Definition parseISO (s : string) : Date :=
  if String.eqb s "2024-02-01T00:00:00.000Z" then Some 1706745600000%Z
  else if String.eqb s "2023-12-01T00:00:00.000Z" then Some 1701388800000%Z
  else None.

Definition path_join (dir file : string) : string := dir ++ "/" ++ file.

(** [since] is 2024-01-01. *)
Definition params : CrawlParams :=
  {| tag := "cuda"; since := Some 1704067200000%Z; outputDir := "/out" |}.

Definition newer : TopicListItem :=
  {| id := 1; title := "Hello, World"; slug := "hello-world";
     created_at := "2024-02-01T00:00:00.000Z" |}.

Definition older : TopicListItem :=
  {| id := 2; title := "Old news"; slug := "old-news";
     created_at := "2023-12-01T00:00:00.000Z" |}.

Definition undated : TopicListItem :=
  {| id := 3; title := "When"; slug := "when"; created_at := "yesterday" |}.

Definition detail : TopicDetail :=
  {| post_stream :=
       Some {| posts :=
                 Some [ {| raw := Some "Hello **world**";
                           cooked := Some "<p>Hello <b>world</b></p>";
                           post_created_at := "2024-02-01T00:00:00.000Z" |} ] |} |}.

Definition no_posts : TopicDetail := {| post_stream := Some {| posts := Some [] |} |}.

Definition page (items : list TopicListItem) (next : option string) : TopicListRes :=
  {| topic_list := {| topics := items; more_topics_url := next |} |}.

Definition ok200 {T} (v : T) : Fetched T :=
  Resolved {| status := 200; json := inr v |}.

Definition boom : Thrown := ThrowError {| message := "boom" |}.

(** A world made of a server and a disk that never fails. *)
Definition serve (listing : string -> Fetched TopicListRes)
           (details : string -> Fetched TopicDetail) : World :=
  fun _ op =>
    match op as o return Answer o with
    | Fetch k url =>
        match k as k0 return Fetched (Payload k0) with
        | Listing => listing url
        | Detail => details url
        end
    | WriteFile _ _ => None
    | AppendFile _ _ => None
    | ConsoleError _ => tt
    end.

(** A file operation rejected before the file is opened, and one rejected
    when [n] code units have been written. *)
Definition refused : Rejection := {| reason := boom; kept := None |}.

Definition torn (n : nat) : Rejection := {| reason := boom; kept := Some n |}.

(** The world [W], but the call at time [n] fails: a request cannot be
    made, a file cannot be opened. *)
Definition failing_at (n : nat) (W : World) : World :=
  fun t op =>
    if Nat.eqb t n then
      match op as o return Answer o with
      | Fetch _ _ => Rejected boom
      | WriteFile _ _ => Some refused
      | AppendFile _ _ => Some refused
      | ConsoleError _ => tt
      end
    else W t op.

(** The world [W], but a file operation at time [n] is rejected when [k]
    code units have been written. *)
Definition torn_at (n k : nat) (W : World) : World :=
  fun t op =>
    if Nat.eqb t n then
      match op as o return Answer o with
      | Fetch k url => W t (Fetch k url)
      | WriteFile _ _ => Some (torn k)
      | AppendFile _ _ => Some (torn k)
      | ConsoleError _ => tt
      end
    else W t op.

(** One page with a newer and an older thread, and no next page. *)
Definition one_page : World :=
  serve (fun _ => ok200 (page [newer; older] None)) (fun _ => ok200 detail).

(** Two pages: a newer thread, then an older one. *)
Definition two_pages : World :=
  serve (fun url =>
           if String.eqb url (buildListUrl "cuda" 1)
           then ok200 (page [newer] (Some "/tag/cuda?page=2"))
           else ok200 (page [older] None))
        (fun _ => ok200 detail).

(** The listing answers with status 500. *)
Definition broken : World :=
  serve (fun _ => Resolved {| status := 500; json := inl boom |})
        (fun _ => ok200 detail).

(** The same thread listed twice on a page. *)
Definition twice : World :=
  serve (fun _ => ok200 (page [newer; newer] None)) (fun _ => ok200 detail).

(** Two pages: an undated thread, then an older one. *)
Definition undated_pages : World :=
  serve (fun url =>
           if String.eqb url (buildListUrl "cuda" 1)
           then ok200 (page [undated] (Some "/tag/cuda?page=2"))
           else ok200 (page [older] None))
        (fun _ => ok200 no_posts).

(** An older thread listed between an undated and a newer one. *)
Definition mixed : World :=
  serve (fun _ => ok200 (page [undated; older; newer] (Some "/tag/cuda?page=2")))
        (fun _ => ok200 no_posts).

Definition start : State := {| log := []; files := fun _ => None |}.

Definition out : string := outputFile path_join params.

Definition crawl (W : World) (fuel : nat) : Exit Error unit * State :=
  Eff.runPromise W (crawlNvidia parseISO path_join fuel params) start.

(** The state when the listing of page 1 has been fetched, and when its
    items have been processed. *)
Definition page_fetched (W : World) : State :=
  record (listing_call params 1) (W 0 (listing_call params 1)) start.

Definition page_done (W : World) (items : list TopicListItem) : State :=
  snd (Eff.runPromise W (Eff.forEach items (crawlTopic parseISO path_join params))
         (page_fetched W)).

End Demo.

(** ** Further definitions *)

(** A reader of one CSV field that stands alone: a field that opens with a
    double quote is read as a quoted one, any other as it is. *)
Definition read_field (f : string) : option string :=
  match f with
  | EmptyString => Some EmptyString
  | String c r => if Ascii.eqb c dquote then read_quoted r else Some f
  end.

(** No tag starts anywhere in [s]. *)
Definition tag_free (s : string) : Prop :=
  forall a t body rest, s = (a ++ t)%string -> ~ tag_at t body rest.

(** A string that needs no quoting in a CSV file. *)
Definition plain (s : string) : Prop :=
  ~ occurs comma s /\ ~ occurs newline s /\ ~ occurs dquote s.

(** A reader of CSV records in the style of RFC 4180: fields are separated
    by commas and a record ends with a line feed; a field that opens with a
    double quote runs to the next double quote that is not doubled, a
    doubled one standing for one quote; a double quote inside a field that
    did not open with one is an error. [read_record] reads one record off
    the front of [s] and returns its fields with what follows the record. *)
Inductive CsvMode := AtStart | InPlain | InQuoted | AfterQuote.

Fixpoint read_record (m : CsvMode) (cur : string) (fields : list string) (s : string)
  : option (list string * string) :=
  match s with
  | EmptyString => None
  | String c r =>
      match m with
      | AtStart =>
          if Ascii.eqb c dquote then read_record InQuoted "" fields r
          else if Ascii.eqb c comma then read_record AtStart "" (fields ++ [""]) r
          else if Ascii.eqb c newline then Some (fields ++ [""], r)
          else read_record InPlain (String c "") fields r
      | InPlain =>
          if Ascii.eqb c comma then read_record AtStart "" (fields ++ [cur]) r
          else if Ascii.eqb c newline then Some (fields ++ [cur], r)
          else if Ascii.eqb c dquote then None
          else read_record InPlain (cur ++ String c "") fields r
      | InQuoted =>
          if Ascii.eqb c dquote then read_record AfterQuote cur fields r
          else read_record InQuoted (cur ++ String c "") fields r
      | AfterQuote =>
          if Ascii.eqb c dquote then read_record InQuoted (cur ++ String dquote "") fields r
          else if Ascii.eqb c comma then read_record AtStart "" (fields ++ [cur]) r
          else if Ascii.eqb c newline then Some (fields ++ [cur], r)
          else None
      end
  end.

Definition read_row (s : string) : option (list string * string) :=
  read_record AtStart "" [] s.

(** The records of a whole file. *)
Inductive Rows : string -> list (list string) -> Prop :=
| RowsEnd : Rows "" []
| RowsNext s fields rest rows :
    read_row s = Some (fields, rest) -> Rows rest rows -> Rows s (fields :: rows).

(** The fields of the header line and of the row of a harvested thread. *)
Definition header_fields : list string :=
  ["id"; "title"; "body"; "created_at"; "tag"].

Definition row_fields (params : CrawlParams) (h : TopicListItem * TopicDetail)
  : list string :=
  [ Js.of_int (id (fst h)); title (fst h); stripHtml (html (snd h));
    created_at (fst h); tag params ].

(** More to read off a log: the addresses of the listing fetches, the
    listing pages delivered, the errors reported on the console, the file a
    call writes to. *)
Definition listing_url_of (ev : Event) : list string :=
  match ev with
  | Ev (Fetch Listing url) _ => [url]
  | _ => []
  end.

Definition listing_urls (evs : list Event) : list string :=
  flat_map listing_url_of evs.

Definition page_of (ev : Event) : list TopicListRes :=
  match ev with
  | Ev op a =>
      match op as o return Answer o -> list TopicListRes with
      | Fetch Listing _ => fun a =>
          match delivered Listing a with
          | Some res => [res]
          | None => []
          end
      | _ => fun _ => []
      end a
  end.

Definition pages_seen (evs : list Event) : list TopicListRes :=
  flat_map page_of evs.

Definition report_of (ev : Event) : list Error :=
  match ev with
  | Ev (ConsoleError e) _ => [e]
  | _ => []
  end.

Definition reports (evs : list Event) : list Error :=
  flat_map report_of evs.

Definition path_of (ev : Event) : option string :=
  match ev with
  | Ev (WriteFile path _) _ => Some path
  | Ev (AppendFile path _) _ => Some path
  | _ => None
  end.

Definition is_fetch (ev : Event) : bool :=
  match ev with
  | Ev (Fetch _ _) _ => true
  | _ => false
  end.

(** The exit and the calls of a run that starts when [n] calls have been
    made: the files have no part in them. *)
Fixpoint outcome {E A} (W : World) (m : Task E A) (n : nat) : Exit E A * list Event :=
  match m with
  | Done a => (Success a, [])
  | Raise e => (Failure e, [])
  | Call op k =>
      let a := W n op in
      let rest := outcome W (k a) (S n) in
      (fst rest, Ev op a :: snd rest)
  | Cut => (Unfinished, [])
  end.

(** ** The command line ([run.ts]) *)

(** What [parseArgs] prints before the process exits: lines of
    [console.error] and of [console.log]. *)
Inductive Printed :=
| ToError (line : string)
| ToLog (text : string).

(** [parseArgs] returns, or the process exits with code 1 in [showHelp]. *)
Inductive Cli (A : Type) : Type :=
| Continue (a : A)
| Exit1 (printed : list Printed).

Arguments Continue {A} a.
Arguments Exit1 {A} printed.

Definition helpText : string := "
使用方法:
  npm start -- [オプション]

オプション:
  --tag <タグ名>       検索するタグ（例: cuda, pytorch）
  --since <日付>       この日付以降のトピックを取得（例: 2024-01-01）
  --output <ディレクトリ> 出力先ディレクトリ（デフォルト: ./output）

例:
  npm start -- --tag cuda --since 2024-01-01
  npm start -- --tag pytorch --since 2023-12-01 --output ./pytorch_data
".

(** [showHelp], called when [printed] has been printed: the help, then
    [process.exit(1)]. *)
Definition showHelp {A} (printed : list Printed) : Cli A :=
  Exit1 (printed ++ [ToLog helpText]).

(** [value.startsWith(pre)] *)
Definition startsWith (value pre : string) : bool := String.prefix pre value.

(** The object [params] of [parseArgs]: its keys with their values. *)
Definition Obj := string -> option string.

(** [params.key] where the key is set. *)
Definition get_key (params : Obj) (key : string) : string :=
  match params key with
  | Some value => value
  | None => ""
  end.

Definition no_keys : Obj := fun _ => None.

(** [params[key] = value] *)
Definition set_key (key value : string) (params : Obj) : Obj :=
  fun k => if String.eqb k key then Some value else params k.

Definition is_option (key : string) : bool :=
  String.eqb key "--tag" || String.eqb key "--since" || String.eqb key "--output".

(** The loop of [parseArgs] over the arguments, two at a time. A value is
    missing when there is none ([undefined]), when it is empty, or when it
    starts with two dashes. *)
Fixpoint parseLoop (args : list string) (params : Obj) : Cli Obj :=
  match args with
  | [] => Continue params
  | [key] =>
      showHelp [ToError ("エラー: " ++ key ++ " の値が指定されていません")]
  | key :: value :: rest =>
      if String.eqb value "" || startsWith value "--"
      then showHelp [ToError ("エラー: " ++ key ++ " の値が指定されていません")]
      else if is_option key
           then parseLoop rest (set_key (Js.drop 2 key) value params)
           else showHelp [ToError ("エラー: 不明なオプション " ++ key)]
  end.

Section CommandLine.

(** [new Date(string)], [process.cwd()] and [path.resolve] of Node. *)
Variable Date_new : string -> Date.
Variable cwd : string.
Variable path_resolve : string -> string -> string.

(** [parseArgs], on [process.argv]. *)
Definition parseArgs (argv : list string) : Cli CrawlParams :=
  match parseLoop (skipn 2 argv) no_keys with
  | Exit1 printed => Exit1 printed
  | Continue params =>
      if falsy (params "tag") || falsy (params "since")
      then showHelp [ToError "エラー: --tag と --since は必須です"]
      else
        let sinceDate := Date_new (get_key params "since") in
        match sinceDate with
        | None => showHelp [ToError "エラー: 無効な日付形式です"]
        | Some _ =>
            Continue
              {| tag := get_key params "tag";
                 since := sinceDate;
                 outputDir :=
                   path_resolve cwd
                     (if falsy (params "output") then "output"
                      else get_key params "output") |}
        end
  end.

End CommandLine.

(** A command line as [parseArgs] wants it: options, each followed by a
    value that is not empty and does not start with two dashes. *)
Inductive WellFormed : list string -> Prop :=
| WellFormed_nil : WellFormed []
| WellFormed_pair key value rest :
    key = "--tag" \/ key = "--since" \/ key = "--output" ->
    value <> "" -> startsWith value "--" = false ->
    WellFormed rest ->
    WellFormed (key :: value :: rest).

(** The value of the last option [key] on a command line. *)
Fixpoint last_of (key : string) (args : list string) : option string :=
  match args with
  | k :: v :: rest =>
      match last_of key rest with
      | Some w => Some w
      | None => if String.eqb k key then Some v else None
      end
  | _ => None
  end.

(** A command line and its surroundings. *)
Module DemoCli.

Definition Date_new (s : string) : Date :=
  if String.eqb s "2024-01-01" then Some 1704067200000%Z else None.

Definition cwd : string := "/home/user".

Definition path_resolve (dir file : string) : string := dir ++ "/" ++ file.

Definition argv : list string :=
  ["node"; "run.js"; "--tag"; "pytorch"; "--since"; "2024-01-01"; "--tag"; "cuda"].

Definition parsed : CrawlParams :=
  {| tag := "cuda"; since := Some 1704067200000%Z; outputDir := "/home/user/output" |}.

(** A state with an output file left by an earlier run. *)
Definition restart : State :=
  {| log := []; files := fun path => if String.eqb path Demo.out then Some "old" else None |}.

End DemoCli.


Example one_page_ex :
  fst (Demo.crawl Demo.one_page 3) = Success tt
  /\ files (snd (Demo.crawl Demo.one_page 3)) Demo.out
     = Some (header ++ "1," ++ String dquote ("Hello, World" ++ String dquote
               (",Hello world,2024-02-01T00:00:00.000Z,cuda" ++ String newline "")))%string
  /\ length (log (snd (Demo.crawl Demo.one_page 3))) = 4.
Proof. repeat split. Qed.

Example broken_ex :
  fst (Demo.crawl Demo.broken 3) = Failure {| message := "HTTP 500" |}
  /\ files (snd (Demo.crawl Demo.broken 3)) Demo.out = Some header
  /\ length (log (snd (Demo.crawl Demo.broken 3))) = 3.
Proof. repeat split. Qed.

Example two_pages_ex :
  fst (Demo.crawl Demo.two_pages 3) = Success tt
  /\ length (log (snd (Demo.crawl Demo.two_pages 3))) = 5
  /\ fst (Demo.crawl Demo.two_pages 1) = Unfinished.
Proof. repeat split. Qed.

Example torn_ex :
  files (snd (Demo.crawl (Demo.torn_at 3 4 Demo.two_pages) 3)) Demo.out
  = Some (header ++ "1," ++ String dquote "H")%string.
Proof. reflexivity. Qed.

Example stripHtml_ex : stripHtml "<p>Hello <b>world</b></p>" = "Hello world".
Proof. reflexivity. Qed.
Example stripHtml_ex2 : stripHtml "a<>b<c" = "a<>b<c".
Proof. reflexivity. Qed.
Example stripHtml_ex3 : stripHtml "a < b and c > d" = "a  d".
Proof. reflexivity. Qed.
Example escapeCsv_ex :
  escapeCsv ("She said " ++ String dquote ("hi" ++ String dquote ""))
  = String dquote ("She said " ++ String dquote (String dquote ("hi"
      ++ String dquote (String dquote (String dquote ""))))).
Proof. reflexivity. Qed.
Example of_int_ex : (Js.of_int 0, Js.of_int 42, Js.of_int (-5)) = ("0", "42", "-5").
Proof. reflexivity. Qed.

Section StringLemmas.

Local Open Scope string_scope.

Lemma append_assoc (a b c : string) : (a ++ b) ++ c = a ++ b ++ c.
Proof. induction a as [| x a IH]; simpl; [reflexivity | now rewrite IH]. Qed.

Lemma append_nil_r (a : string) : a ++ "" = a.
Proof. induction a as [| x a IH]; simpl; [reflexivity | now rewrite IH]. Qed.

Lemma length_append (a b : string) :
  String.length (a ++ b) = String.length a + String.length b.
Proof. induction a as [| x a IH]; simpl; [reflexivity | now rewrite IH]. Qed.

Lemma occurs_nil c : ~ occurs c "".
Proof. intros (a & b & H). destruct a; discriminate. Qed.

Lemma occurs_cons c d r : occurs c (String d r) <-> d = c \/ occurs c r.
Proof.
  split.
  - intros (a & b & H). destruct a as [| x a]; simpl in H; inversion H; subst.
    + now left.
    + right. now exists a, b.
  - intros [-> | (a & b & ->)].
    + now exists "", r.
    + now exists (String d a), b.
Qed.

Lemma includes_occurs s c : Js.includes s c = true <-> occurs c s.
Proof.
  induction s as [| d r IH]; simpl.
  - split; [discriminate | intros H; now apply occurs_nil in H].
  - rewrite occurs_cons, orb_true_iff, IH, Ascii.eqb_eq. reflexivity.
Qed.

Lemma drop_nil n : Js.drop n "" = "".
Proof. now destruct n. Qed.

Lemma drop_add a b s : Js.drop (a + b) s = Js.drop b (Js.drop a s).
Proof.
  revert s. induction a as [| a IH]; intros s; [reflexivity |].
  destruct s as [| c r]; simpl; [now rewrite drop_nil | apply IH].
Qed.

Lemma replace_from_drop re by_ k s :
  Js.replace_from re by_ k s = Js.replace re by_ (Js.drop k s).
Proof.
  unfold Js.replace. revert k. induction s as [| c r IH]; intros k.
  - now rewrite drop_nil.
  - destruct k as [| k]; [reflexivity |]. simpl. apply IH.
Qed.

Lemma replace_quote s :
  Js.replace re_quote (String dquote (String dquote "")) s = doubled s.
Proof.
  unfold Js.replace. induction s as [| c r IH]; simpl; [reflexivity |].
  destruct (Ascii.eqb c dquote); simpl; now rewrite IH.
Qed.

Lemma read_quoted_doubled s :
  read_quoted (doubled s ++ String dquote "") = Some s.
Proof.
  induction s as [| c r IH].
  - reflexivity.
  - simpl doubled. destruct (Ascii.eqb c dquote) eqn:E.
    + apply Ascii.eqb_eq in E. subst c. simpl.
      change (Ascii.eqb dquote dquote) with true. cbv iota.
      fold (doubled r ++ String dquote ""). now rewrite IH.
    + simpl. rewrite E. now rewrite IH.
Qed.

(** The run of [run_not] and what ends it. *)
Lemma run_not_split c s :
  exists a b, s = a ++ b /\ String.length a = Js.run_not c s /\ ~ occurs c a
              /\ Js.drop (Js.run_not c s) s = b
              /\ (b = "" \/ exists b', b = String c b').
Proof.
  induction s as [| d r (a & b & Hs & Hl & Ha & Hd & Hb)]; simpl.
  - exists "", "". repeat split; auto using occurs_nil.
  - destruct (Ascii.eqb d c) eqn:E.
    + apply Ascii.eqb_eq in E. subst d.
      exists "", (String c r). repeat split; auto using occurs_nil. right. now exists r.
    + apply Ascii.eqb_neq in E.
      exists (String d a), b. simpl. subst r. repeat split; auto.
      rewrite occurs_cons. tauto.
Qed.

(** A run of characters other than [c] is the run of [run_not]. *)
Lemma run_not_body c body rest :
  ~ occurs c body ->
  Js.run_not c (body ++ String c rest) = String.length body
  /\ Js.drop (String.length body) (body ++ String c rest) = String c rest.
Proof.
  induction body as [| d r IH]; simpl; intros H.
  - now rewrite Ascii.eqb_refl.
  - rewrite occurs_cons in H.
    destruct (Ascii.eqb d c) eqn:E.
    + apply Ascii.eqb_eq in E. tauto.
    + destruct IH as [IH1 IH2]; [tauto |]. now rewrite IH1.
Qed.

Lemma re_tag_Some s m :
  re_tag s = Some m ->
  exists body rest, tag_at s body rest /\ m = String.length body + 2
                    /\ Js.drop m s = rest.
Proof.
  destruct s as [| c r]; unfold re_tag; [discriminate |].
  destruct (Ascii.eqb c lt_sign) eqn:E; [| discriminate].
  apply Ascii.eqb_eq in E. subst c.
  destruct (run_not_split gt_sign r) as (a & b & Hs & Hl & Ha & Hd & Hb).
  destruct (Js.run_not gt_sign r) as [| n] eqn:Hn; [discriminate |].
  rewrite Hd.
  destruct b as [| x b]; [discriminate |]. intros H. inversion H; subst m.
  destruct Hb as [Hb | (b' & Hb)]; [discriminate |]. inversion Hb; subst x b'.
  exists a, b. repeat split; auto.
  - now subst r.
  - intros ->. discriminate.
  - lia.
  - change (Js.drop (n + 2) r = b).
    replace (n + 2) with (S n + 1) by lia. now rewrite drop_add, Hd.
Qed.

Lemma re_tag_None s body rest : re_tag s = None -> ~ tag_at s body rest.
Proof.
  intros H (Hs & Hb & Ho). subst s. unfold re_tag in H.
  rewrite Ascii.eqb_refl in H.
  destruct (run_not_body rest Ho) as [H1 H2]. rewrite H1 in H.
  destruct body as [| d body]; [congruence |].
  change (String.length (String d body)) with (S (String.length body)) in H, H2.
  cbv iota in H. rewrite H2 in H. discriminate.
Qed.

Lemma tag_at_unique s body rest body' rest' :
  tag_at s body rest -> tag_at s body' rest' -> body = body' /\ rest = rest'.
Proof.
  intros (Hs & _ & Ho) (Hs' & _ & Ho'). subst s. inversion Hs' as [H]. clear Hs'.
  revert body' Ho' H. induction body as [| d body IH]; intros body' Ho' H.
  - destruct body' as [| d' body']; simpl in H.
    + inversion H. auto.
    + inversion H; subst. exfalso. apply Ho'. apply occurs_cons. now left.
  - destruct body' as [| d' body']; simpl in H.
    + inversion H; subst. exfalso. apply Ho. apply occurs_cons. now left.
    + inversion H; subst. rewrite occurs_cons in Ho, Ho'.
      destruct (IH (fun X => Ho (or_intror X)) body' (fun X => Ho' (or_intror X)) H2).
      split; congruence.
Qed.

Lemma stripHtml_nil : stripHtml "" = "".
Proof. reflexivity. Qed.

Lemma stripHtml_tag s body rest :
  tag_at s body rest -> stripHtml s = stripHtml rest.
Proof.
  intros Ht. destruct (re_tag s) as [m |] eqn:E.
  - destruct (re_tag_Some _ E) as (b' & r' & Ht' & Hm & Hd).
    destruct (tag_at_unique Ht Ht') as [-> ->].
    destruct Ht as (Hs & _). 
    subst m. rewrite Hs in E, Hd.
    replace (String.length b' + 2) with (S (String.length b' + 1)) in E, Hd by lia.
    cbn [Js.drop] in Hd.
    unfold stripHtml, Js.replace. rewrite Hs.
    cbn [Js.replace_from]. rewrite E.
    cbn [append]. now rewrite replace_from_drop, Hd.
  - exfalso. exact (re_tag_None E Ht).
Qed.

Lemma stripHtml_keep c r :
  (forall body rest, ~ tag_at (String c r) body rest) ->
  stripHtml (String c r) = String c (stripHtml r).
Proof.
  intros H. unfold stripHtml, Js.replace. cbn [Js.replace_from].
  destruct (re_tag (String c r)) as [m |] eqn:E; [| reflexivity].
  destruct (re_tag_Some _ E) as (b' & r' & Ht' & _). now apply H in Ht'.
Qed.

End StringLemmas.

Section Stripping.

Local Open Scope string_scope.

Lemma occurs_app_r c a b : occurs c b -> occurs c (a ++ b).
Proof.
  intros (x & y & ->). exists (a ++ x), y. now rewrite append_assoc.
Qed.

Lemma tag_at_shorter s body rest :
  tag_at s body rest -> String.length rest < String.length s.
Proof.
  intros (-> & _). simpl. rewrite length_append. simpl. lia.
Qed.

Lemma stripHtml_Stripped s : Stripped s (stripHtml s).
Proof.
  remember (String.length s) as n eqn:Hn. revert s Hn.
  induction n as [n IH] using lt_wf_ind. intros s Hn.
  destruct s as [| c r]; [constructor |].
  destruct (re_tag (String c r)) as [m |] eqn:E.
  - destruct (re_tag_Some _ E) as (body & rest & Ht & _).
    rewrite (stripHtml_tag Ht). apply Stripped_tag with body rest; [exact Ht |].
    apply (IH (String.length rest)); [| reflexivity].
    subst n. now apply tag_at_shorter with body.
  - rewrite stripHtml_keep by (intros body rest; now apply re_tag_None).
    apply Stripped_keep; [intros body rest; now apply re_tag_None |].
    apply (IH (String.length r)); [subst n; simpl; lia | reflexivity].
Qed.

Lemma Stripped_unique s out : Stripped s out -> out = stripHtml s.
Proof.
  induction 1 as [| s body rest out Ht _ IH | c r out Hno _ IH].
  - reflexivity.
  - now rewrite (stripHtml_tag Ht).
  - now rewrite (stripHtml_keep Hno), IH.
Qed.

Lemma Stripped_occurs c s out : Stripped s out -> occurs c out -> occurs c s.
Proof.
  induction 1 as [| s body rest out (-> & _) _ IH | d r out _ _ IH]; intros Ho.
  - exact Ho.
  - apply occurs_cons. right. apply occurs_app_r. apply occurs_cons. right. auto.
  - apply occurs_cons in Ho. apply occurs_cons. tauto.
Qed.

(** Where a [<] is no start of a tag. *)
Lemma no_tag_at r :
  (forall body rest, ~ tag_at (String lt_sign r) body rest) ->
  r = "" \/ (exists r', r = String gt_sign r') \/ ~ occurs gt_sign r.
Proof.
  intros H.
  destruct (run_not_split gt_sign r) as (a & b & Hs & _ & Ha & _ & Hb).
  destruct Hb as [-> | (b' & ->)].
  - right. right. now rewrite Hs, append_nil_r.
  - destruct a as [| d a].
    + right. left. now exists b'.
    + exfalso. apply (H (String d a) b'). subst r. repeat split; auto. discriminate.
Qed.

Lemma Stripped_no_tag s out :
  Stripped s out ->
  forall a t body rest, out = a ++ t -> ~ tag_at t body rest.
Proof.
  induction 1 as [| s body0 rest0 out _ _ IH | c r out Hno Hr IH];
    intros a t body rest Ha Ht.
  - destruct a; [| discriminate]. simpl in Ha. subst t.
    destruct Ht as (Ht & _). discriminate.
  - exact (IH a t body rest Ha Ht).
  - destruct a as [| x a]; simpl in Ha.
    + subst t. destruct Ht as (Ht & Hb & Ho). inversion Ht as [[Hc Hout]].
      subst c. pose proof (Stripped_unique Hr) as Hu. rewrite Hout in Hu.
      destruct (no_tag_at Hno) as [-> | [(r' & ->) | Hn]].
      * destruct body; discriminate.
      * rewrite stripHtml_keep in Hu
          by (intros b0 r0 (X & _); discriminate).
        destruct body as [| d body]; [congruence |].
        simpl in Hu. inversion Hu; subst d.
        apply Ho. apply occurs_cons. now left.
      * apply Hn. apply (Stripped_occurs Hr). rewrite Hout.
        apply occurs_app_r. apply occurs_cons. now left.
    + inversion Ha; subst. exact (IH a t body rest eq_refl Ht).
Qed.

(** C8. [stripHtml] is defined on every string. Its result is the input
    with the tags removed, a tag being a [<], one or more characters
    other than [>], and a [>]: the result is obtained by deleting tags
    from left to right and keeping every other character in its place,
    it is the only string so obtained, and no tag is left in it. A [<]
    that opens no tag stays. The page fragment of the specification
    gives [Hello world]. *)
Theorem stripHtml_removes_tags :
  (forall s,
      Stripped s (stripHtml s)
      /\ (forall out, Stripped s out -> out = stripHtml s)
      /\ (forall a t body rest, stripHtml s = a ++ t -> ~ tag_at t body rest))
  /\ stripHtml "<p>Hello <b>world</b></p>" = "Hello world"
  /\ stripHtml "1 < 2, <b" = "1 < 2, <b".
Proof.
  split; [| split; reflexivity].
  intros s. split; [apply stripHtml_Stripped |]. split.
  - apply Stripped_unique.
  - apply Stripped_no_tag with s. apply stripHtml_Stripped.
Qed.

(** C7. A string with a comma, a line feed or a double quote in it is
    written between double quotes, every double quote of it twice and
    every other character, a line feed too, as it is; reading the field
    back gives the string. *)
Theorem escapeCsv_quotes :
  (forall s,
      occurs comma s \/ occurs newline s \/ occurs dquote s ->
      escapeCsv s = String dquote (doubled s ++ String dquote "")
      /\ read_quoted (doubled s ++ String dquote "") = Some s)
  /\ escapeCsv "Hello, World" = String dquote ("Hello, World" ++ String dquote "")
  /\ escapeCsv ("She said " ++ String dquote ("hi" ++ String dquote ""))
     = String dquote
         ("She said " ++ String dquote (String dquote ("hi"
            ++ String dquote (String dquote (String dquote ""))))).
Proof.
  split; [| split; reflexivity].
  intros s H. split; [| apply read_quoted_doubled].
  unfold escapeCsv. rewrite replace_quote.
  assert (Js.includes s comma || Js.includes s newline || Js.includes s dquote = true)
    as ->; [| reflexivity].
  rewrite !orb_true_iff, !includes_occurs. tauto.
Qed.

Lemma escapeCsv_quotes_witness :
  escapeCsv ("two" ++ String newline "lines")
  = String dquote ("two" ++ String newline ("lines" ++ String dquote "")).
Proof.
  refine (proj1 (proj1 escapeCsv_quotes ("two" ++ String newline "lines") _)).
  right. left. exists "two", "lines". reflexivity.
Defined.

Lemma stripHtml_removes_tags_witness :
  "x" = stripHtml "<<a>x".
Proof.
  refine (proj1 (proj2 (proj1 stripHtml_removes_tags "<<a>x")) "x" _).
  apply Stripped_tag with "<a" "x".
  - repeat split; [discriminate |].
    intros (a & b & H). destruct a as [| c [| d [| e a]]]; simpl in H;
      inversion H; try discriminate.
  - apply Stripped_keep; [| constructor].
    intros body rest (H & _). discriminate.
Defined.

End Stripping.

(** ** Runs *)

Section RunLemmas.

Variable W : World.

Lemma run_flatMap E A B (m : Task E A) (f : A -> Task E B) s :
  Eff.runPromise W (Eff.flatMap m f) s =
  match Eff.runPromise W m s with
  | (Success a, s') => Eff.runPromise W (f a) s'
  | (Failure e, s') => (Failure e, s')
  | (Unfinished, s') => (Unfinished, s')
  end.
Proof.
  revert s. induction m as [a | e | op k IH | ]; intros s; simpl; auto.
Qed.

Lemma run_tryPromise A (m : Promise A) catch s :
  Eff.runPromise W (Eff.tryPromise m catch) s =
  match Eff.runPromise W m s with
  | (Success a, s') => (Success a, s')
  | (Failure t, s') => (Failure (catch t), s')
  | (Unfinished, s') => (Unfinished, s')
  end.
Proof.
  revert s. induction m as [a | e | op k IH | ]; intros s; simpl; auto.
Qed.

Lemma run_tapError A B (m : Effect A) (f : Error -> Effect B) s :
  Eff.runPromise W (Eff.tapError m f) s =
  match Eff.runPromise W m s with
  | (Failure e, s') => Eff.runPromise W (Eff.flatMap (f e) (fun _ => Raise e)) s'
  | other => other
  end.
Proof.
  revert s. induction m as [a | e | op k IH | ]; intros s; simpl; auto.
Qed.

(** A run only adds to the log, and the files follow the calls. *)
Lemma run_log E A (m : Task E A) s r s' :
  Eff.runPromise W m s = (r, s') ->
  exists evs, log s' = log s ++ evs /\ files s' = replay evs (files s).
Proof.
  revert s. induction m as [a | e | op k IH | ]; intros s; simpl; intros H.
  - inversion H; subst. exists []. now rewrite app_nil_r.
  - inversion H; subst. exists []. now rewrite app_nil_r.
  - apply IH in H. destruct H as (evs & Hl & Hf). simpl in Hl, Hf.
    exists (Ev op (W (length (log s)) op) :: evs). split.
    + now rewrite Hl, <- app_assoc.
    + exact Hf.
  - inversion H; subst. exists []. now rewrite app_nil_r.
Qed.

Lemma step_run E A (c : Task E A * State) :
  Eff.runPromise W (fst (Eff.step W c)) (snd (Eff.step W c))
  = Eff.runPromise W (fst c) (snd c).
Proof.
  destruct c as [m s]. destruct m; reflexivity.
Qed.

Lemma steps_run E A n (c : Task E A * State) :
  Eff.runPromise W (fst (Eff.steps W n c)) (snd (Eff.steps W n c))
  = Eff.runPromise W (fst c) (snd c).
Proof.
  revert c. induction n as [| n IH]; intros c; simpl; auto.
  now rewrite IH, step_run.
Qed.

Lemma step_log E A (c : Task E A * State) :
  exists evs, log (snd (Eff.step W c)) = log (snd c) ++ evs
              /\ files (snd (Eff.step W c)) = replay evs (files (snd c))
              /\ length evs <= 1.
Proof.
  destruct c as [m s]. destruct m; simpl.
  3: { exists [Ev op (W (length (log s)) op)]. simpl. auto. }
  all: exists []; rewrite app_nil_r; simpl; auto.
Qed.

Lemma replay_app evs1 evs2 fs :
  replay (evs1 ++ evs2) fs = replay evs2 (replay evs1 fs).
Proof. unfold replay. apply fold_left_app. Qed.

Lemma steps_log E A n (c : Task E A * State) :
  exists evs, log (snd (Eff.steps W n c)) = log (snd c) ++ evs
              /\ files (snd (Eff.steps W n c)) = replay evs (files (snd c))
              /\ length evs <= n.
Proof.
  revert c. induction n as [| n IH]; intros c; simpl.
  - exists []. rewrite app_nil_r. simpl. auto.
  - destruct (IH (Eff.step W c)) as (e2 & Hl2 & Hf2 & Hn2).
    destruct (step_log c) as (e1 & Hl1 & Hf1 & Hn1).
    exists (e1 ++ e2). rewrite Hl2, Hl1, Hf2, Hf1, replay_app, length_app, app_assoc.
    repeat split; auto. lia.
Qed.

End RunLemmas.

(** ** The crawler follows the state machine *)

Section Refinement.

Variable parseISO : string -> Date.
Variable path_join : string -> string -> string.
Variable p : CrawlParams.
Variable W : World.

Local Abbreviation run := (Eff.runPromise W).
Local Abbreviation out := (outputFile path_join p).

Lemma run_fetchJson k url s :
  run (fetchJson k url) s
  = (fetch_exit k (W (length (log s)) (Fetch k url)),
     record (Fetch k url) (W (length (log s)) (Fetch k url)) s).
Proof.
  unfold fetchJson, fetch, fetch_exit. simpl.
  destruct (W (length (log s)) (Fetch k url)) as [t | r]; simpl; [reflexivity |].
  destruct (ok r); simpl; [| reflexivity].
  destruct (json r); reflexivity.
Qed.

Lemma fetch_exit_cases k url a :
  (exists v, fetch_exit k a = Success v /\ delivered k a = Some v
             /\ failure_of (Ev (Fetch k url) a) = None)
  \/ (exists e, fetch_exit k a = Failure e /\ delivered k a = None
                /\ failure_of (Ev (Fetch k url) a) = Some e).
Proof.
  unfold fetch_exit. destruct a as [t | r]; simpl.
  - right. eauto.
  - destruct (ok r); [destruct (json r) |]; eauto.
Qed.

Lemma run_appendFile path data s :
  run (Eff.tryPromise (fs_appendFile path data) toError) s
  = (match W (length (log s)) (AppendFile path data) with
     | None => Success tt
     | Some th => Failure (toError th)
     end,
     record (AppendFile path data) (W (length (log s)) (AppendFile path data)) s).
Proof.
  simpl. destruct (W (length (log s)) (AppendFile path data)); reflexivity.
Qed.

Lemma run_saveTopic t d s :
  run (saveTopic path_join p t d) s
  = (match W (length (log s)) (append_call path_join p (t, d)) with
     | None => Success tt
     | Some th => Failure (toError th)
     end,
     record (append_call path_join p (t, d))
            (W (length (log s)) (append_call path_join p (t, d))) s).
Proof. apply run_appendFile. Qed.

Lemma log_record op a s : log (record op a s) = log s ++ [Ev op a].
Proof. reflexivity. Qed.

Lemma files_record op a s : files (record op a s) = perform op a (files s).
Proof. reflexivity. Qed.

(** One item. *)
Lemma crawlTopic_trace t s r s' :
  run (crawlTopic parseISO path_join p t) s = (r, s') ->
  exists evs, log s' = log s ++ evs /\ TopicTrace parseISO path_join p t r evs.
Proof.
  unfold crawlTopic, Eff.suspend.
  destruct (isBefore (parseISO (created_at t)) (since p)) eqn:Hb.
  - simpl. intros H. inversion H; subst. exists []. split.
    + now rewrite app_nil_r.
    + constructor. unfold fresh. now rewrite Hb.
  - assert (Hf : fresh parseISO p t = true) by (unfold fresh; now rewrite Hb).
    rewrite run_flatMap, run_fetchJson.
    remember (W (length (log s)) (Fetch Detail (buildDetailUrl (id t)))) as a1 eqn:Ha1.
    destruct (@fetch_exit_cases Detail (buildDetailUrl (id t)) a1)
      as [(d & -> & Hd & _) | (e & -> & _ & He)].
    + rewrite run_saveTopic.
      match goal with
      | |- context [W ?n (append_call path_join p ?h)] =>
          destruct (W n (append_call path_join p h)) as [th |]
      end; intros H; inversion H; subst r s'; clear H.
      * exists [Ev (detail_call t) a1; Ev (append_call path_join p (t, d)) (Some th)].
        split; [| eapply TopicAppendFailed; eauto].
        rewrite !log_record, <- app_assoc. reflexivity.
      * exists [Ev (detail_call t) a1; Ev (append_call path_join p (t, d)) None].
        split; [| eapply TopicSaved; eauto].
        rewrite !log_record, <- app_assoc. reflexivity.
    + intros H. inversion H; subst r s'; clear H.
      exists [Ev (detail_call t) a1]. split; [| eapply TopicFetchFailed; eauto].
      now rewrite log_record.
Qed.

(** The items of a page. *)
Lemma forEach_trace ts s r s' :
  run (Eff.forEach ts (crawlTopic parseISO path_join p)) s = (r, s') ->
  exists evs, log s' = log s ++ evs
              /\ ItemsTrace parseISO path_join p ts (void r) evs.
Proof.
  revert s r s'. induction ts as [| t ts IH]; intros s r s'; simpl.
  - intros H. inversion H; subst. exists []. split; [now rewrite app_nil_r | constructor].
  - rewrite run_flatMap.
    destruct (run (crawlTopic parseISO path_join p t) s) as [r1 s1] eqn:H1.
    apply crawlTopic_trace in H1. destruct H1 as (e1 & Hl1 & Ht).
    destruct r1 as [[] | e |].
    + rewrite run_flatMap.
      destruct (run (Eff.forEach ts (crawlTopic parseISO path_join p)) s1) as [r2 s2] eqn:H2.
      apply IH in H2. destruct H2 as (e2 & Hl2 & Hi).
      assert (Hlog : log s2 = log s ++ e1 ++ e2) by now rewrite Hl2, Hl1, app_assoc.
      destruct r2 as [us | e |]; simpl; intros H; inversion H; subst;
        exists (e1 ++ e2); (split; [exact Hlog | eapply ItemsNext; eauto]).
    + intros H. inversion H; subst. exists e1. split; [exact Hl1 |].
      now apply ItemsFailed.
    + inversion Ht.
Qed.

Lemma existsb_stale ts :
  existsb (fun t => isBefore (parseISO (created_at t)) (since p)) ts
  = negb (forallb (fresh parseISO p) ts).
Proof.
  induction ts as [| t ts IH]; simpl; [reflexivity |].
  rewrite IH. unfold fresh. rewrite negb_andb, negb_involutive. reflexivity.
Qed.

(** Decide. *)
Lemma crawlPage_decide fuel page s res us s1 :
  delivered Listing (W (length (log s)) (listing_call p page)) = Some res ->
  run (Eff.forEach (topics (topic_list res)) (crawlTopic parseISO path_join p))
      (record (listing_call p page) (W (length (log s)) (listing_call p page)) s)
  = (Success us, s1) ->
  run (crawlPage parseISO path_join (S fuel) p page) s
  = if stops parseISO p res then (Success tt, s1)
    else run (crawlPage parseISO path_join fuel p (page + 1)) s1.
Proof.
  intros Hd Hi. cbn [crawlPage]. rewrite run_flatMap, run_fetchJson.
  fold (listing_call p page).
  destruct (@fetch_exit_cases Listing (buildListUrl (tag p) page)
              (W (length (log s)) (listing_call p page)))
    as [(v & Hv & Hd' & _) | (e & _ & Hd' & _)]; [| unfold listing_call in *; congruence].
  unfold listing_call in *. rewrite Hv.
  assert (v = res) by congruence. subst v.
  rewrite run_flatMap, Hi, existsb_stale. unfold stops.
  destruct (falsy _ || negb _); reflexivity.
Qed.

Lemma ItemsTrace_finished ts r evs :
  ItemsTrace parseISO path_join p ts r evs -> r <> Unfinished.
Proof.
  induction 1 as [| t ts evs r evs' _ _ IH | t ts e evs _]; auto; discriminate.
Qed.

(** The pages. *)
Lemma crawlPage_trace fuel page s r s' :
  run (crawlPage parseISO path_join fuel p page) s = (r, s') ->
  exists evs, log s' = log s ++ evs /\ PagesTrace parseISO path_join p page r evs.
Proof.
  revert page s r s'. induction fuel as [| fuel IH]; intros page s r s'.
  - simpl. intros H. inversion H; subst. exists []. split; [now rewrite app_nil_r | constructor].
  - destruct (@fetch_exit_cases Listing (buildListUrl (tag p) page)
                (W (length (log s)) (listing_call p page)))
      as [(res & Hv & Hd & _) | (e & Hv & _ & He)].
    + destruct (run (Eff.forEach (topics (topic_list res)) (crawlTopic parseISO path_join p))
                    (record (listing_call p page)
                            (W (length (log s)) (listing_call p page)) s))
        as [r1 s1] eqn:H1.
      pose proof (forEach_trace _ _ H1) as (e1 & Hl1 & Hi). rewrite log_record in Hl1.
      destruct r1 as [us | e |].
      * rewrite (crawlPage_decide fuel _ _ Hd H1).
        destruct (stops parseISO p res) eqn:Hs.
        -- intros H. inversion H; subst. eexists. split; [| eapply PageLast; eauto].
           now rewrite Hl1, <- app_assoc.
        -- intros H. apply IH in H. destruct H as (e2 & Hl2 & Hp).
           eexists. split; [| eapply PageNext; eauto].
           now rewrite Hl2, Hl1, <- !app_assoc.
      * cbn [crawlPage]. rewrite run_flatMap, run_fetchJson.
        unfold listing_call in *. rewrite Hv, run_flatMap, H1.
        intros H. inversion H; subst. eexists. split; [| eapply PageItemsFailed; eauto].
        now rewrite Hl1, <- app_assoc.
      * now apply ItemsTrace_finished in Hi.
    + cbn [crawlPage]. rewrite run_flatMap, run_fetchJson.
      unfold listing_call in *. rewrite Hv.
      intros H. inversion H; subst. eexists. split; [| eapply PageFetchFailed; eauto].
      now rewrite log_record.
Qed.

(** The whole run. *)
Lemma run_crawlNvidia fuel s :
  run (crawlNvidia parseISO path_join fuel p) s
  = match W (length (log s)) (header_call path_join p) with
    | Some th =>
        (Failure (toError th),
         record (ConsoleError (toError th)) tt
                (record (header_call path_join p) (Some th) s))
    | None =>
        match run (crawlPage parseISO path_join fuel p 1)
                  (record (header_call path_join p) None s) with
        | (Failure e, s2) => (Failure e, record (ConsoleError e) tt s2)
        | other => other
        end
    end.
Proof.
  unfold crawlNvidia. rewrite run_tapError, run_flatMap.
  unfold createCsvHeader, header_call. simpl.
  destruct (W (length (log s)) (WriteFile out header)) as [th |].
  - simpl. now destruct (W _ (ConsoleError (toError th))).
  - simpl. destruct (run _ _) as [[[] | e |] s2]; try reflexivity.
    simpl. now destruct (W _ (ConsoleError e)).
Qed.

Lemma crawlNvidia_trace fuel s r s' :
  run (crawlNvidia parseISO path_join fuel p) s = (r, s') ->
  exists evs, log s' = log s ++ evs /\ RunTrace parseISO path_join p r evs.
Proof.
  rewrite run_crawlNvidia.
  destruct (W (length (log s)) (header_call path_join p)) as [th |].
  - intros H. inversion H; subst r s'. eexists. split; [| apply RunHeaderFailed].
    now rewrite !log_record, <- app_assoc.
  - destruct (run _ _) as [r2 s2] eqn:H2.
    apply crawlPage_trace in H2. destruct H2 as (evs & Hl & Hp).
    rewrite log_record in Hl.
    destruct r2 as [[] | e |]; intros H; inversion H; subst r s'.
    + eexists. split; [| apply RunEnded; [exact Hp | discriminate]].
      now rewrite Hl, <- app_assoc.
    + eexists. split; [| apply RunFailed; exact Hp].
      now rewrite log_record, Hl, <- !app_assoc.
    + eexists. split; [| apply RunEnded; [exact Hp | discriminate]].
      now rewrite Hl, <- app_assoc.
Qed.

End Refinement.

(** ** What the state machine guarantees *)

Section TraceFacts.

Variable parseISO : string -> Date.
Variable path_join : string -> string -> string.
Variable p : CrawlParams.

Local Abbreviation out := (outputFile path_join p).
Local Abbreviation TopicTrace' := (TopicTrace parseISO path_join p).
Local Abbreviation ItemsTrace' := (ItemsTrace parseISO path_join p).
Local Abbreviation PagesTrace' := (PagesTrace parseISO path_join p).

Lemma delivered_quiet k url a v :
  delivered k a = Some v -> failure_of (Ev (Fetch k url) a) = None.
Proof.
  destruct a as [t | r]; simpl; [discriminate |].
  destruct (ok r); [| discriminate]. destruct (json r); [discriminate | reflexivity].
Qed.

(** *** A failure ends the run *)

Lemma Quiet_app l1 l2 : Quiet l1 -> Quiet l2 -> Quiet (l1 ++ l2).
Proof. intros H1 H2. apply Forall_app. now split. Qed.

Lemma AbortsAt_app r l1 l2 : Quiet l1 -> AbortsAt r l2 -> AbortsAt r (l1 ++ l2).
Proof.
  intros H1 H2. destruct r as [a | e |]; simpl in *; auto using Quiet_app.
  destruct H2 as (pre & fev & -> & Hq & Hf).
  exists (l1 ++ pre), fev. rewrite app_assoc. auto using Quiet_app.
Qed.

Lemma TopicTrace_aborts t r evs : TopicTrace' t r evs -> AbortsAt r evs.
Proof.
  intros [Hf | a e Hf He | a d th Hf Hd | a d Hf Hd]; simpl.
  - constructor.
  - exists [], (Ev (detail_call t) a). repeat split; auto. constructor.
  - exists [Ev (detail_call t) a], (Ev (append_call path_join p (t, d)) (Some th)).
    repeat split; auto. repeat constructor. eapply delivered_quiet; eauto.
  - repeat constructor. eapply delivered_quiet; eauto.
Qed.

Lemma ItemsTrace_aborts ts r evs : ItemsTrace' ts r evs -> AbortsAt r evs.
Proof.
  induction 1 as [| t ts evs r evs' Ht _ IH | t ts e evs Ht].
  - constructor.
  - apply AbortsAt_app; [| exact IH]. exact (TopicTrace_aborts Ht).
  - exact (TopicTrace_aborts Ht).
Qed.

Lemma PagesTrace_aborts page r evs : PagesTrace' page r evs -> AbortsAt r evs.
Proof.
  induction 1 as [page | page a e He | page a res e evs Hd Hi
                  | page a res evs Hd Hi Hs | page a res evs r evs' Hd Hi Hs _ IH].
  - constructor.
  - exists [], (Ev (listing_call p page) a). repeat split; auto. constructor.
  - apply (@AbortsAt_app _ [_] _); [| exact (ItemsTrace_aborts Hi)].
    repeat constructor. eapply delivered_quiet; eauto.
  - apply (@AbortsAt_app _ [_] _); [| exact (ItemsTrace_aborts Hi)].
    repeat constructor. eapply delivered_quiet; eauto.
  - apply (@AbortsAt_app _ (_ :: evs) _); [| exact IH].
    constructor; [eapply delivered_quiet; eauto | exact (ItemsTrace_aborts Hi)].
Qed.

(** *** After the header the file is only appended to *)

Lemma TopicTrace_no_write t r evs :
  TopicTrace' t r evs -> Forall (fun ev => is_write ev = false) evs.
Proof. intros []; repeat constructor. Qed.

Lemma ItemsTrace_no_write ts r evs :
  ItemsTrace' ts r evs -> Forall (fun ev => is_write ev = false) evs.
Proof.
  induction 1 as [| t ts evs r evs' Ht _ IH | t ts e evs Ht].
  - constructor.
  - apply Forall_app. split; [exact (TopicTrace_no_write Ht) | exact IH].
  - exact (TopicTrace_no_write Ht).
Qed.

Lemma PagesTrace_no_write page r evs :
  PagesTrace' page r evs -> Forall (fun ev => is_write ev = false) evs.
Proof.
  induction 1 as [page | page a e He | page a res e evs Hd Hi
                  | page a res evs Hd Hi Hs | page a res evs r evs' Hd Hi Hs _ IH].
  - constructor.
  - repeat constructor.
  - constructor; [reflexivity | exact (ItemsTrace_no_write Hi)].
  - constructor; [reflexivity | exact (ItemsTrace_no_write Hi)].
  - constructor; [reflexivity |]. apply Forall_app.
    split; [exact (ItemsTrace_no_write Hi) | exact IH].
Qed.

Lemma appended_app path l1 l2 :
  appended path (l1 ++ l2) = appended path l1 ++ appended path l2.
Proof. apply flat_map_app. Qed.

Lemma listed_app l1 l2 : listed (l1 ++ l2) = listed l1 ++ listed l2.
Proof. apply flat_map_app. Qed.

Lemma cat_app l1 l2 : cat (l1 ++ l2) = (cat l1 ++ cat l2)%string.
Proof.
  induction l1 as [| x l1 IH]; simpl; [reflexivity |].
  now rewrite IH, append_assoc.
Qed.

Lemma added_app path l1 l2 :
  added path (l1 ++ l2) = (added path l1 ++ added path l2)%string.
Proof. unfold added. now rewrite map_app, cat_app. Qed.

Lemma remnant_app path l1 l2 :
  remnant path (l1 ++ l2) = (remnant path l1 ++ remnant path l2)%string.
Proof. unfold remnant. now rewrite map_app, cat_app. Qed.

Lemma added_cons path ev l :
  added path (ev :: l)
  = ((cat (appended_by path ev) ++ remnant_by path ev) ++ added path l)%string.
Proof. reflexivity. Qed.


(** Only a rejected append leaves a part of a line. *)
Lemma remnant_quiet_by path ev : failure_of ev = None -> remnant_by path ev = "".
Proof.
  destruct ev as [op a]. destruct op as [k url | pth data | pth data | e]; simpl; auto.
  destruct a; [discriminate | reflexivity].
Qed.

Lemma remnant_quiet path l : Quiet l -> remnant path l = "".
Proof.
  induction 1 as [| ev l Hev _ IH]; [reflexivity |].
  unfold remnant in *. cbn [map cat fold_right].
  fold (cat (map (remnant_by path) l)). now rewrite IH, (remnant_quiet_by _ _ Hev).
Qed.

Lemma appended_failed path ev e :
  failure_of ev = Some e -> appended_by path ev = [].
Proof.
  destruct ev as [op a]. destruct op as [k url | pth data | pth data | e']; simpl; auto.
  destruct a; [reflexivity | discriminate].
Qed.

Lemma added_quiet path l : Quiet l -> added path l = cat (appended path l).
Proof.
  induction 1 as [| ev l Hev _ IH]; [reflexivity |].
  rewrite added_cons, IH, (remnant_quiet_by _ _ Hev), append_nil_r.
  unfold appended. cbn [flat_map]. now rewrite cat_app.
Qed.

(** A log in which nothing is appended behind a rejected append: what
    was added to the file is the whole lines and then the part of a
    line. *)
Lemma added_split path l :
  (forall pre ev post e,
      l = pre ++ ev :: post -> failure_of ev = Some e -> appended path post = []) ->
  added path l = (cat (appended path l) ++ remnant path l)%string.
Proof.
  induction l as [| ev l IH]; intros H; [reflexivity |].
  rewrite added_cons, IH.
  - unfold appended, remnant. cbn [flat_map map cat fold_right].
    fold (appended path l). fold (cat (map (remnant_by path) l)).
    rewrite cat_app.
    destruct (failure_of ev) as [e |] eqn:He.
    + rewrite (appended_failed _ _ He), (H [] ev l e eq_refl He). reflexivity.
    + rewrite (remnant_quiet_by _ _ He), append_nil_r. cbn [append].
      now rewrite !append_assoc.
  - intros pre ev' post e -> He. exact (H (ev :: pre) ev' post e eq_refl He).
Qed.

Lemma replay_appends path l fs c :
  Forall (fun ev => is_write ev = false) l ->
  fs path = Some c ->
  replay l fs path = Some (c ++ added path l)%string.
Proof.
  intros Hl. revert fs c. induction Hl as [| ev l Hw _ IH]; intros fs c Hc.
  - simpl. now rewrite append_nil_r.
  - destruct ev as [op a]. change (replay (Ev op a :: l) fs) with (replay l (perform op a fs)).
    rewrite added_cons.
    destruct op as [k url | pth data | pth data | e]; try discriminate Hw.
    + simpl. now apply IH.
    + assert (Put : forall x,
                 replay l (put pth (content fs pth ++ x) fs) path
                 = Some (c ++ (if String.eqb pth path then x else "") ++ added path l)%string).
      { intros x. destruct (String.eqb pth path) eqn:E.
        - apply String.eqb_eq in E. subst pth.
          rewrite (IH _ (c ++ x)%string).
          + now rewrite append_assoc.
          + unfold put, content. now rewrite String.eqb_refl, Hc.
        - apply IH. unfold put. now rewrite String.eqb_sym, E. }
      destruct a as [th |]; cbn [perform appended_by remnant_by cat fold_right].
      * destruct (kept th) as [n |].
        -- rewrite Put. now destruct (String.eqb pth path).
        -- cbn [append]. now apply IH.
      * rewrite Put. destruct (String.eqb pth path); cbn [cat fold_right append];
          now rewrite ?append_nil_r.
    + simpl. now apply IH.
Qed.

(** *** The rows are those of the fresh items, in the order of discovery *)

Lemma appended_fetch path k url a l :
  appended path (Ev (Fetch k url) a :: l) = appended path l.
Proof. reflexivity. Qed.

Lemma appended_saved path data l :
  appended path (Ev (AppendFile path data) None :: l) = data :: appended path l.
Proof.
  unfold appended. cbn [flat_map appended_by]. now rewrite String.eqb_refl.
Qed.

Lemma appended_rejected path pth data th l :
  appended path (Ev (AppendFile pth data) (Some th) :: l) = appended path l.
Proof. reflexivity. Qed.

Lemma listed_detail url a l : listed (Ev (Fetch Detail url) a :: l) = listed l.
Proof. reflexivity. Qed.

Lemma listed_append pth data a l : listed (Ev (AppendFile pth data) a :: l) = listed l.
Proof. reflexivity. Qed.

Lemma listed_listing url a res l :
  delivered Listing a = Some res ->
  listed (Ev (Fetch Listing url) a :: l) = topics (topic_list res) ++ listed l.
Proof.
  intros H. unfold listed. cbn [flat_map listing_of]. now rewrite H.
Qed.

Lemma failed_not_delivered k url a e :
  failure_of (Ev (Fetch k url) a) = Some e -> delivered k a = None.
Proof.
  destruct a as [t | r]; simpl; [reflexivity |].
  destruct (ok r); [| reflexivity]. destruct (json r); [reflexivity | discriminate].
Qed.

Lemma Harvest_nil items : Harvest parseISO path_join p items [] [] 0.
Proof. repeat split. constructor. Qed.

Lemma Harvest_more items l l0 hs k :
  Harvest parseISO path_join p items l hs k ->
  appended out l0 = [] ->
  Harvest parseISO path_join p items (l0 ++ l) hs k.
Proof.
  intros (Ha & Hm & Hd) H0. repeat split; auto.
  - now rewrite appended_app, H0.
  - eapply Forall_impl; [| exact Hd]. intros h (a & Hi & Hv).
    exists a. split; auto. apply in_or_app. now right.
Qed.

(** One item, seen part of the way. *)
Lemma TopicTrace_prefix t r evs l l' :
  TopicTrace' t r evs -> evs = l ++ l' ->
  listed l = []
  /\ ((appended out l = [] /\ (l' = [] -> r = Success tt -> fresh parseISO p t = false))
      \/ (exists a d,
             l' = [] /\ r = Success tt /\ fresh parseISO p t = true
             /\ appended out l = [row p (t, d)]
             /\ In (Ev (detail_call t) a) l /\ delivered Detail a = Some d)).
Proof.
  intros [Hf | a e Hf He | a d th Hf Hd | a d Hf Hd] Hl.
  - destruct l; [| discriminate]. split; auto.
  - destruct l as [| x [| y l]]; cbn [app] in Hl; inversion Hl; subst;
      (split; [reflexivity | left; split; [reflexivity | intros; congruence]]).
  - destruct l as [| x [| y [| z l]]]; cbn [app] in Hl; inversion Hl; subst;
      (split; [reflexivity | left; split; [reflexivity | intros; congruence]]).
  - destruct l as [| x [| y [| z l]]]; cbn [app] in Hl; inversion Hl; subst; (split; [reflexivity |]).
    + left. split; [reflexivity | intros; congruence].
    + left. split; [reflexivity | intros; congruence].
    + right. exists a, d. repeat split; auto.
      * unfold detail_call, append_call. now rewrite appended_fetch, appended_saved.
      * now left.
Qed.

Lemma Harvest_skip t ts l hs k :
  fresh parseISO p t = false ->
  Harvest parseISO path_join p ts l hs k ->
  Harvest parseISO path_join p (t :: ts) l hs (S k).
Proof.
  intros Hf (Ha & Hm & Hd). repeat split; auto.
  cbn [firstn filter]. now rewrite Hf.
Qed.

Lemma Harvest_save t d a ts l0 l hs k :
  fresh parseISO p t = true ->
  appended out l0 = [row p (t, d)] ->
  In (Ev (detail_call t) a) l0 -> delivered Detail a = Some d ->
  Harvest parseISO path_join p ts l hs k ->
  Harvest parseISO path_join p (t :: ts) (l0 ++ l) ((t, d) :: hs) (S k).
Proof.
  intros Hf H0 Hi Hv (Ha & Hm & Hd). repeat split.
  - now rewrite appended_app, H0, Ha.
  - cbn [firstn filter map fst]. now rewrite Hf, Hm.
  - constructor.
    + exists a. split; auto. apply in_or_app. now left.
    + eapply Forall_impl; [| exact Hd]. intros h (a' & Hi' & Hv').
      exists a'. split; auto. apply in_or_app. now right.
Qed.

(** The items of a page, seen part of the way. *)
Lemma ItemsTrace_prefix ts r evs :
  ItemsTrace' ts r evs ->
  forall l l', evs = l ++ l' ->
  listed l = []
  /\ exists k hs, k <= length ts
                  /\ Harvest parseISO path_join p ts l hs k
                  /\ (l' = [] -> r = Success tt -> k = length ts).
Proof.
  induction 1 as [| t ts e1 r e2 Ht Hi IH | t ts e e1 Ht]; intros l l' Hl.
  - destruct l; [| discriminate]. destruct l'; [| discriminate].
    split; auto. exists 0, []. repeat split; auto.
  - assert (Whole : forall m, l = e1 ++ m -> e2 = m ++ l' ->
              listed l = []
              /\ exists k hs, k <= length (t :: ts)
                   /\ Harvest parseISO path_join p (t :: ts) l hs k
                   /\ (l' = [] -> r = Success tt -> k = length (t :: ts))).
    { intros m -> ->.
      destruct (TopicTrace_prefix e1 [] Ht) as (Hl1 & Hcase);
        [now rewrite app_nil_r |].
      destruct (IH m l' eq_refl) as (Hl2 & k2 & hs2 & Hk2 & Hh2 & Hc2).
      split; [now rewrite listed_app, Hl1, Hl2 |].
      destruct Hcase as [(Ha & Hs) | (a & d & _ & _ & Hf & Ha & Hin & Hv)].
      - exists (S k2), hs2. split; [simpl; lia | split].
        + apply Harvest_more; auto. apply Harvest_skip; auto.
        + intros. simpl. auto.
      - exists (S k2), ((t, d) :: hs2). split; [simpl; lia | split].
        + eapply Harvest_save; eauto.
        + intros. simpl. auto. }
    symmetry in Hl. apply app_eq_app in Hl.
    destruct Hl as (m & [(-> & ->) | (-> & ->)]).
    + apply (Whole m); reflexivity.
    + destruct m as [| x m].
      * apply (Whole []); [now rewrite !app_nil_r | reflexivity].
      * destruct (TopicTrace_prefix l (x :: m) Ht eq_refl) as (Hl1 & Hcase).
        split; auto. exists 0, [].
        destruct Hcase as [(Ha & _) | (a & d & Hm & _)]; [| discriminate].
        repeat split; auto; try (simpl; lia); try constructor. discriminate.
  - destruct (TopicTrace_prefix l l' Ht Hl) as (Hl1 & Hcase).
    split; auto. exists 0, [].
    destruct Hcase as [(Ha & _) | (a & d & _ & Hr & _)]; [| discriminate].
    repeat split; auto; try (simpl; lia); try constructor. discriminate.
Qed.

(** The pages, seen part of the way. *)
Lemma PagesTrace_prefix page r evs :
  PagesTrace' page r evs ->
  forall l l', evs = l ++ l' ->
  exists k hs, Harvest parseISO path_join p (listed l) l hs k.
Proof.
  assert (Page : forall page a res rI evsI evs',
             delivered Listing a = Some res ->
             ItemsTrace' (topics (topic_list res)) rI evsI ->
             (rI = Success tt \/ evs' = []) ->
             (forall l l', evs' = l ++ l' ->
                exists k hs, Harvest parseISO path_join p (listed l) l hs k) ->
             forall l l', Ev (listing_call p page) a :: evsI ++ evs' = l ++ l' ->
             exists k hs, Harvest parseISO path_join p (listed l) l hs k).
  { intros pg a res rI evsI evs' Hd Hi Hr Hrest l l' Hl.
    destruct l as [| x l].
    { exists 0, []. apply Harvest_nil. }
    inversion Hl as [[Hx Hl']]. subst x. clear Hl.
    unfold listing_call. rewrite (@listed_listing _ _ _ _ Hd).
    apply app_eq_app in Hl'.
    assert (Whole : forall m, l = evsI ++ m -> evs' = m ++ l' ->
              exists k hs, Harvest parseISO path_join p
                             (topics (topic_list res) ++ listed l)
                             (Ev (Fetch Listing (buildListUrl (tag p) pg)) a :: l) hs k).
    { intros m -> Hm.
      destruct (ItemsTrace_prefix Hi evsI [] (eq_sym (app_nil_r _)))
        as (HlI & k1 & hs1 & Hk1 & (Ha1 & Hm1 & Hd1) & Hc1).
      destruct (Hrest m l' Hm) as (k2 & hs2 & Ha2 & Hm2 & Hd2).
      rewrite listed_app, HlI. cbn [app].
      destruct Hr as [-> | ->].
      - rewrite (Hc1 eq_refl eq_refl) in *.
        exists (length (topics (topic_list res)) + k2), (hs1 ++ hs2). repeat split.
        + now rewrite appended_fetch, appended_app, Ha1, Ha2, map_app.
        + now rewrite firstn_app_2, filter_app, map_app, Hm1, Hm2, firstn_all.
        + apply Forall_app. split.
          * eapply Forall_impl; [| exact Hd1]. intros h (a' & Hi' & Hv').
            exists a'. split; auto. right. apply in_or_app. now left.
          * eapply Forall_impl; [| exact Hd2]. intros h (a' & Hi' & Hv').
            exists a'. split; auto. right. apply in_or_app. now right.
      - destruct m; [| discriminate].
        change (listed []) with (@nil TopicListItem). rewrite !app_nil_r.
        exists k1, hs1. repeat split.
        + now rewrite appended_fetch.
        + exact Hm1.
        + eapply Forall_impl; [| exact Hd1]. intros h (a' & Hi' & Hv').
          exists a'. split; auto. now right. }
    destruct Hl' as (m & [(-> & ->) | (-> & ->)]).
    - destruct m as [| y m].
      + apply (Whole []); [now rewrite !app_nil_r | reflexivity].
      + destruct (ItemsTrace_prefix Hi l (y :: m) eq_refl)
          as (HlI & k1 & hs1 & Hk1 & (Ha1 & Hm1 & Hd1) & _).
        exists k1, hs1. rewrite HlI, app_nil_r. repeat split; auto.
        eapply Forall_impl; [| exact Hd1]. intros h (a' & Hi' & Hv').
        exists a'. split; auto. now right.
    - apply (Whole m); reflexivity. }
  assert (Empty : forall l l' : list Event, [] = l ++ l' ->
             exists k hs, Harvest parseISO path_join p (listed l) l hs k).
  { intros l l' Hl. destruct l; [| discriminate]. exists 0, []. apply Harvest_nil. }
  induction 1 as [page | page a e He | page a res e evs Hd Hi
                  | page a res evs Hd Hi Hs | page a res evs r evs' Hd Hi Hs _ IH];
    intros l l' Hl.
  - eapply Empty; eauto.
  - destruct l as [| x [| y l]]; cbn [app] in Hl; inversion Hl; subst.
    + exists 0, []. apply Harvest_nil.
    + exists 0, []. unfold listing_call, listed. cbn [flat_map listing_of].
      rewrite (@failed_not_delivered _ _ _ _ He). repeat split. constructor.
  - apply (Page page a res (Failure e) evs [] Hd Hi (or_intror eq_refl) Empty l l').
    now rewrite app_nil_r.
  - apply (Page page a res (Success tt) evs [] Hd Hi (or_intror eq_refl) Empty l l').
    now rewrite app_nil_r.
  - apply (Page page a res (Success tt) evs evs' Hd Hi (or_introl eq_refl) IH l l').
    exact Hl.
Qed.

End TraceFacts.

(** ** The cutoff and the decision to go on *)

Section Cutoff.

Variable parseISO : string -> Date.
Variable path_join : string -> string -> string.
Variable p : CrawlParams.

Local Abbreviation out := (outputFile path_join p).
Local Abbreviation crawlTopic' := (crawlTopic parseISO path_join p).
Local Abbreviation crawlPage' := (crawlPage parseISO path_join).

Lemma isBefore_stale t :
  isBefore (parseISO (created_at t)) (since p) = true <-> stale parseISO p t.
Proof.
  unfold stale, isBefore.
  destruct (parseISO (created_at t)) as [a |], (since p) as [b |].
  - rewrite Z.ltb_lt. split.
    + intros H. now exists a, b.
    + intros (a' & b' & Ha & Hb & H). congruence.
  - split; [discriminate | intros (a' & b' & _ & Hb & _); discriminate].
  - split; [discriminate | intros (a' & b' & Ha & _); discriminate].
  - split; [discriminate | intros (a' & b' & Ha & _); discriminate].
Qed.

Lemma fresh_not_stale t : fresh parseISO p t = true <-> ~ stale parseISO p t.
Proof.
  unfold fresh. rewrite negb_true_iff, <- isBefore_stale.
  destruct (isBefore _ _); split; congruence.
Qed.

Lemma fresh_false_stale t : fresh parseISO p t = false <-> stale parseISO p t.
Proof.
  unfold fresh. rewrite negb_false_iff. apply isBefore_stale.
Qed.

Lemma falsy_has_next u : falsy u = false <-> has_next u.
Proof.
  unfold has_next. destruct u as [[| c r] |]; simpl; split; try discriminate.
  - intros (c & r & H). discriminate.
  - intros _. now exists c, r.
  - reflexivity.
  - intros (c & r & H). discriminate.
Qed.

Lemma stops_false res :
  stops parseISO p res = false <->
  has_next (more_topics_url (topic_list res))
  /\ forall t, In t (topics (topic_list res)) -> ~ stale parseISO p t.
Proof.
  unfold stops. rewrite orb_false_iff, negb_false_iff, falsy_has_next, forallb_forall.
  split; intros [H1 H2]; split; auto; intros t Ht.
  - apply fresh_not_stale. auto.
  - apply fresh_not_stale. auto.
Qed.

Variable W : World.

Local Abbreviation run := (Eff.runPromise W).

(** A page begins with the fetch of its listing. *)
Lemma crawlPage_starts fuel page s r s2 :
  run (crawlPage' (S fuel) p page) s = (r, s2) ->
  exists evs,
    log s2 = log s ++ Ev (listing_call p page) (W (length (log s)) (listing_call p page))
                   :: evs.
Proof.
  cbn [crawlPage]. rewrite run_flatMap, run_fetchJson. fold (listing_call p page).
  destruct (fetch_exit Listing _) as [res | e |].
  - intros H. apply run_log in H. destruct H as (evs & Hl & _).
    exists evs. now rewrite Hl, log_record, <- app_assoc.
  - intros H. inversion H; subst. exists []. now rewrite log_record.
  - intros H. inversion H; subst. exists []. now rewrite log_record.
Qed.

(** C1. When a listing page has been fetched and all its items have been
    processed, the next page is fetched if the page has a next-page link,
    present and not empty, and none of its items was created before
    [since]: the run goes on as the crawl of the next page, whose first
    call is the fetch of that page's listing. If not, the run ends there
    with success. *)
Theorem next_page_iff_link_and_no_stale fuel page s res us s1 :
  delivered Listing (W (length (log s)) (listing_call p page)) = Some res ->
  run (Eff.forEach (topics (topic_list res)) crawlTopic')
      (record (listing_call p page) (W (length (log s)) (listing_call p page)) s)
  = (Success us, s1) ->
  let next :=
    has_next (more_topics_url (topic_list res))
    /\ forall t, In t (topics (topic_list res)) -> ~ stale parseISO p t in
  (next ->
     run (crawlPage' (S (S fuel)) p page) s = run (crawlPage' (S fuel) p (page + 1)) s1
     /\ exists r s2 evs,
         run (crawlPage' (S (S fuel)) p page) s = (r, s2)
         /\ log s2 = log s1
                     ++ Ev (listing_call p (page + 1))
                           (W (length (log s1)) (listing_call p (page + 1)))
                     :: evs)
  /\ (~ next -> run (crawlPage' (S (S fuel)) p page) s = (Success tt, s1)).
Proof.
  intros Hd Hi next.
  pose proof (@crawlPage_decide parseISO path_join p W (S fuel) page s res us s1 Hd Hi) as Hdec.
  split.
  - intros Hn. apply stops_false in Hn. rewrite Hn in Hdec. split; [exact Hdec |].
    rewrite Hdec.
    destruct (run (crawlPage' (S fuel) p (page + 1)) s1) as [r s2] eqn:H2.
    destruct (crawlPage_starts _ _ _ H2) as (evs & Hl). now exists r, s2, evs.
  - intros Hn. destruct (stops parseISO p res) eqn:Hs; [exact Hdec |].
    apply stops_false in Hs. contradiction.
Qed.

(** C2. An item created before [since] is skipped: the effect made for it
    contains no call, so no detail is fetched and no row written, and the
    state of the run is left as it is. All the item does is stop the
    pagination: a page that lists it is the last one. *)
Theorem stale_item_is_skipped t :
  stale parseISO p t ->
  crawlTopic' t = Done tt
  /\ (forall s, run (crawlTopic' t) s = (Success tt, s))
  /\ (forall fuel page s res us s1,
         delivered Listing (W (length (log s)) (listing_call p page)) = Some res ->
         In t (topics (topic_list res)) ->
         run (Eff.forEach (topics (topic_list res)) crawlTopic')
             (record (listing_call p page) (W (length (log s)) (listing_call p page)) s)
         = (Success us, s1) ->
         run (crawlPage' (S fuel) p page) s = (Success tt, s1)).
Proof.
  intros Hs.
  assert (Ht : crawlTopic' t = Done tt).
  { unfold crawlTopic, Eff.suspend. apply isBefore_stale in Hs. now rewrite Hs. }
  split; [exact Ht |]. split; [intros s; now rewrite Ht |].
  intros fuel page s res us s1 Hd Hin Hi.
  rewrite (@crawlPage_decide parseISO path_join p W fuel page s res us s1 Hd Hi).
  destruct (stops parseISO p res) eqn:E; [reflexivity |].
  apply stops_false in E. destruct E as [_ E]. now apply E in Hin.
Qed.

End Cutoff.

(** ** A page with a stale item, an item without a date, the body *)

Section Items.

Variable parseISO : string -> Date.
Variable path_join : string -> string -> string.
Variable p : CrawlParams.
Variable W : World.

Local Abbreviation out := (outputFile path_join p).
Local Abbreviation crawlTopic' := (crawlTopic parseISO path_join p).
Local Abbreviation crawlPage' := (crawlPage parseISO path_join).
Local Abbreviation run := (Eff.runPromise W).

Lemma run_events E A (m : Task E A) s r s' evs :
  run m s = (r, s') -> log s' = log s ++ evs -> files s' = replay evs (files s).
Proof.
  intros H Hl. apply run_log in H. destruct H as (evs' & Hl' & Hf).
  rewrite Hl' in Hl. apply app_inv_head in Hl. now subst evs'.
Qed.

Lemma replay_content path l fs :
  Forall (fun ev => is_write ev = false) l ->
  content (replay l fs) path = (content fs path ++ added path l)%string.
Proof.
  intros Hl. revert fs. induction Hl as [| ev l Hw _ IH]; intros fs.
  - simpl. now rewrite append_nil_r.
  - destruct ev as [op a]. change (replay (Ev op a :: l) fs) with (replay l (perform op a fs)).
    rewrite IH, added_cons. clear IH.
    destruct op as [k url | pth data | pth data | e]; try discriminate Hw.
    + reflexivity.
    + assert (Put : forall x,
                 content (put pth (content fs pth ++ x) fs) path
                 = (content fs path ++ (if String.eqb pth path then x else ""))%string).
      { intros x. unfold content at 1, put.
        destruct (String.eqb pth path) eqn:E.
        - apply String.eqb_eq in E. subst pth. now rewrite String.eqb_refl.
        - rewrite String.eqb_sym, E. now rewrite append_nil_r. }
      destruct a as [th |]; cbn [perform appended_by remnant_by cat fold_right].
      * destruct (kept th) as [n |]; [| reflexivity].
        rewrite Put, append_assoc. now destruct (String.eqb pth path).
      * rewrite Put, append_assoc.
        destruct (String.eqb pth path); cbn [cat fold_right append];
          now rewrite ?append_nil_r.
    + reflexivity.
Qed.

Lemma appended_In path x evs :
  In x (appended path evs) -> In (Ev (AppendFile path x) None) evs.
Proof.
  unfold appended. rewrite in_flat_map. intros (ev & Hin & Hx).
  destruct ev as [op a]. destruct op as [k url | pth data | pth data | e];
    try (now destruct Hx).
  destruct a as [th |]; [now destruct Hx |]. cbn [appended_by] in Hx.
  destruct (String.eqb pth path) eqn:E; [| now destruct Hx].
  apply String.eqb_eq in E. destruct Hx as [-> | []]. now subst pth.
Qed.

Lemma forEach_cons_voided A (f : A -> Effect unit) t ts s :
  voided (run (Eff.forEach (t :: ts) f) s)
  = match run (f t) s with
    | (Success _, s') => voided (run (Eff.forEach ts f) s')
    | (Failure e, s') => (Failure e, s')
    | (Unfinished, s') => (Unfinished, s')
    end.
Proof.
  cbn [Eff.forEach]. rewrite run_flatMap.
  destruct (run (f t) s) as [[u | e |] s']; try reflexivity.
  rewrite run_flatMap.
  destruct (run (Eff.forEach ts f) s') as [[us | e |] s'']; reflexivity.
Qed.

Lemma forEach_skips pre t post s :
  crawlTopic' t = Done tt ->
  voided (run (Eff.forEach (pre ++ t :: post) crawlTopic') s)
  = voided (run (Eff.forEach (pre ++ post) crawlTopic') s).
Proof.
  intros Ht. revert s. induction pre as [| u pre IH]; intros s.
  - cbn [app]. rewrite forEach_cons_voided, Ht. reflexivity.
  - cbn [app]. rewrite !forEach_cons_voided.
    destruct (run (crawlTopic' u) s) as [[x | e |] s']; auto.
Qed.

(** A whole page processed: the harvest. *)
Lemma forEach_harvest ts s us s1 :
  run (Eff.forEach ts crawlTopic') s = (Success us, s1) ->
  exists evs hs,
    log s1 = log s ++ evs
    /\ Harvest parseISO path_join p ts evs hs (length ts)
    /\ content (files s1) out = (content (files s) out ++ cat (map (row p) hs))%string.
Proof.
  intros H. destruct (forEach_trace parseISO path_join p W _ _ H) as (evs & Hl & Hi).
  destruct (ItemsTrace_prefix Hi evs [] (eq_sym (app_nil_r _)))
    as (_ & k & hs & _ & Hh & Hk).
  rewrite (Hk eq_refl eq_refl) in Hh.
  exists evs, hs. split; [exact Hl |]. split; [exact Hh |].
  rewrite (@run_events _ _ _ _ _ _ _ H Hl), replay_content.
  - rewrite (added_quiet _ (ItemsTrace_aborts Hi)).
    destruct Hh as (Ha & _). now rewrite Ha.
  - exact (ItemsTrace_no_write Hi).
Qed.

Lemma page_with_stale_is_last t fuel page s res us s1 :
  stale parseISO p t ->
  delivered Listing (W (length (log s)) (listing_call p page)) = Some res ->
  In t (topics (topic_list res)) ->
  run (Eff.forEach (topics (topic_list res)) crawlTopic')
      (record (listing_call p page) (W (length (log s)) (listing_call p page)) s)
  = (Success us, s1) ->
  run (crawlPage' (S fuel) p page) s = (Success tt, s1).
Proof.
  intros Hs Hd Hin Hi.
  rewrite (@crawlPage_decide parseISO path_join p W fuel page s res us s1 Hd Hi).
  destruct (stops parseISO p res) eqn:E; [reflexivity |].
  apply stops_false in E. destruct E as [_ E]. now apply E in Hin.
Qed.

Lemma stale_is_done t : stale parseISO p t -> crawlTopic' t = Done tt.
Proof.
  intros Hs. unfold crawlTopic, Eff.suspend. apply isBefore_stale in Hs. now rewrite Hs.
Qed.

(** C3. A stale item does not end the processing of its page. The items
    around it are processed as if it were not listed. When the page is
    processed to its end, every item of it that was not created before
    [since], also one listed after the stale item, has had its detail
    fetched and its row appended, the rows standing in the order of the
    listing. Only the pagination stops: the page is the last one. *)
Theorem stale_item_does_not_abort_page pre t post s r s1 :
  stale parseISO p t ->
  run (Eff.forEach (pre ++ t :: post) crawlTopic') s = (r, s1) ->
  voided (run (Eff.forEach (pre ++ post) crawlTopic') s) = (void r, s1)
  /\ (forall us, r = Success us ->
        exists evs hs,
          log s1 = log s ++ evs
          /\ map fst hs = filter (fresh parseISO p) pre ++ filter (fresh parseISO p) post
          /\ appended out evs = map (row p) hs
          /\ content (files s1) out = (content (files s) out ++ cat (map (row p) hs))%string
          /\ (forall u, In u post -> ~ stale parseISO p u ->
                exists a (d : TopicDetail),
                  In (Ev (detail_call u) a) evs /\ delivered Detail a = Some d
                  /\ In (Ev (append_call path_join p (u, d)) None) evs))
  /\ (forall us fuel page s0 res,
        r = Success us ->
        delivered Listing (W (length (log s0)) (listing_call p page)) = Some res ->
        topics (topic_list res) = pre ++ t :: post ->
        s = record (listing_call p page) (W (length (log s0)) (listing_call p page)) s0 ->
        run (crawlPage' (S fuel) p page) s0 = (Success tt, s1)).
Proof.
  intros Hs Hr. split; [| split].
  - rewrite <- (@forEach_skips pre t post s (stale_is_done Hs)), Hr. reflexivity.
  - intros us ->. destruct (@forEach_harvest _ _ _ _ Hr) as (evs & hs & Hl & Hh & Hc).
    destruct Hh as (Ha & Hm & Hd).
    rewrite firstn_all, filter_app in Hm. cbn [filter] in Hm.
    apply fresh_false_stale in Hs. rewrite Hs in Hm.
    exists evs, hs. repeat split; auto.
    intros u Hu Hfu. apply fresh_not_stale in Hfu.
    assert (Hin : In u (map fst hs)).
    { rewrite Hm. apply in_or_app. right. apply filter_In. now split. }
    apply in_map_iff in Hin. destruct Hin as ([u' d] & Heq & Hh). simpl in Heq. subst u'.
    rewrite Forall_forall in Hd. destruct (Hd _ Hh) as (a & Hina & Hv).
    exists a, d. repeat split; auto.
    apply appended_In. rewrite Ha. now apply (in_map (row p)) in Hh.
  - intros us fuel page s0 res -> Hd Ht ->.
    apply (@page_with_stale_is_last t fuel page s0 res us s1); auto.
    + rewrite Ht. apply in_or_app. right. now left.
    + now rewrite Ht.
Qed.

Lemma fetch_exit_delivered k (a : Fetched (Payload k)) v :
  delivered k a = Some v -> fetch_exit k a = Success v.
Proof. unfold fetch_exit. now intros ->. Qed.

(** A processed page that lists an item which is not stale: the item was
    harvested, and the page is followed by the next one or not as its
    other items and its link decide. *)
Lemma page_with_undated t :
  ~ stale parseISO p t ->
  forall fuel page s res us s1,
    delivered Listing (W (length (log s)) (listing_call p page)) = Some res ->
    In t (topics (topic_list res)) ->
    run (Eff.forEach (topics (topic_list res)) crawlTopic')
        (record (listing_call p page) (W (length (log s)) (listing_call p page)) s)
    = (Success us, s1) ->
    let next :=
      has_next (more_topics_url (topic_list res))
      /\ forall u, In u (topics (topic_list res)) -> u <> t ->
                   ~ stale parseISO p u in
    (exists evs a (d : TopicDetail),
        log s1 = log s ++ Ev (listing_call p page)
                             (W (length (log s)) (listing_call p page)) :: evs
        /\ In (Ev (detail_call t) a) evs /\ delivered Detail a = Some d
        /\ In (Ev (append_call path_join p (t, d)) None) evs)
    /\ (next ->
        run (crawlPage' (S fuel) p page) s = run (crawlPage' fuel p (page + 1)) s1)
    /\ (~ next -> run (crawlPage' (S fuel) p page) s = (Success tt, s1)).
Proof.
  intros Hns fuel page s res us s1 Hd Hin Hi next.
  pose proof (@crawlPage_decide parseISO path_join p W fuel page s res us s1 Hd Hi)
    as Hdec.
  assert (Hall : next <-> stops parseISO p res = false).
  { rewrite stops_false. unfold next. split; intros [Hn Ho]; split; auto.
    intros u Hu Hs. apply (Ho u Hu); [| exact Hs]. intros ->. contradiction. }
  split; [| split].
  - destruct (@forEach_harvest _ _ _ _ Hi) as (evs & hs & Hl & (Ha & Hm & Hdl) & _).
    rewrite firstn_all in Hm.
    assert (Hh : In t (map fst hs)).
    { rewrite Hm. apply filter_In. split; [exact Hin | now apply fresh_not_stale]. }
    apply in_map_iff in Hh. destruct Hh as ([t' d] & Heq & Hh). simpl in Heq. subst t'.
    rewrite Forall_forall in Hdl. destruct (Hdl _ Hh) as (a & Hina & Hv).
    exists evs, a, d. split; [| split; [exact Hina | split; [exact Hv |]]].
    + now rewrite Hl, log_record, <- app_assoc.
    + apply appended_In. rewrite Ha. now apply (in_map (row p)) in Hh.
  - intros Hn. apply Hall in Hn. now rewrite Hn in Hdec.
  - intros Hn. destruct (stops parseISO p res) eqn:Hs; [exact Hdec |].
    exfalso. apply Hn, Hall. reflexivity.
Qed.

Lemma log_record_length op a s : length (log (record op a s)) = S (length (log s)).
Proof. rewrite log_record, length_app. simpl. lia. Qed.

(** C10. An item whose [created_at] is no date is not stale: the
    comparison with [since] is false. Its detail is fetched, and when
    that fetch delivers and the append is not rejected its row is
    written. It does not count for stopping the pagination: the test on
    the page comes out as without the item. So for [crawlPage]: when a
    page that lists the item has been processed, the detail of the item
    has been fetched and its row appended, and the page is followed by
    the next one exactly when it has a next-page link and none of its
    other items was created before [since]; if not, the run ends there
    with success. *)
Theorem undated_item_is_fresh t :
  parseISO (created_at t) = None ->
  ~ stale parseISO p t
  /\ isBefore (parseISO (created_at t)) (since p) = false
  /\ crawlTopic' t
     = Eff.flatMap (fetchJson Detail (buildDetailUrl (id t)))
                   (fun detail => saveTopic path_join p t detail)
  /\ (forall s, exists r s' evs,
         run (crawlTopic' t) s = (r, s')
         /\ log s' = log s ++ Ev (detail_call t) (W (length (log s)) (detail_call t))
                           :: evs)
  /\ (forall s (d : TopicDetail),
         delivered Detail (W (length (log s)) (detail_call t)) = Some d ->
         W (S (length (log s))) (append_call path_join p (t, d)) = None ->
         exists s',
           run (crawlTopic' t) s = (Success tt, s')
           /\ log s' = log s ++ [Ev (detail_call t) (W (length (log s)) (detail_call t));
                                 Ev (append_call path_join p (t, d)) None]
           /\ files s' out = Some (content (files s) out ++ row p (t, d))%string)
  /\ (forall pre post,
         existsb (fun u => isBefore (parseISO (created_at u)) (since p)) (pre ++ t :: post)
         = existsb (fun u => isBefore (parseISO (created_at u)) (since p)) (pre ++ post))
  /\ (forall fuel page s res us s1,
         delivered Listing (W (length (log s)) (listing_call p page)) = Some res ->
         In t (topics (topic_list res)) ->
         run (Eff.forEach (topics (topic_list res)) crawlTopic')
             (record (listing_call p page) (W (length (log s)) (listing_call p page)) s)
         = (Success us, s1) ->
         let next :=
           has_next (more_topics_url (topic_list res))
           /\ forall u, In u (topics (topic_list res)) -> u <> t ->
                        ~ stale parseISO p u in
         (exists evs a (d : TopicDetail),
             log s1 = log s ++ Ev (listing_call p page)
                                  (W (length (log s)) (listing_call p page)) :: evs
             /\ In (Ev (detail_call t) a) evs /\ delivered Detail a = Some d
             /\ In (Ev (append_call path_join p (t, d)) None) evs)
         /\ (next ->
             run (crawlPage' (S fuel) p page) s = run (crawlPage' fuel p (page + 1)) s1)
         /\ (~ next -> run (crawlPage' (S fuel) p page) s = (Success tt, s1))).
Proof.
  intros Hp.
  assert (Hb : isBefore (parseISO (created_at t)) (since p) = false)
    by (now rewrite Hp).
  assert (Ht : crawlTopic' t
               = Eff.flatMap (fetchJson Detail (buildDetailUrl (id t)))
                             (fun detail => saveTopic path_join p t detail)).
  { unfold crawlTopic, Eff.suspend. now rewrite Hb. }
  assert (Hns : ~ stale parseISO p t).
  { rewrite <- isBefore_stale, Hb. discriminate. }
  split; [| split; [exact Hb | split; [exact Ht | split; [| split; [| split]]]]];
    [| | | | apply (page_with_undated Hns)].
  - exact Hns.
  - intros s. rewrite Ht, run_flatMap, run_fetchJson. fold (detail_call t).
    destruct (fetch_exit Detail _) as [d | e |].
    + destruct (run (saveTopic path_join p t d) _) as [r s'] eqn:H.
      apply run_log in H. destruct H as (evs & Hl & _).
      exists r, s', evs. split; [reflexivity |].
      now rewrite Hl, log_record, <- app_assoc.
    + eexists _, _, []. split; [reflexivity |]. now rewrite log_record.
    + eexists _, _, []. split; [reflexivity |]. now rewrite log_record.
  - intros s d Hd Ha. rewrite Ht, run_flatMap, run_fetchJson. fold (detail_call t).
    rewrite (@fetch_exit_delivered _ _ _ Hd), run_saveTopic, log_record_length, Ha.
    eexists. split; [reflexivity |]. split.
    + now rewrite !log_record, <- app_assoc.
    + cbn [files record perform append_call]. unfold put.
      now rewrite String.eqb_refl.
  - intros pre post. rewrite !existsb_app. cbn [existsb]. now rewrite Hb.
Qed.

(** C9. The body of the row is chosen by falling back in order: the
    rendered body of the first post, else its raw body, else the empty
    string. Whatever the detail, one body is chosen, and the line
    appended has it, stripped of markup, as its third field. A detail
    without any post gives an empty third field, and the thread is saved
    like any other. *)
Theorem body_is_chosen_by_fallback listing detail :
  (exists body, Selected detail body)
  /\ (forall body,
         Selected detail body ->
         forall s,
           run (saveTopic path_join p listing detail) s
           = (match W (length (log s))
                      (AppendFile out (csvLine p listing (stripHtml body))) with
              | None => Success tt
              | Some th => Failure (toError th)
              end,
              record (AppendFile out (csvLine p listing (stripHtml body)))
                     (W (length (log s))
                        (AppendFile out (csvLine p listing (stripHtml body)))) s))
  /\ (NoPosts detail ->
      Selected detail ""
      /\ csvLine p listing (stripHtml "")
         = (Js.join "," [Js.of_int (id listing); escapeCsv (title listing); "";
                         created_at listing; tag p]
            ++ String newline "")%string).
Proof.
  assert (Hsel : forall body, Selected detail body -> html detail = body).
  { intros body H. unfold html, firstPost.
    destruct H as [ps post rest c H1 H2 H3 | ps post rest r H1 H2 H3 H4
                   | ps post rest H1 H2 H3 H4 | H].
    - now rewrite H1, H2, H3.
    - now rewrite H1, H2, H3, H4.
    - now rewrite H1, H2, H3, H4.
    - destruct H as [H | (ps & H1 & [H2 | H2])].
      + now rewrite H.
      + now rewrite H1, H2.
      + now rewrite H1, H2. }
  split; [| split].
  - destruct (post_stream detail) as [ps |] eqn:H1.
    + destruct (posts ps) as [[| post rest] |] eqn:H2.
      * exists "". apply SelNoPosts. right. exists ps. auto.
      * destruct (cooked post) as [c |] eqn:H3.
        -- exists c. eapply SelCooked; eauto.
        -- destruct (raw post) as [r |] eqn:H4.
           ++ exists r. eapply SelRaw; eauto.
           ++ exists "". eapply SelBare; eauto.
      * exists "". apply SelNoPosts. right. exists ps. auto.
    + exists "". apply SelNoPosts. now left.
  - intros body H s. rewrite <- (Hsel body H). apply run_saveTopic.
  - intros H. split; [now apply SelNoPosts | reflexivity].
Qed.

End Items.

(** C6, where it fails. The line of a row has the five fields in the order
    of the header and ends with a line feed, but only the title and the
    body go through [escapeCsv]: a tag with a comma in it is written as it
    is, and the line then has six fields. *)
Theorem tag_with_comma_is_written_unescaped :
  let params := {| tag := "a,b"; since := None; outputDir := "/out" |} in
  csvLine params Demo.newer "Hello world"
  = ("1," ++ String dquote ("Hello, World" ++ String dquote
       (",Hello world,2024-02-01T00:00:00.000Z,a,b" ++ String newline "")))%string
  /\ escaped_line params Demo.newer "Hello world"
     = ("1," ++ String dquote ("Hello, World" ++ String dquote
          (",Hello world,2024-02-01T00:00:00.000Z," ++ String dquote ("a,b"
             ++ String dquote (String newline "")))))%string
  /\ csvLine params Demo.newer "Hello world"
     <> escaped_line params Demo.newer "Hello world".
Proof.
  split; [reflexivity | split; [reflexivity | discriminate]].
Qed.

(** Where no field but the title and the body needs quoting, the line is
    the escaped one. *)
Lemma csvLine_escaped params listing body :
  escapeCsv (Js.of_int (id listing)) = Js.of_int (id listing) ->
  escapeCsv (created_at listing) = created_at listing ->
  escapeCsv (tag params) = tag params ->
  csvLine params listing body = escaped_line params listing body.
Proof.
  intros H1 H2 H3. unfold csvLine, escaped_line. cbn [map]. now rewrite H1, H2, H3.
Qed.

(** ** Failures and the file *)

Section Failures.

Variable parseISO : string -> Date.
Variable path_join : string -> string -> string.
Variable p : CrawlParams.

Local Abbreviation out := (outputFile path_join p).
Local Abbreviation crawl := (crawlNvidia parseISO path_join).
Local Abbreviation hdr := (Ev (header_call path_join p) None).



Lemma Quiet_no_failure l pre ev post e :
  Quiet l -> l = pre ++ ev :: post -> failure_of ev = Some e -> False.
Proof.
  intros Hq -> He. apply Forall_app in Hq. destruct Hq as [_ Hq].
  inversion Hq; subst. congruence.
Qed.

(** In a log that a failure ends, the failure is the only one. *)
Lemma unique_failure a fev c pre ev post e :
  Quiet a -> Quiet c ->
  a ++ fev :: c = pre ++ ev :: post -> failure_of ev = Some e ->
  pre = a /\ ev = fev /\ post = c.
Proof.
  intros Ha Hc. revert pre. induction Ha as [| x a Hx _ IH]; intros pre Hl He.
  - destruct pre as [| y pre]; cbn [app] in Hl; inversion Hl; subst; auto.
    exfalso. eapply Quiet_no_failure; eauto.
  - destruct pre as [| y pre]; cbn [app] in Hl; inversion Hl; subst.
    + congruence.
    + destruct (IH pre) as (-> & -> & ->); auto.
Qed.

Lemma report_harmless r :
  Quiet (report r) /\ Forall (fun ev => is_write ev = false) (report r)
  /\ appended out (report r) = [] /\ listed (report r) = []
  /\ forall fs, replay (report r) fs = fs.
Proof. destruct r; repeat split; repeat constructor. Qed.

Variable W : World.

Local Abbreviation run := (Eff.runPromise W).

(** A run whose header is written: the pages, then the report. *)
Lemma crawl_after_header fuel s r s1 :
  W (length (log s)) (header_call path_join p) = None ->
  run (crawl fuel p) s = (r, s1) ->
  exists pevs,
    PagesTrace parseISO path_join p 1 r pevs
    /\ log s1 = log s ++ hdr :: pevs ++ report r
    /\ files s1 = replay (hdr :: pevs ++ report r) (files s).
Proof.
  intros Hh H. pose proof H as H'. rewrite run_crawlNvidia, Hh in H'.
  destruct (Eff.runPromise W (crawlPage parseISO path_join fuel p 1) _)
    as [r2 s2] eqn:H2.
  apply crawlPage_trace in H2. destruct H2 as (pevs & Hl & Hp).
  rewrite log_record in Hl.
  assert (Hr : r = r2 /\ log s1 = log s ++ hdr :: pevs ++ report r2).
  { destruct r2 as [[] | e |]; inversion H'; subst; split; auto; cbn [report].
    - now rewrite Hl, app_nil_r, <- app_assoc.
    - now rewrite log_record, Hl, <- !app_assoc.
    - now rewrite Hl, app_nil_r, <- app_assoc. }
  destruct Hr as [-> Hlog]. exists pevs. split; [exact Hp |]. split; [exact Hlog |].
  exact (@run_events W _ _ _ _ _ _ _ H Hlog).
Qed.

Lemma Harvest_report items l hs k r :
  Harvest parseISO path_join p items l hs k ->
  Harvest parseISO path_join p items (l ++ report r) hs k.
Proof.
  intros (Ha & Hm & Hd). destruct (report_harmless r) as (_ & _ & Hra & _).
  split; [| split]; auto.
  - now rewrite appended_app, Hra, app_nil_r.
  - eapply Forall_impl; [| exact Hd]. intros h (a & Hi & Hv).
    exists a. split; auto. apply in_or_app. now left.
Qed.

(** Where a log that a failure ends has its failing call. *)
Lemma aborted_tail r pevs l l' pre ev post e :
  AbortsAt r pevs -> pevs ++ report r = l ++ l' ->
  l = pre ++ ev :: post -> failure_of ev = Some e ->
  r = Failure e /\ Quiet pre /\ (post = [] \/ post = report r).
Proof.
  intros Ha Hl -> He. rewrite <- app_assoc in Hl. cbn [app] in Hl.
  destruct r as [u | e0 |]; cbn [AbortsAt report] in *.
  - exfalso. rewrite app_nil_r in Hl. eapply Quiet_no_failure; eauto.
  - destruct Ha as (pre0 & fev & -> & Hq & Hfe).
    rewrite <- app_assoc in Hl. cbn [app] in Hl.
    assert (Qc : Quiet [Ev (ConsoleError e0) tt]) by (repeat constructor).
    destruct (@unique_failure pre0 fev [Ev (ConsoleError e0) tt] pre ev (post ++ l') e
                Hq Qc Hl He) as (-> & -> & Hpost).
    assert (e0 = e) by congruence. subst e0.
    split; [reflexivity | split; [exact Hq |]].
    destruct post as [| x post]; [now left | right].
    cbn [app] in Hpost. injection Hpost as Hx Hnil.
    apply app_eq_nil in Hnil. destruct Hnil as [-> _]. now subst x.
  - exfalso. rewrite app_nil_r in Hl. eapply Quiet_no_failure; eauto.
Qed.

(** In the log of a run, seen part of the way, what was added to the file
    is the whole lines and then what the failing call left. *)
Lemma tail_added r pevs l l' :
  AbortsAt r pevs -> pevs ++ report r = l ++ l' ->
  added out l = (cat (appended out l) ++ remnant out l)%string
  /\ (forall pre ev post e,
         l = pre ++ ev :: post -> failure_of ev = Some e ->
         remnant out l = remnant_by out ev).
Proof.
  intros Ha Hl. destruct (report_harmless r) as (Hrq & _ & Hra & _).
  split.
  - apply added_split. intros pre ev post e Hpre He.
    destruct (@aborted_tail r pevs l l' pre ev post e Ha Hl Hpre He) as (_ & _ & [-> | ->]);
      [reflexivity | exact Hra].
  - intros pre ev post e Hpre He.
    destruct (@aborted_tail r pevs l l' pre ev post e Ha Hl Hpre He) as (_ & Hq & Hpost).
    rewrite Hpre. change (ev :: post) with ([ev] ++ post).
    rewrite !remnant_app, (remnant_quiet out Hq).
    replace (remnant out post) with "".
    + unfold remnant at 1. cbn [map cat fold_right append].
      now rewrite !append_nil_r.
    + symmetry. destruct Hpost as [-> | ->]; [reflexivity |].
      now apply remnant_quiet.
Qed.

(** What stands in the log behind the header, seen part of the way. *)
Lemma tail_prefix r pevs l l' :
  PagesTrace parseISO path_join p 1 r pevs ->
  pevs ++ report r = l ++ l' ->
  Forall (fun ev => is_write ev = false) l
  /\ exists k hs, Harvest parseISO path_join p (listed l) l hs k.
Proof.
  intros Hp Hl. destruct (report_harmless r) as (_ & Hrw & _ & Hrl & _).
  split.
  - assert (Hall : Forall (fun ev => is_write ev = false) (l ++ l')).
    { rewrite <- Hl. apply Forall_app. split; [| exact Hrw].
      exact (PagesTrace_no_write Hp). }
    apply Forall_app in Hall. tauto.
  - apply app_eq_app in Hl. destruct Hl as (m & [(Hpe & _) | (-> & Hm)]).
    + exact (PagesTrace_prefix Hp l m Hpe).
    + destruct (PagesTrace_prefix Hp pevs [] (eq_sym (app_nil_r _))) as (k & hs & Hh).
      exists k, hs.
      assert (m = [] \/ m = report r) as [-> | ->].
      { destruct r as [a | e |]; cbn [report] in *.
        - destruct m; [now left | discriminate].
        - destruct m as [| x [| y m]]; cbn [app] in Hm; inversion Hm; subst; auto.
        - destruct m; [now left | discriminate]. }
      * now rewrite app_nil_r.
      * rewrite listed_app, Hrl, app_nil_r. now apply Harvest_report.
Qed.

Lemma header_written fs :
  replay [hdr] fs out = Some header.
Proof.
  unfold replay, header_call. cbn [fold_left perform]. unfold put.
  now rewrite String.eqb_refl.
Qed.

(** The file behind the header. *)
Lemma file_after_header l fs :
  Forall (fun ev => is_write ev = false) l ->
  replay (hdr :: l) fs out = Some (header ++ added out l)%string.
Proof.
  intros Hl. change (hdr :: l) with ([hdr] ++ l). rewrite replay_app.
  apply replay_appends; [exact Hl | apply header_written].
Qed.

End Failures.

(** ** Two worlds *)

Section Agreement.

Variables W W' : World.

(** Up to the first call that the worlds answer differently, two runs of
    one effect leave the same log. *)
Lemma run_agree n E A (m : Task E A) s r s1 r' s2 l :
  agree_before n W W' ->
  Eff.runPromise W m s = (r, s1) ->
  Eff.runPromise W' m s = (r', s2) ->
  length l <= n ->
  (exists x, l = log s ++ x) ->
  (exists y, log s1 = l ++ y) ->
  exists z, log s2 = l ++ z.
Proof.
  intros Hag. revert s.
  assert (Stay : forall s : State,
             (exists x, l = log s ++ x) -> (exists y, log s = l ++ y) ->
             exists z, log s = l ++ z) by auto.
  induction m as [a | e | op k IH | ]; intros s H1 H2 Hn Hx Hy;
    try (inversion H1; inversion H2; subst; auto).
  destruct Hx as ([| ev x] & Hx).
  - rewrite app_nil_r in Hx. subst l. apply run_log in H2.
    destruct H2 as (evs & Hl & _). exists evs. exact Hl.
  - cbn [Eff.runPromise] in H1, H2.
    assert (Hlt : length (log s) < n).
    { subst l. rewrite length_app in Hn. simpl in Hn. lia. }
    rewrite <- (Hag _ op Hlt) in H2.
    refine (IH _ _ H1 H2 Hn _ Hy).
    pose proof H1 as H1'. apply run_log in H1'. destruct H1' as (evs & Hl & _).
    destruct Hy as (y & Hy). rewrite Hl, log_record, Hx, <- !app_assoc in Hy.
    apply app_inv_head in Hy. cbn [app] in Hy. inversion Hy; subst.
    exists x. now rewrite log_record, <- app_assoc.
Qed.


End Agreement.

Section Steps.

Variable W : World.

Lemma steps_add E A n m (c : Task E A * State) :
  Eff.steps W (n + m) c = Eff.steps W m (Eff.steps W n c).
Proof.
  revert c. induction n as [| n IH]; intros c; [reflexivity |]. apply IH.
Qed.

Lemma NoDup_map_filter A B (f : A -> B) g l :
  NoDup (map f l) -> NoDup (map f (filter g l)).
Proof.
  induction l as [| x l IH]; simpl; intros H; [constructor |].
  inversion H; subst. destruct (g x); simpl; auto.
  constructor; auto. rewrite in_map_iff in *. intros (y & Hy & Hin).
  apply filter_In in Hin. destruct Hin. eauto.
Qed.

Lemma In_firstn A (x : A) k l : In x (firstn k l) -> In x l.
Proof.
  intros H. rewrite <- (firstn_skipn k l). apply in_or_app. now left.
Qed.

Lemma NoDup_map_firstn A B (f : A -> B) k l :
  NoDup (map f l) -> NoDup (map f (firstn k l)).
Proof.
  revert k. induction l as [| x l IH]; intros [| k] H; simpl; try constructor.
  - inversion H; subst. rewrite in_map_iff in *. intros (y & Hy & Hin).
    apply In_firstn in Hin. eauto.
  - inversion H; auto.
Qed.

End Steps.

(** ** The run as a whole *)

Section Run.

Variable parseISO : string -> Date.
Variable path_join : string -> string -> string.
Variable p : CrawlParams.
Variable W : World.

Local Abbreviation out := (outputFile path_join p).
Local Abbreviation crawl := (crawlNvidia parseISO path_join).
Local Abbreviation hdr := (Ev (header_call path_join p) None).
Local Abbreviation run := (Eff.runPromise W).
Local Abbreviation no_write := (fun ev => is_write ev = false).





Lemma first_step fuel s :
  snd (Eff.step W (crawl fuel p, s))
  = record (header_call path_join p) (W (length (log s)) (header_call path_join p)) s.
Proof. reflexivity. Qed.

(** The state after the header and [k] more calls. *)
Lemma after_steps fuel s k :
  W (length (log s)) (header_call path_join p) = None ->
  exists l,
    log (snd (Eff.steps W (S k) (crawl fuel p, s))) = log s ++ hdr :: l
    /\ Forall no_write l
    /\ (exists n hs, Harvest parseISO path_join p (listed l) l hs n)
    /\ files (snd (Eff.steps W (S k) (crawl fuel p, s))) out
       = Some (header ++ added out l)%string
    /\ added out l = (cat (appended out l) ++ remnant out l)%string
    /\ (forall pre ev post e,
           l = pre ++ ev :: post -> failure_of ev = Some e ->
           remnant out l = remnant_by out ev).
Proof.
  intros Hh.
  destruct (run (crawl fuel p) s) as [r s1] eqn:H.
  destruct (@crawl_after_header parseISO path_join p W fuel s r s1 Hh H)
    as (pevs & Hp & Hl & _).
  pose proof (steps_run W (S k) (crawl fuel p, s)) as Hrun.
  cbn [fst snd] in Hrun. rewrite H in Hrun.
  apply run_log in Hrun. destruct Hrun as (rest & Hrest & _).
  cbn [Eff.steps] in *.
  destruct (steps_log W k (Eff.step W (crawl fuel p, s))) as (l & Hlog & Hfiles & _).
  rewrite first_step, Hh in Hlog, Hfiles.
  rewrite log_record, <- app_assoc in Hlog. cbn [app] in Hlog.
  rewrite Hlog, Hl, <- app_assoc in Hrest. apply app_inv_head in Hrest.
  cbn [app] in Hrest. inversion Hrest as [Htl].
  destruct (@tail_prefix parseISO path_join p r pevs l rest Hp Htl) as (Hnw & Hh').
  destruct (@tail_added path_join p r pevs l rest (PagesTrace_aborts Hp) Htl)
    as (Hsplit & Hrem).
  exists l. split; [exact Hlog |]. split; [exact Hnw |]. split; [exact Hh' |].
  split; [| split; [exact Hsplit | exact Hrem]].
  rewrite Hfiles. cbn [files record].
  change (perform (header_call path_join p) None (files s))
    with (replay [hdr] (files s)).
  rewrite <- replay_app. now apply file_after_header.
Qed.

(** C5, amended. Once the header is written, the file is only appended
    to. After the header and any number of further calls the file is the
    header line, followed by the rows of the threads harvested so far,
    followed, when an append has been rejected, by the part of its row
    that the file system kept. The threads harvested are, in the order of
    discovery, the items not created before [since] among the first so
    many of the items listed so far, each listed item giving one row, made
    with the detail that was delivered for it. As long as no call has
    failed the file is the header and whole rows. The file at a later
    point begins with the file at an earlier one. When no thread is listed
    twice, no thread has two rows. *)
Theorem file_is_header_and_rows fuel s k :
  W (length (log s)) (header_call path_join p) = None ->
  let at_ i := snd (Eff.steps W (S i) (crawl fuel p, s)) in
  exists l hs n,
    log (at_ k) = log s ++ hdr :: l
    /\ Forall no_write l
    /\ files (at_ k) out
       = Some (header ++ cat (map (row p) hs) ++ remnant out l)%string
    /\ Harvest parseISO path_join p (listed l) l hs n
    /\ Forall (fun h => ~ stale parseISO p (fst h)) hs
    /\ (Quiet l -> remnant out l = "")
    /\ (forall pre ev post e,
           l = pre ++ ev :: post -> failure_of ev = Some e ->
           remnant out l = remnant_by out ev)
    /\ (forall j, k <= j ->
          exists more,
            files (at_ j) out
            = Some (header ++ cat (map (row p) hs) ++ remnant out l ++ more)%string)
    /\ (NoDup (map id (listed l)) -> NoDup (map (fun h => id (fst h)) hs)).
Proof.
  intros Hh at_.
  destruct (after_steps fuel s k Hh)
    as (l & Hlog & Hnw & (n & hs & Hharv) & Hf & Hsplit & Hrem).
  pose proof Hharv as (Ha & Hm & Hd).
  exists l, hs, n. fold (at_ k) in Hlog, Hf. rewrite Hsplit, Ha in Hf.
  split; [exact Hlog |]. split; [exact Hnw |]. split; [exact Hf |].
  split; [exact Hharv |]. split; [| split; [| split; [exact Hrem | split]]].
  - apply Forall_forall. intros h Hin. apply fresh_not_stale.
    apply (in_map fst) in Hin. rewrite Hm in Hin.
    apply filter_In in Hin. tauto.
  - apply remnant_quiet.
  - intros j Hj.
    destruct (after_steps fuel s j Hh) as (lj & Hlogj & _ & _ & Hfj & _).
    fold (at_ j) in Hlogj, Hfj.
    assert (Hext : exists x, lj = l ++ x).
    { pose proof (steps_add W (S k) (j - k) (crawl fuel p, s)) as Hadd.
      replace (S k + (j - k)) with (S j) in Hadd by lia.
      destruct (steps_log W (j - k) (Eff.steps W (S k) (crawl fuel p, s)))
        as (x & Hx & _).
      rewrite <- Hadd in Hx. fold (at_ j) in Hx. fold (at_ k) in Hx.
      rewrite Hlogj, Hlog, <- app_assoc in Hx. apply app_inv_head in Hx.
      cbn [app] in Hx. inversion Hx. now exists x. }
    destruct Hext as (x & ->). exists (added out x).
    now rewrite Hfj, added_app, Hsplit, Ha, !append_assoc.
  - intros Hnd. rewrite <- (map_map fst id), Hm.
    apply NoDup_map_filter, NoDup_map_firstn, Hnd.
Qed.

End Run.

(** ** The theorems at work on the scenarios *)

Section Witnesses.

Local Abbreviation P := Demo.parseISO.
Local Abbreviation J := Demo.path_join.

Lemma next_page_iff_link_and_no_stale_witness :
  Eff.runPromise Demo.two_pages (crawlPage P J 2 Demo.params 1) Demo.start
  = Eff.runPromise Demo.two_pages (crawlPage P J 1 Demo.params 2)
      (Demo.page_done Demo.two_pages [Demo.newer]).
Proof.
  refine (proj1 (proj1 (@next_page_iff_link_and_no_stale P J Demo.params Demo.two_pages
                          0 1 Demo.start
                          (Demo.page [Demo.newer] (Some "/tag/cuda?page=2"))
                          [tt] (Demo.page_done Demo.two_pages [Demo.newer]) _ _) _)).
  - vm_compute. reflexivity.
  - vm_compute. reflexivity.
  - split.
    + now exists "/"%char, "tag/cuda?page=2".
    + intros t [<- | []] (a & b & Ha & Hb & Hlt).
      vm_compute in Ha, Hb. inversion Ha. inversion Hb. subst a b. lia.
Defined.

Lemma stale_item_is_skipped_witness :
  crawlTopic P J Demo.params Demo.older = Done tt.
Proof.
  refine (proj1 (@stale_item_is_skipped P J Demo.params Demo.one_page Demo.older _)).
  exists 1701388800000%Z, 1704067200000%Z.
  split; [reflexivity | split; [reflexivity | lia]].
Defined.

Lemma stale_item_does_not_abort_page_witness :
  voided (Eff.runPromise Demo.mixed
            (Eff.forEach [Demo.undated; Demo.newer] (crawlTopic P J Demo.params))
            (Demo.page_fetched Demo.mixed))
  = (Success tt, Demo.page_done Demo.mixed [Demo.undated; Demo.older; Demo.newer]).
Proof.
  refine (proj1 (@stale_item_does_not_abort_page P J Demo.params Demo.mixed
                   [Demo.undated] Demo.older [Demo.newer]
                   (Demo.page_fetched Demo.mixed) (Success [tt; tt; tt])
                   (Demo.page_done Demo.mixed [Demo.undated; Demo.older; Demo.newer])
                   _ _)).
  - exists 1701388800000%Z, 1704067200000%Z.
    split; [reflexivity | split; [reflexivity | lia]].
  - vm_compute. reflexivity.
Defined.


Lemma file_is_header_and_rows_witness :
  exists l hs,
    files (snd (Eff.steps (Demo.torn_at 3 4 Demo.two_pages) 4
                  (crawlNvidia P J 3 Demo.params, Demo.start))) Demo.out
    = Some (header ++ cat (map (row Demo.params) hs) ++ remnant Demo.out l)%string.
Proof.
  destruct (@file_is_header_and_rows P J Demo.params (Demo.torn_at 3 4 Demo.two_pages)
              3 Demo.start 3)
    as (l & hs & n & _ & _ & Hfile & _).
  - reflexivity.
  - now exists l, hs.
Defined.

Lemma body_is_chosen_by_fallback_witness :
  csvLine Demo.params Demo.newer (stripHtml "")
  = (Js.join "," ["1"; escapeCsv "Hello, World"; ""; "2024-02-01T00:00:00.000Z"; "cuda"]
     ++ String newline "")%string.
Proof.
  refine (proj2 (proj2 (proj2 (@body_is_chosen_by_fallback J Demo.params Demo.one_page
                                 Demo.newer Demo.no_posts)) _)).
  right. exists {| posts := Some [] |}. split; [reflexivity | now right].
Defined.

Lemma undated_item_is_fresh_witness :
  isBefore (P (created_at Demo.undated)) (since Demo.params) = false
  /\ Eff.runPromise Demo.undated_pages (crawlPage P J 2 Demo.params 1) Demo.start
     = Eff.runPromise Demo.undated_pages (crawlPage P J 1 Demo.params 2)
         (Demo.page_done Demo.undated_pages [Demo.undated]).
Proof.
  destruct (@undated_item_is_fresh P J Demo.params Demo.undated_pages Demo.undated
              eq_refl) as (_ & Hb & _ & _ & _ & _ & Hpage).
  split; [exact Hb |].
  refine (proj1 (proj2 (Hpage 1 1%Z Demo.start
                          (Demo.page [Demo.undated] (Some "/tag/cuda?page=2"))
                          [tt] (Demo.page_done Demo.undated_pages [Demo.undated])
                          _ _ _)) _).
  - vm_compute. reflexivity.
  - now left.
  - vm_compute. reflexivity.
  - split.
    + now exists "/"%char, "tag/cuda?page=2".
    + intros u [<- | []] Hu. now destruct Hu.
Defined.

(** C5, as it is worded, fails: a thread that the server lists twice is
    written twice. *)
Lemma thread_listed_twice_is_written_twice :
  fst (Demo.crawl Demo.twice 3) = Success tt
  /\ appended Demo.out (log (snd (Demo.crawl Demo.twice 3)))
     = [row Demo.params (Demo.newer, Demo.detail);
        row Demo.params (Demo.newer, Demo.detail)]
  /\ files (snd (Demo.crawl Demo.twice 3)) Demo.out
     = Some (header ++ row Demo.params (Demo.newer, Demo.detail)
               ++ row Demo.params (Demo.newer, Demo.detail))%string
  /\ ~ NoDup (appended Demo.out (log (snd (Demo.crawl Demo.twice 3)))).
Proof.
  split; [reflexivity | split; [reflexivity | split; [reflexivity |]]].
  intros H. change (NoDup [row Demo.params (Demo.newer, Demo.detail);
                           row Demo.params (Demo.newer, Demo.detail)]) in H.
  inversion H as [| x l Hin _]. apply Hin. now left.
Qed.

End Witnesses.

(** * Further properties of the code *)

(** ** [escapeCsv] and [stripHtml] *)

Section MoreStrings.

Local Open Scope string_scope.

Lemma doubled_length s : String.length s <= String.length (doubled s).
Proof.
  induction s as [| c r IH]; simpl; [lia |].
  destruct (Ascii.eqb c dquote); simpl; lia.
Qed.

Lemma escapeCsv_cases s :
  (Js.includes s comma || Js.includes s newline || Js.includes s dquote = false
   /\ escapeCsv s = s)
  \/ (Js.includes s comma || Js.includes s newline || Js.includes s dquote = true
      /\ escapeCsv s = String dquote (doubled s ++ String dquote "")).
Proof.
  unfold escapeCsv. rewrite replace_quote.
  destruct (Js.includes s comma || Js.includes s newline || Js.includes s dquote); auto.
Qed.

(** X1. [escapeCsv] leaves a string as it is exactly when the string has
    no comma, no line feed and no double quote; any other string comes out
    longer by at least the two quotes around it. *)
Theorem escapeCsv_unchanged_iff_plain s :
  (escapeCsv s = s <->
   ~ occurs comma s /\ ~ occurs newline s /\ ~ occurs dquote s)
  /\ (escapeCsv s <> s -> String.length s + 2 <= String.length (escapeCsv s)).
Proof.
  assert (Hlen : String.length s + 2
                 <= String.length (String dquote (doubled s ++ String dquote ""))).
  { simpl. rewrite length_append. simpl. pose proof (doubled_length s). lia. }
  destruct (escapeCsv_cases s) as [[Hb He] | [Hb He]]; rewrite He.
  - rewrite !orb_false_iff in Hb. destruct Hb as [[H1 H2] H3].
    split; [| congruence]. split; [| reflexivity]. intros _.
    rewrite <- !includes_occurs. rewrite H1, H2, H3. repeat split; discriminate.
  - split; [| intros _; exact Hlen]. split.
    + intros H. rewrite H in Hlen. lia.
    + intros (H1 & H2 & H3). rewrite <- !includes_occurs in *.
      rewrite !orb_true_iff in Hb. tauto.
Qed.

(** X2. Reading an escaped field back gives the string that was escaped,
    whatever the string; so two strings with the same escaped form are the
    same string. *)
Theorem escapeCsv_round_trip :
  (forall s, read_field (escapeCsv s) = Some s)
  /\ (forall s s', escapeCsv s = escapeCsv s' -> s = s').
Proof.
  assert (RT : forall s, read_field (escapeCsv s) = Some s).
  { intros s. destruct (escapeCsv_cases s) as [[Hb He] | [Hb He]]; rewrite He.
    - destruct s as [| c r]; [reflexivity |]. simpl.
      destruct (Ascii.eqb c dquote) eqn:E; [| reflexivity].
      rewrite !orb_false_iff in Hb. destruct Hb as [_ H3].
      simpl in H3. rewrite E in H3. discriminate.
    - simpl. change (Ascii.eqb dquote dquote) with true. cbv iota.
      apply read_quoted_doubled. }
  split; [exact RT |].
  intros s s' H. pose proof (RT s) as H1. rewrite H, RT in H1. congruence.
Qed.

Lemma tag_free_tail c r : tag_free (String c r) -> tag_free r.
Proof.
  intros H a t body rest Hr. apply (H (String c a) t body rest). simpl. now rewrite Hr.
Qed.

Lemma tag_free_fixed s : tag_free s -> stripHtml s = s.
Proof.
  induction s as [| c r IH]; intros H; [reflexivity |].
  rewrite stripHtml_keep.
  - now rewrite IH by exact (tag_free_tail H).
  - intros body rest. exact (H "" (String c r) body rest eq_refl).
Qed.

Lemma stripHtml_tag_free s : tag_free (stripHtml s).
Proof.
  intros a t body rest. apply Stripped_no_tag with s. apply stripHtml_Stripped.
Qed.

Lemma Stripped_length s out : Stripped s out -> String.length out <= String.length s.
Proof.
  induction 1 as [| s body rest out Ht _ IH | c r out _ _ IH]; simpl; try lia.
  apply tag_at_shorter in Ht. lia.
Qed.

(** X3. Stripping twice is stripping once. *)
Theorem stripHtml_idempotent s : stripHtml (stripHtml s) = stripHtml s.
Proof. apply tag_free_fixed, stripHtml_tag_free. Qed.

(** X4. [stripHtml] returns its input unchanged exactly when no tag starts
    anywhere in it, as in a text with no [<] or with no [>]; and its result
    is never longer than its input. *)
Theorem stripHtml_unchanged_iff_tag_free s :
  (stripHtml s = s <-> tag_free s)
  /\ (~ occurs lt_sign s -> stripHtml s = s)
  /\ (~ occurs gt_sign s -> stripHtml s = s)
  /\ String.length (stripHtml s) <= String.length s.
Proof.
  split; [| split; [| split]].
  - split; [| apply tag_free_fixed].
    intros H. rewrite <- H. apply stripHtml_tag_free.
  - intros Hno. apply tag_free_fixed. intros a t body rest Hs (Ht & _).
    apply Hno. exists a, (body ++ String gt_sign rest). now rewrite Hs, Ht.
  - intros Hno. apply tag_free_fixed. intros a t body rest Hs (Ht & _).
    apply Hno. exists (a ++ String lt_sign body), rest.
    rewrite Hs, Ht. simpl. rewrite append_assoc. reflexivity.
  - apply Stripped_length, stripHtml_Stripped.
Qed.

End MoreStrings.

(** ** The addresses *)

Section Urls.

Local Open Scope string_scope.

Lemma append_inv_head a x y : a ++ x = a ++ y -> x = y.
Proof. induction a as [| c a IH]; simpl; intros H; [exact H | inversion H; auto]. Qed.

Lemma append_inv_tail c a b : a ++ c = b ++ c -> a = b.
Proof.
  revert b. induction a as [| x a IH]; intros [| y b] H; simpl in H.
  - reflexivity.
  - apply (f_equal String.length) in H. simpl in H. rewrite length_append in H. lia.
  - apply (f_equal String.length) in H. simpl in H. rewrite length_append in H. lia.
  - inversion H. f_equal. auto.
Qed.

Lemma of_int_inj a b : Js.of_int a = Js.of_int b -> a = b.
Proof.
  unfold Js.of_int. intros H. apply DecimalZ.to_int_inj.
  assert (Hn : forall z, Z.to_int z <> Decimal.Pos Decimal.Nil
                         /\ Z.to_int z <> Decimal.Neg Decimal.Nil).
  { intros [| q | q]; simpl; split; try discriminate;
      intros X; inversion X as [Y]; exact (DecimalPos.Unsigned.to_uint_nonnil _ Y). }
  pose proof (NilZero.isi _ (proj1 (Hn a)) (proj2 (Hn a))) as Ha.
  pose proof (NilZero.isi _ (proj1 (Hn b)) (proj2 (Hn b))) as Hb.
  rewrite H in Ha. congruence.
Qed.

(** X5. For one tag, different page numbers have different listing
    addresses; different thread ids have different detail addresses; and no
    listing address is a detail address. *)
Theorem urls_are_distinct :
  (forall tag page page', buildListUrl tag page = buildListUrl tag page' -> page = page')
  /\ (forall id id', buildDetailUrl id = buildDetailUrl id' -> id = id')
  /\ (forall tag page id, buildListUrl tag page <> buildDetailUrl id).
Proof.
  split; [| split].
  - unfold buildListUrl. intros tag page page' H.
    apply append_inv_head, append_inv_head, append_inv_head in H. now apply of_int_inj.
  - unfold buildDetailUrl. intros i i' H.
    apply append_inv_head, append_inv_tail in H. now apply of_int_inj.
  - unfold buildListUrl, buildDetailUrl. intros tag page i H. simpl in H. discriminate.
Qed.

End Urls.

(** ** Reading the file back *)

Section ReadBack.

Local Open Scope string_scope.

Local Abbreviation add fields x := (app fields (cons x nil)).

Lemma plain_cons c r :
  plain (String c r) <->
  c <> comma /\ c <> newline /\ c <> dquote /\ plain r.
Proof. unfold plain. rewrite !occurs_cons. tauto. Qed.

Lemma plain_nil : plain "".
Proof. repeat split; apply occurs_nil. Qed.

Lemma plain_includes s :
  plain s <->
  Js.includes s comma || Js.includes s newline || Js.includes s dquote = false.
Proof.
  unfold plain. rewrite !orb_false_iff, <- !includes_occurs.
  destruct (Js.includes s comma), (Js.includes s newline), (Js.includes s dquote);
    intuition congruence.
Qed.

Lemma eqb_false c d : c <> d -> Ascii.eqb c d = false.
Proof. apply Ascii.eqb_neq. Qed.

(** A plain field, behind its beginning. *)
Lemma read_plain_rest f cur fields sep rest :
  plain f -> sep = comma \/ sep = newline ->
  read_record InPlain cur fields (f ++ String sep rest)
  = if Ascii.eqb sep comma then read_record AtStart "" (add fields (cur ++ f)) rest
    else Some (add fields (cur ++ f), rest).
Proof.
  revert cur. induction f as [| c f IH]; intros cur Hp Hsep.
  - simpl. rewrite append_nil_r.
    destruct Hsep as [-> | ->]; reflexivity.
  - apply plain_cons in Hp. destruct Hp as (H1 & H2 & H3 & Hp).
    simpl. rewrite (eqb_false H1), (eqb_false H2), (eqb_false H3), IH by auto.
    now rewrite append_assoc.
Qed.

Lemma read_plain f fields sep rest :
  plain f -> sep = comma \/ sep = newline ->
  read_record AtStart "" fields (f ++ String sep rest)
  = if Ascii.eqb sep comma then read_record AtStart "" (add fields f) rest
    else Some (add fields f, rest).
Proof.
  intros Hp Hsep. destruct f as [| c f].
  - simpl. destruct Hsep as [-> | ->]; reflexivity.
  - apply plain_cons in Hp. destruct Hp as (H1 & H2 & H3 & Hp).
    simpl. rewrite (eqb_false H1), (eqb_false H2), (eqb_false H3).
    now rewrite read_plain_rest.
Qed.

Lemma read_quoted_rest f cur fields sep rest :
  sep = comma \/ sep = newline ->
  read_record InQuoted cur fields (doubled f ++ String dquote (String sep rest))
  = if Ascii.eqb sep comma then read_record AtStart "" (add fields (cur ++ f)) rest
    else Some (add fields (cur ++ f), rest).
Proof.
  intros Hsep. revert cur. induction f as [| c f IH]; intros cur.
  - simpl. rewrite append_nil_r.
    change (Ascii.eqb dquote dquote) with true. cbv iota.
    destruct Hsep as [-> | ->]; reflexivity.
  - simpl doubled. destruct (Ascii.eqb c dquote) eqn:E.
    + apply Ascii.eqb_eq in E. subst c. simpl.
      change (Ascii.eqb dquote dquote) with true. cbv iota.
      fold (doubled f ++ String dquote (String sep rest)).
      rewrite IH. now rewrite append_assoc.
    + simpl. rewrite E.
      fold (doubled f ++ String dquote (String sep rest)).
      rewrite IH. now rewrite append_assoc.
Qed.

(** A field written by [escapeCsv]. *)
Lemma read_escaped x fields sep rest :
  sep = comma \/ sep = newline ->
  read_record AtStart "" fields (escapeCsv x ++ String sep rest)
  = if Ascii.eqb sep comma then read_record AtStart "" (add fields x) rest
    else Some (add fields x, rest).
Proof.
  intros Hsep. destruct (escapeCsv_cases x) as [[Hb He] | [Hb He]]; rewrite He.
  - apply read_plain; auto. now apply plain_includes.
  - simpl. change (Ascii.eqb dquote dquote) with true. cbv iota.
    rewrite append_assoc. simpl. now rewrite read_quoted_rest.
Qed.

Lemma uint_plain d c :
  c = comma \/ c = newline \/ c = dquote ->
  Js.includes (NilEmpty.string_of_uint d) c = false.
Proof.
  intros Hc. induction d; simpl; auto;
    rewrite IHd; destruct Hc as [-> | [-> | ->]]; reflexivity.
Qed.

Lemma of_int_plain n : plain (Js.of_int n).
Proof.
  apply plain_includes. unfold Js.of_int, NilZero.string_of_int, NilZero.string_of_uint.
  assert (H : forall d c, c = comma \/ c = newline \/ c = dquote ->
                Js.includes (match d with
                             | Decimal.Nil => "0"
                             | _ => NilEmpty.string_of_uint d
                             end) c = false).
  { intros d c Hc. destruct d; try apply uint_plain; auto.
    destruct Hc as [-> | [-> | ->]]; reflexivity. }
  destruct (Z.to_int n) as [d | d]; simpl; rewrite !H; auto.
Qed.

Lemma csvLine_shape params listing body rest :
  csvLine params listing body ++ rest
  = Js.of_int (id listing) ++ String comma
      (escapeCsv (title listing) ++ String comma
         (escapeCsv body ++ String comma
            (created_at listing ++ String comma
               (tag params ++ String newline rest)))).
Proof.
  unfold csvLine. cbn [Js.join]. rewrite !append_assoc. reflexivity.
Qed.

Lemma csvLine_reads_back params listing body rest :
  plain (created_at listing) -> plain (tag params) ->
  read_row (csvLine params listing body ++ rest)
  = Some ([Js.of_int (id listing); title listing; body; created_at listing; tag params],
          rest).
Proof.
  intros Hc Ht. unfold read_row. rewrite csvLine_shape.
  rewrite (@read_plain _ _ comma) by auto using of_int_plain.
  rewrite Ascii.eqb_refl, (@read_escaped _ _ comma), Ascii.eqb_refl by auto.
  rewrite (@read_escaped _ _ comma), Ascii.eqb_refl by auto.
  rewrite (@read_plain _ _ comma), Ascii.eqb_refl by auto.
  rewrite (@read_plain _ _ newline) by auto. reflexivity.
Qed.

(** X6. A row can be read back: when the tag and the creation date of the
    item need no quoting, a CSV reader finds in the line written for a
    thread exactly the five fields, the title and the body as they were
    before escaping, and stops behind the line. *)
Theorem row_reads_back params listing body rest :
  plain (created_at listing) -> plain (tag params) ->
  read_row (csvLine params listing body ++ rest)
  = Some ([Js.of_int (id listing); title listing; body; created_at listing; tag params],
          rest).
Proof. apply csvLine_reads_back. Qed.

End ReadBack.

Section FileReadBack.

Variable parseISO : string -> Date.
Variable path_join : string -> string -> string.
Variable p : CrawlParams.
Variable W : World.

Local Abbreviation out := (outputFile path_join p).
Local Abbreviation crawl := (crawlNvidia parseISO path_join).
Local Abbreviation hdr := (Ev (header_call path_join p) None).

Lemma header_reads_back rest :
  read_row (header ++ rest)%string = Some (header_fields, rest).
Proof. reflexivity. Qed.

Lemma rows_read_back hs :
  plain (tag p) ->
  Forall (fun h => plain (created_at (fst h))) hs ->
  Rows (cat (map (row p) hs)) (map (row_fields p) hs).
Proof.
  intros Ht. induction 1 as [| h hs Hh _ IH]; [constructor |].
  cbn [map cat fold_right]. fold (cat (map (row p) hs)).
  apply RowsNext with (cat (map (row p) hs)); [| exact IH].
  unfold row. now rewrite csvLine_reads_back.
Qed.

(** X7. What the run has written can be read back at every point. When
    the tag and the creation dates of the listed items need no quoting,
    then after the header and any number of further calls the output file
    is a CSV text of five columns followed by what a rejected append left
    of its row: a reader of the text finds the header record and then, for
    each thread harvested so far and in that order, one record with its
    id, its title, its cleaned body, its creation date and the tag. As
    long as no call has failed nothing follows the text, and the file is
    a CSV file. *)
Theorem file_reads_back fuel s k :
  W (length (log s)) (header_call path_join p) = None ->
  plain (tag p) ->
  exists l hs n content,
    log (snd (Eff.steps W (S k) (crawl fuel p, s))) = log s ++ hdr :: l
    /\ Harvest parseISO path_join p (listed l) l hs n
    /\ files (snd (Eff.steps W (S k) (crawl fuel p, s))) out
       = Some (content ++ remnant out l)%string
    /\ (Quiet l -> remnant out l = "")
    /\ (Forall (fun t => plain (created_at t)) (listed l) ->
        Rows content (header_fields :: map (row_fields p) hs)).
Proof.
  intros Hh Ht.
  destruct (@after_steps parseISO path_join p W fuel s k Hh)
    as (l & Hlog & _ & (n & hs & Hharv) & Hf & Hsplit & _).
  pose proof Hharv as (Ha & Hm & _).
  exists l, hs, n, (header ++ cat (map (row p) hs))%string.
  split; [exact Hlog |]. split; [exact Hharv |].
  split; [now rewrite Hf, Hsplit, Ha, !append_assoc |].
  split; [apply remnant_quiet |].
  intros Hpl. apply RowsNext with (cat (map (row p) hs)).
  - apply header_reads_back.
  - apply rows_read_back; [exact Ht |].
    apply Forall_forall. intros h Hin. rewrite Forall_forall in Hpl. apply Hpl.
    apply (in_map fst) in Hin. rewrite Hm in Hin.
    apply filter_In in Hin. destruct Hin as [Hin _]. now apply In_firstn in Hin.
Qed.

End FileReadBack.

(** ** More on the run *)

Section Requests.

Variable W : World.

Local Abbreviation run := (Eff.runPromise W).

(** X14. [fetchJson] makes one request and leaves the files alone. It
    succeeds exactly when the request is answered with a status from 200 to
    299 and a body that decodes, and then with the decoded body; an answer
    with any other status fails with the error [HTTP] and that status,
    whatever its body. *)
Theorem fetchJson_one_request k url s :
  let a := W (length (log s)) (Fetch k url) in
  snd (run (fetchJson k url) s) = record (Fetch k url) a s
  /\ files (snd (run (fetchJson k url) s)) = files s
  /\ (forall v, fst (run (fetchJson k url) s) = Success v <->
                exists r, a = Resolved r /\ (200 <= status r <= 299)%Z /\ json r = inr v)
  /\ (forall r, a = Resolved r -> ~ (200 <= status r <= 299)%Z ->
        fst (run (fetchJson k url) s)
        = Failure {| message := "HTTP " ++ Js.of_int (status r) |})
  /\ fst (run (fetchJson k url) s) <> Unfinished.
Proof.
  intros a. rewrite run_fetchJson. fold a. cbn [fst snd].
  assert (Hok : forall r : Response (Payload k),
             ok r = true <-> (200 <= status r <= 299)%Z).
  { intros r. unfold ok. rewrite andb_true_iff, !Z.leb_le. tauto. }
  split; [reflexivity |]. split; [reflexivity |].
  unfold fetch_exit. destruct a as [t | r]; cbn [delivered failure_of].
  - split; [| split]; try discriminate.
    intros v. split; [discriminate | intros (r & Hr & _); discriminate].
  - destruct (ok r) eqn:E.
    + apply Hok in E. destruct (json r) as [t | v0] eqn:Ej.
      * split; [| split]; try discriminate.
        -- intros v. split; [discriminate |].
           intros (r' & Hr & _ & Hj). inversion Hr; subst. congruence.
        -- intros r' Hr Hn. inversion Hr; subst. contradiction.
      * split; [| split]; try discriminate.
        -- intros v. split.
           ++ intros Hv. inversion Hv; subst. now exists r.
           ++ intros (r' & Hr & _ & Hj). inversion Hr; subst. congruence.
        -- intros r' Hr Hn. inversion Hr; subst. contradiction.
    + assert (Hn : ~ (200 <= status r <= 299)%Z).
      { intros X. apply Hok in X. congruence. }
      split; [| split]; try discriminate.
      * intros v. split; [discriminate |].
        intros (r' & Hr & Hst & _). inversion Hr; subst. contradiction.
      * intros r' Hr _. inversion Hr; subst. reflexivity.
Qed.

End Requests.

Section MoreRuns.

Variable parseISO : string -> Date.
Variable path_join : string -> string -> string.
Variable p : CrawlParams.
Variable W : World.

Local Abbreviation out := (outputFile path_join p).
Local Abbreviation crawl := (crawlNvidia parseISO path_join).
Local Abbreviation crawlPage' := (crawlPage parseISO path_join).
Local Abbreviation crawlTopic' := (crawlTopic parseISO path_join p).
Local Abbreviation hdr := (Ev (header_call path_join p) None).
Local Abbreviation run := (Eff.runPromise W).
Local Abbreviation TopicTrace' := (TopicTrace parseISO path_join p).
Local Abbreviation ItemsTrace' := (ItemsTrace parseISO path_join p).
Local Abbreviation PagesTrace' := (PagesTrace parseISO path_join p).

(** A property of the calls made for the items of a page that holds of
    each call holds of them all. *)
Lemma ItemsTrace_Forall (Q : Event -> Prop) ts r evs :
  (forall t a, Q (Ev (detail_call t) a)) ->
  (forall h a, Q (Ev (append_call path_join p h) a)) ->
  ItemsTrace' ts r evs -> Forall Q evs.
Proof.
  intros Hd Ha. induction 1 as [| t ts evs r evs' Ht _ IH | t ts e evs Ht].
  - constructor.
  - apply Forall_app. split; [| exact IH]. destruct Ht; repeat constructor; auto.
  - destruct Ht; repeat constructor; auto.
Qed.

Lemma flat_map_nil A B (f : A -> list B) l :
  Forall (fun x => f x = []) l -> flat_map f l = [].
Proof.
  induction 1 as [| x l Hx _ IH]; [reflexivity |]. simpl. now rewrite Hx, IH.
Qed.

Lemma items_no_listing ts r evs :
  ItemsTrace' ts r evs -> listing_urls evs = [] /\ pages_seen evs = [] /\ reports evs = [].
Proof.
  intros H. repeat split; apply flat_map_nil;
    apply (ItemsTrace_Forall _ (fun t a => eq_refl) (fun h a => eq_refl) H).
Qed.

Lemma pages_urls page r evs :
  PagesTrace' page r evs ->
  exists k, listing_urls evs
            = map (fun i => buildListUrl (tag p) (page + Z.of_nat i)) (seq 0 k).
Proof.
  induction 1 as [page | page a e He | page a res e evs Hd Hi
                  | page a res evs Hd Hi Hs | page a res evs r evs' Hd Hi Hs _ IH].
  - now exists 0.
  - exists 1. simpl. now rewrite Z.add_0_r.
  - exists 1. unfold listing_urls. cbn [flat_map listing_call listing_url_of].
    fold (listing_urls evs). destruct (items_no_listing Hi) as (-> & _).
    simpl. now rewrite Z.add_0_r.
  - exists 1. unfold listing_urls. cbn [flat_map listing_call listing_url_of].
    fold (listing_urls evs). destruct (items_no_listing Hi) as (-> & _).
    simpl. now rewrite Z.add_0_r.
  - destruct IH as (k & IH). exists (S k).
    unfold listing_urls. cbn [flat_map listing_call listing_url_of].
    fold (listing_urls (evs ++ evs')). unfold listing_urls at 1.
    rewrite flat_map_app. fold (listing_urls evs). fold (listing_urls evs').
    destruct (items_no_listing Hi) as (-> & _). rewrite IH.
    cbn [app seq map]. rewrite Z.add_0_r. f_equal.
    rewrite <- seq_shift, map_map. apply map_ext. intros i.
    f_equal. lia.
Qed.

Lemma pages_no_report page r evs : PagesTrace' page r evs -> reports evs = [].
Proof.
  induction 1 as [page | page a e He | page a res e evs Hd Hi
                  | page a res evs Hd Hi Hs | page a res evs r evs' Hd Hi Hs _ IH];
    try reflexivity; unfold reports; cbn [flat_map listing_call report_of];
    fold (reports evs).
  - now destruct (items_no_listing Hi) as (_ & _ & ->).
  - now destruct (items_no_listing Hi) as (_ & _ & ->).
  - fold (reports (evs ++ evs')). unfold reports. rewrite flat_map_app.
    fold (reports evs). fold (reports evs').
    destruct (items_no_listing Hi) as (_ & _ & ->). now rewrite IH.
Qed.

Lemma NoDup_map_inj A B (f : A -> B) l :
  (forall x y, f x = f y -> x = y) -> NoDup l -> NoDup (map f l).
Proof.
  intros Hf. induction 1 as [| x l Hx _ IH]; simpl; constructor; auto.
  rewrite in_map_iff. intros (y & Hy & Hin). apply Hf in Hy. now subst y.
Qed.

(** The run of [crawlNvidia], as a log. *)
Lemma crawl_log fuel s r s1 :
  run (crawl fuel p) s = (r, s1) ->
  exists evs, log s1 = log s ++ evs /\ files s1 = replay evs (files s)
              /\ RunTrace parseISO path_join p r evs.
Proof.
  intros H. destruct (crawlNvidia_trace parseISO path_join p W _ _ H) as (evs & Hl & Ht).
  exists evs. split; [exact Hl |]. split; [| exact Ht].
  exact (@run_events W _ _ _ _ _ _ _ H Hl).
Qed.

(** X8. The listing pages are asked for in their order and each once: the
    listing fetches of a run are those of the pages 1, 2, 3 and so on up to
    the last page reached, in this order, and no address among them comes
    twice. *)
Theorem pages_fetched_in_order fuel s r s1 :
  run (crawl fuel p) s = (r, s1) ->
  exists evs k,
    log s1 = log s ++ evs
    /\ listing_urls evs
       = map (fun i => buildListUrl (tag p) (1 + Z.of_nat i)) (seq 0 k)
    /\ NoDup (listing_urls evs).
Proof.
  intros H. destruct (crawl_log _ _ H) as (evs & Hl & _ & Ht).
  assert (Hu : exists k, listing_urls evs
                 = map (fun i => buildListUrl (tag p) (1 + Z.of_nat i)) (seq 0 k)).
  { destruct Ht as [th | e pevs Hp | r0 pevs Hp Hr].
    - now exists 0.
    - destruct (pages_urls Hp) as (k & Hk). exists k.
      unfold listing_urls in *. cbn [flat_map listing_url_of header_call app].
      rewrite flat_map_app, Hk. cbn [flat_map listing_url_of]. now rewrite app_nil_r.
    - destruct (pages_urls Hp) as (k & Hk). exists k. exact Hk. }
  destruct Hu as (k & Hk). exists evs, k. split; [exact Hl |]. split; [exact Hk |].
  rewrite Hk. apply NoDup_map_inj; [| apply seq_NoDup].
  intros i j Hij. unfold buildListUrl in Hij.
  apply append_inv_head, append_inv_head, append_inv_head, of_int_inj in Hij. lia.
Qed.

Lemma pages_seen_cons page a res evs :
  delivered Listing a = Some res ->
  pages_seen (Ev (listing_call p page) a :: evs) = res :: pages_seen evs.
Proof.
  intros H. unfold pages_seen, listing_call. cbn [flat_map page_of]. now rewrite H.
Qed.

Lemma pages_decided page r evs :
  PagesTrace' page r evs ->
  (forall pre res post, pages_seen evs = pre ++ res :: post -> post <> [] ->
     stops parseISO p res = false)
  /\ (r = Success tt -> exists pre res, pages_seen evs = pre ++ [res]
                                        /\ stops parseISO p res = true).
Proof.
  induction 1 as [page | page a e He | page a res e evs Hd Hi
                  | page a res evs Hd Hi Hs | page a res evs r evs' Hd Hi Hs _ IH].
  - split; [| discriminate]. intros [| x pre] res post H; discriminate.
  - split; [| discriminate]. intros pre res post H.
    unfold pages_seen, listing_call in H. cbn [flat_map page_of] in H.
    rewrite (@failed_not_delivered _ _ _ _ He) in H.
    destruct pre; discriminate.
  - split; [| discriminate]. intros pre res' post H Hpost.
    rewrite (@pages_seen_cons _ _ _ _ Hd) in H.
    destruct (items_no_listing Hi) as (_ & Hp & _). rewrite Hp in H.
    destruct pre as [| x [| y pre]]; inversion H; subst; congruence.
  - destruct (items_no_listing Hi) as (_ & Hp & _). split.
    + intros pre res' post H Hpost. rewrite (@pages_seen_cons _ _ _ _ Hd), Hp in H.
      destruct pre as [| x [| y pre]]; inversion H; subst; congruence.
    + intros _. exists [], res. now rewrite (@pages_seen_cons _ _ _ _ Hd), Hp.
  - destruct (items_no_listing Hi) as (_ & Hp & _). destruct IH as [IH1 IH2].
    assert (Hseen : pages_seen (Ev (listing_call p page) a :: evs ++ evs')
                    = res :: pages_seen evs').
    { rewrite (@pages_seen_cons _ _ _ _ Hd). unfold pages_seen. rewrite flat_map_app.
      fold (pages_seen evs). now rewrite Hp. }
    rewrite Hseen. split.
    + intros pre res' post H Hpost. destruct pre as [| x pre]; inversion H; subst.
      * exact Hs.
      * eapply IH1; eauto.
    + intros Hr. destruct (IH2 Hr) as (pre & res' & Hpre & Hst).
      exists (res :: pre), res'. now rewrite Hpre.
Qed.

Lemma pages_seen_run r evs :
  RunTrace parseISO path_join p r evs ->
  (exists pevs, PagesTrace' 1 r pevs /\ pages_seen evs = pages_seen pevs
                /\ listed evs = listed pevs)
  \/ (pages_seen evs = [] /\ (forall e, r <> Success e)).
Proof.
  intros [th | e pevs Hp | r0 pevs Hp Hr].
  - right. split; [reflexivity | discriminate].
  - left. exists pevs. split; [exact Hp |].
    unfold pages_seen, listed. cbn [flat_map page_of listing_of header_call app].
    rewrite !flat_map_app. cbn [flat_map page_of listing_of]. now rewrite !app_nil_r.
  - left. exists pevs. split; [exact Hp |]. split; reflexivity.
Qed.

(** X9. A page is followed by the fetch of another page only if it had a
    next-page link and no item created before [since]: of the listing pages
    a run was given, every one but the last is such a page, so a stale item
    is only ever found on the last page fetched; and a run that ends with
    success ends on a page that has no next-page link or has a stale
    item. *)
Theorem only_last_page_stops fuel s r s1 :
  run (crawl fuel p) s = (r, s1) ->
  exists evs,
    log s1 = log s ++ evs
    /\ (forall pre res post,
           pages_seen evs = pre ++ res :: post -> post <> [] ->
           has_next (more_topics_url (topic_list res))
           /\ forall t, In t (topics (topic_list res)) -> ~ stale parseISO p t)
    /\ (r = Success tt ->
        exists pre res,
          pages_seen evs = pre ++ [res]
          /\ (~ has_next (more_topics_url (topic_list res))
              \/ exists t, In t (topics (topic_list res)) /\ stale parseISO p t)).
Proof.
  intros H. destruct (crawl_log _ _ H) as (evs & Hl & _ & Ht).
  exists evs. split; [exact Hl |].
  destruct (pages_seen_run Ht) as [(pevs & Hp & Hseen & _) | (Hnil & Hr)].
  - rewrite Hseen. destruct (pages_decided Hp) as [H1 H2]. split.
    + intros pre res post Hs Hpost. apply stops_false. eapply H1; eauto.
    + intros Hr. destruct (H2 Hr) as (pre & res & Hpre & Hst).
      exists pre, res. split; [exact Hpre |].
      unfold stops in Hst. apply orb_true_iff in Hst. destruct Hst as [Hf | Hf].
      * left. rewrite <- falsy_has_next. congruence.
      * right. apply negb_true_iff in Hf.
        assert (Hex : existsb (fun t => negb (fresh parseISO p t))
                        (topics (topic_list res)) = true).
        { clear - Hf. induction (topics (topic_list res)) as [| t ts IH]; simpl in *;
            [discriminate |].
          destruct (fresh parseISO p t); simpl in *; auto. }
        apply existsb_exists in Hex. destruct Hex as (t & Hin & Hft).
        exists t. split; [exact Hin |]. apply fresh_false_stale.
        now apply negb_true_iff in Hft.
  - rewrite Hnil. split.
    + intros [| x pre] res post Hs; discriminate.
    + intros ->. now destruct (Hr tt).
Qed.

(** The fuel only bounds the number of pages. *)
Lemma crawlPage_more_fuel fuel : forall page s r s',
  run (crawlPage' fuel p page) s = (r, s') -> r <> Unfinished ->
  forall fuel', fuel <= fuel' -> run (crawlPage' fuel' p page) s = (r, s').
Proof.
  induction fuel as [| fuel IH]; intros page s r s' H Hr fuel' Hle.
  - inversion H; subst. congruence.
  - destruct fuel' as [| fuel']; [lia |].
    cbn [crawlPage] in *. rewrite run_flatMap, run_fetchJson in *.
    destruct (fetch_exit Listing _) as [res | e |]; [| exact H | exact H].
    rewrite run_flatMap in *.
    destruct (Eff.runPromise W (Eff.forEach _ _) _) as [[us | e |] s1];
      [| exact H | exact H].
    destruct (falsy _ || existsb _ _); [exact H |].
    apply IH; auto. lia.
Qed.

(** X10. The bound on the number of pages does not show in a run that
    ends: a run that ends, with success or with a failure, under some bound
    ends in the same way, with the same calls and the same files, under
    every larger one. *)
Theorem result_independent_of_fuel fuel fuel' s r s1 :
  run (crawl fuel p) s = (r, s1) -> r <> Unfinished -> fuel <= fuel' ->
  run (crawl fuel' p) s = (r, s1).
Proof.
  intros H Hr Hle. rewrite run_crawlNvidia in *.
  destruct (W (length (log s)) (header_call path_join p)); [exact H |].
  destruct (Eff.runPromise W (crawlPage' fuel p 1) _) as [r2 s2] eqn:H2.
  assert (Hr2 : r2 <> Unfinished).
  { intros ->. inversion H; subst. congruence. }
  now rewrite (crawlPage_more_fuel _ _ H2 Hr2 Hle).
Qed.

(** The exit and the calls of a run do not depend on the files. *)
Lemma run_outcome E A (m : Task E A) s :
  Eff.runPromise W m s
  = (fst (outcome W m (length (log s))),
     {| log := log s ++ snd (outcome W m (length (log s)));
        files := replay (snd (outcome W m (length (log s)))) (files s) |}).
Proof.
  revert s. induction m as [a | e | op k IH | ]; intros s; cbn [Eff.runPromise outcome];
    try (rewrite app_nil_r; destruct s; reflexivity).
  rewrite IH. cbn [fst snd]. rewrite log_record_length, log_record, <- app_assoc.
  reflexivity.
Qed.

(** X11. A run starts the file afresh. The exit and the calls of a run do
    not depend on the files it finds, and once the header is written
    nothing of the former content of the output file is left: two runs that
    are answered alike end with the same output file, whatever the files
    were before. *)
Theorem run_overwrites_old_file fuel s s' r s1 r' s1' :
  length (log s) = length (log s') ->
  run (crawl fuel p) s = (r, s1) ->
  run (crawl fuel p) s' = (r', s1') ->
  r = r'
  /\ (exists evs, log s1 = log s ++ evs /\ log s1' = log s' ++ evs)
  /\ (W (length (log s)) (header_call path_join p) = None ->
      files s1 out = files s1' out /\ files s1 out <> None).
Proof.
  intros Hlen H H'. pose proof H as H0. pose proof H' as H0'.
  rewrite run_outcome in H0, H0'. rewrite <- Hlen in H0'.
  injection H0 as Hr Hs. injection H0' as Hr' Hs'.
  split; [congruence |]. split.
  - exists (snd (outcome W (crawl fuel p) (length (log s)))).
    rewrite <- Hs, <- Hs'. split; reflexivity.
  - intros Hh. assert (Hh' : W (length (log s')) (header_call path_join p) = None)
      by (now rewrite <- Hlen).
    destruct (@crawl_after_header parseISO path_join p W fuel s _ s1 Hh H)
      as (pevs & Hp & Hl & Hf).
    destruct (@crawl_after_header parseISO path_join p W fuel s' _ s1' Hh' H')
      as (pevs' & Hp' & Hl' & Hf').
    assert (Heq : hdr :: pevs ++ report r = hdr :: pevs' ++ report r').
    { rewrite <- Hs in Hl. cbn [log] in Hl. apply app_inv_head in Hl.
      rewrite <- Hs' in Hl'. cbn [log] in Hl'. apply app_inv_head in Hl'.
      congruence. }
    assert (Hnw : Forall (fun ev => is_write ev = false) (pevs ++ report r)).
    { apply Forall_app. split; [exact (PagesTrace_no_write Hp) |].
      now destruct (@report_harmless path_join p r) as (_ & X & _). }
    rewrite Hf, Hf', <- Heq, !(file_after_header _ _ _ Hnw).
    split; [reflexivity | discriminate].
Qed.

(** X12. A failure is reported once: a run that fails writes its error to
    the console exactly once, as its last call, and a run that does not
    fail writes nothing to the console. *)
Theorem failure_reported_once fuel s r s1 :
  run (crawl fuel p) s = (r, s1) ->
  exists evs,
    log s1 = log s ++ evs
    /\ reports evs = match r with Failure e => [e] | _ => [] end
    /\ (forall e, r = Failure e -> exists pre, evs = pre ++ [Ev (ConsoleError e) tt]).
Proof.
  intros H. destruct (crawl_log _ _ H) as (evs & Hl & _ & Ht).
  exists evs. split; [exact Hl |].
  destruct Ht as [th | e pevs Hp | r0 pevs Hp Hr].
  - split; [reflexivity |]. intros e He. inversion He; subst.
    now exists [Ev (header_call path_join p) (Some th)].
  - split.
    + unfold reports. cbn [flat_map report_of header_call app].
      rewrite flat_map_app. fold (reports pevs). now rewrite (pages_no_report Hp).
    + intros e' He. inversion He; subst. now exists (hdr :: pevs).
  - split.
    + unfold reports. cbn [flat_map report_of header_call app].
      fold (reports pevs). rewrite (pages_no_report Hp).
      destruct r0; try reflexivity. now destruct (Hr e).
    + intros e He. now destruct (Hr e).
Qed.

(** X13. Nothing is asked of the server before the header is written: the
    first call of a run is the write of the header line, and when that
    write is rejected the run fails with its error and no fetch is made.
    Every file but the output file is then as it was. The output file is
    as it was when it could not be opened; when it was opened, its old
    content is lost and it holds what was written of the header line. *)
Theorem header_comes_first fuel s r s1 :
  run (crawl fuel p) s = (r, s1) ->
  exists rest,
    log s1 = log s ++ Ev (header_call path_join p)
                         (W (length (log s)) (header_call path_join p)) :: rest
    /\ (forall th : Rejection,
          W (length (log s)) (header_call path_join p) = Some th ->
          r = Failure (toError th)
          /\ Forall (fun ev => is_fetch ev = false) rest
          /\ (forall path, path <> out -> files s1 path = files s path)
          /\ (kept th = None -> files s1 = files s)
          /\ (forall n, kept th = Some n -> files s1 out = Some (take n header))).
Proof.
  intros H. rewrite run_crawlNvidia in H.
  destruct (W (length (log s)) (header_call path_join p)) as [th |] eqn:Hh.
  - inversion H; subst. exists [Ev (ConsoleError (toError th)) tt]. split.
    + now rewrite !log_record, <- app_assoc.
    + intros th' Hth. inversion Hth; subst th'.
      cbn [files record perform header_call].
      split; [reflexivity |]. split; [repeat constructor |]. split; [| split].
      * intros path Hpath. destruct (kept th) as [n |]; [| reflexivity].
        unfold put. destruct (String.eqb path out) eqn:E; [| reflexivity].
        apply String.eqb_eq in E. contradiction.
      * now intros ->.
      * intros n ->. unfold put. now rewrite String.eqb_refl.
  - destruct (Eff.runPromise W (crawlPage' fuel p 1) _) as [r2 s2] eqn:H2.
    apply run_log in H2. destruct H2 as (evs & Hl & _). rewrite log_record in Hl.
    destruct r2 as [[] | e |]; inversion H; subst.
    + exists evs. split; [now rewrite Hl, <- app_assoc | discriminate].
    + exists (evs ++ [Ev (ConsoleError e) tt]). split; [| discriminate].
      now rewrite log_record, Hl, <- !app_assoc.
    + exists evs. split; [now rewrite Hl, <- app_assoc | discriminate].
Qed.

Lemma replay_elsewhere path evs fs :
  Forall (fun ev => path_of ev <> Some path) evs -> replay evs fs path = fs path.
Proof.
  intros H. revert fs. induction H as [| ev evs Hev _ IH]; intros fs; [reflexivity |].
  destruct ev as [op a].
  change (replay (Ev op a :: evs) fs) with (replay evs (perform op a fs)).
  rewrite IH. destruct op as [k url | pth data | pth data | e]; try reflexivity;
    destruct a as [th |]; cbn [perform]; try destruct (kept th);
    try reflexivity; unfold put;
    (destruct (String.eqb path pth) eqn:E; [| reflexivity]);
    apply String.eqb_eq in E; subst pth; now destruct Hev.
Qed.

Lemma run_paths r evs :
  RunTrace parseISO path_join p r evs ->
  Forall (fun ev => path_of ev = None \/ path_of ev = Some out) evs.
Proof.
  assert (Items : forall ts r evs, ItemsTrace' ts r evs ->
                    Forall (fun ev => path_of ev = None \/ path_of ev = Some out) evs).
  { intros ts r0 evs0. apply ItemsTrace_Forall; intros; [now left | now right]. }
  assert (Pages : forall page r evs, PagesTrace' page r evs ->
                    Forall (fun ev => path_of ev = None \/ path_of ev = Some out) evs).
  { induction 1 as [page | page a e He | page a res e evs0 Hd Hi
                    | page a res evs0 Hd Hi Hs | page a res evs0 r0 evs' Hd Hi Hs _ IH].
    - constructor.
    - repeat constructor.
    - constructor; [now left | eapply Items; eauto].
    - constructor; [now left | eapply Items; eauto].
    - constructor; [now left |]. apply Forall_app. split; [eapply Items; eauto | exact IH]. }
  intros [th | e pevs Hp | r0 pevs Hp Hr].
  - constructor; [now right |]. constructor; [now left | constructor].
  - constructor; [now right |]. apply Forall_app. split; [eapply Pages; eauto |].
    constructor; [now left | constructor].
  - constructor; [now right | eapply Pages; eauto].
Qed.

(** X15. A run touches no file but its output file: every other path has
    after the run the content it had before, whatever the outcome. *)
Theorem only_output_file_is_touched fuel s r s1 path :
  run (crawl fuel p) s = (r, s1) ->
  path <> out ->
  files s1 path = files s path.
Proof.
  intros H Hp. destruct (crawl_log _ _ H) as (evs & _ & Hf & Ht).
  rewrite Hf. apply replay_elsewhere.
  eapply Forall_impl; [| exact (run_paths Ht)].
  intros ev [H0 | H0] H1; rewrite H0 in H1; [discriminate | congruence].
Qed.

End MoreRuns.

(** ** The command line *)

Section CommandLineFacts.

Variable Date_new : string -> Date.
Variable cwd : string.
Variable path_resolve : string -> string -> string.

Local Open Scope string_scope.

Local Abbreviation parseArgs' := (parseArgs Date_new cwd path_resolve).

Lemma pairs_ind (Q : list string -> Prop) :
  Q [] -> (forall k, Q [k]) ->
  (forall k v rest, Q rest -> Q (k :: v :: rest)) ->
  forall l, Q l.
Proof.
  intros H0 H1 H2.
  assert (H : forall l, Q l /\ forall k, Q (k :: l)).
  { induction l as [| x l [IHa IHb]]; split; auto. }
  intros l. apply H.
Qed.

Lemma is_option_true key :
  is_option key = true <-> key = "--tag" \/ key = "--since" \/ key = "--output".
Proof.
  unfold is_option. rewrite !orb_true_iff, !String.eqb_eq. tauto.
Qed.

(** The loop stores the value of an option under its name. *)
Lemma option_name key :
  key = "--tag" \/ key = "--since" \/ key = "--output" ->
  forall name, name = "tag" \/ name = "since" \/ name = "output" ->
  String.eqb name (Js.drop 2 key) = String.eqb key ("--" ++ name).
Proof.
  intros [-> | [-> | ->]] name [-> | [-> | ->]]; reflexivity.
Qed.

(** What the loop returns, when it returns. *)
Lemma parseLoop_Continue args : forall params params',
  parseLoop args params = Continue params' ->
  WellFormed args
  /\ forall name, name = "tag" \/ name = "since" \/ name = "output" ->
       params' name = match last_of ("--" ++ name) args with
                      | Some v => Some v
                      | None => params name
                      end.
Proof.
  induction args as [| k | k v rest IH] using pairs_ind; intros params params' H.
  - inversion H; subst. split; [constructor | reflexivity].
  - discriminate.
  - cbn [parseLoop] in H.
    destruct (String.eqb v "" || startsWith v "--") eqn:Ev; [discriminate |].
    destruct (is_option k) eqn:Ek; [| discriminate].
    apply is_option_true in Ek. apply orb_false_iff in Ev. destruct Ev as [Ev1 Ev2].
    apply String.eqb_neq in Ev1.
    destruct (IH _ _ H) as [Hwf Hlook]. split; [now constructor |].
    intros name Hname. rewrite (Hlook name Hname). cbn [last_of].
    destruct (last_of ("--" ++ name) rest); [reflexivity |].
    unfold set_key. rewrite (option_name Ek Hname).
    now destruct (String.eqb k ("--" ++ name)).
Qed.

Lemma parseLoop_WellFormed args : forall params,
  WellFormed args -> exists params', parseLoop args params = Continue params'.
Proof.
  induction args as [| k | k v rest IH] using pairs_ind; intros params Hwf.
  - now exists params.
  - inversion Hwf.
  - inversion Hwf as [| k' v' rest' Hk Hv Hs Hrest]; subst. cbn [parseLoop].
    apply String.eqb_neq in Hv. rewrite Hv, Hs. cbn [orb].
    apply is_option_true in Hk. rewrite Hk. now apply IH.
Qed.

Lemma last_of_WellFormed key args v :
  WellFormed args -> last_of key args = Some v ->
  v <> "" /\ startsWith v "--" = false /\ In v args.
Proof.
  induction 1 as [| k w rest Hk Hw Hs _ IH]; cbn [last_of]; [discriminate |].
  destruct (last_of key rest) as [u |].
  - intros H. inversion H; subst. destruct (IH eq_refl) as (H1 & H2 & H3).
    repeat split; auto. right. now right.
  - destruct (String.eqb k key); [| discriminate].
    intros H. inversion H; subst. repeat split; auto. right. now left.
Qed.

Lemma falsy_Some v : v <> "" -> falsy (Some v) = false.
Proof. destruct v; [congruence | reflexivity]. Qed.

Lemma parseArgs_Continue argv q :
  parseArgs' argv = Continue q <->
  WellFormed (skipn 2 argv)
  /\ exists t d,
      last_of "--tag" (skipn 2 argv) = Some t
      /\ last_of "--since" (skipn 2 argv) = Some d
      /\ Date_new d <> None
      /\ q = {| tag := t;
                since := Date_new d;
                outputDir :=
                  path_resolve cwd
                    (match last_of "--output" (skipn 2 argv) with
                     | Some o => o
                     | None => "output"
                     end) |}.
Proof.
  unfold parseArgs. split.
  - intros H.
    destruct (parseLoop (skipn 2 argv) no_keys) as [params | printed] eqn:E;
      [| discriminate].
    destruct (parseLoop_Continue _ _ E) as [Hwf Hlook]. split; [exact Hwf |].
    pose proof (Hlook "tag" (or_introl eq_refl)) as Ht.
    pose proof (Hlook "since" (or_intror (or_introl eq_refl))) as Hd.
    pose proof (Hlook "output" (or_intror (or_intror eq_refl))) as Ho.
    cbn [append] in Ht, Hd, Ho. unfold get_key in H. rewrite Ht, Hd, Ho in H.
    destruct (last_of "--tag" (skipn 2 argv)) as [t |] eqn:Et; [| discriminate].
    destruct (last_of "--since" (skipn 2 argv)) as [d |] eqn:Ed;
      [| cbn in H; rewrite orb_true_r in H; discriminate].
    destruct (last_of_WellFormed _ Hwf Et) as (Ht1 & _).
    destruct (last_of_WellFormed _ Hwf Ed) as (Hd1 & _).
    rewrite (falsy_Some Ht1), (falsy_Some Hd1) in H. cbn [orb] in H.
    destruct (Date_new d) as [z |] eqn:Ez; [| discriminate].
    exists t, d. split; [reflexivity |]. split; [reflexivity |].
    split; [rewrite Ez; discriminate |]. rewrite Ez.
    destruct (last_of "--output" (skipn 2 argv)) as [o |] eqn:Eo.
    + destruct (last_of_WellFormed _ Hwf Eo) as (Ho1 & _).
      rewrite (falsy_Some Ho1) in H. now inversion H.
    + cbn in H. now inversion H.
  - intros (Hwf & t & d & Et & Ed & Hz & ->).
    destruct (parseLoop_WellFormed no_keys Hwf) as (params & E). rewrite E.
    destruct (parseLoop_Continue _ _ E) as [_ Hlook].
    pose proof (Hlook "tag" (or_introl eq_refl)) as Ht.
    pose proof (Hlook "since" (or_intror (or_introl eq_refl))) as Hd.
    pose proof (Hlook "output" (or_intror (or_intror eq_refl))) as Ho.
    cbn [append] in Ht, Hd, Ho. unfold get_key. rewrite Ht, Hd, Ho, Et, Ed.
    destruct (last_of_WellFormed _ Hwf Et) as (Ht1 & _).
    destruct (last_of_WellFormed _ Hwf Ed) as (Hd1 & _).
    rewrite (falsy_Some Ht1), (falsy_Some Hd1). cbn [orb].
    destruct (Date_new d) as [z |] eqn:Ez; [| congruence].
    destruct (last_of "--output" (skipn 2 argv)) as [o |] eqn:Eo; [| reflexivity].
    destruct (last_of_WellFormed _ Hwf Eo) as (Ho1 & _).
    now rewrite (falsy_Some Ho1).
Qed.

(** X16. [parseArgs] returns exactly for the command lines made of options
    [--tag], [--since] and [--output], each followed by a value that is not
    empty and does not start with two dashes, on which a tag and a date are
    given and the date is one that [Date] understands. It then returns the
    last tag given, the date of the last [--since], and the last output
    directory, or [output] where none is given, resolved against the
    working directory. *)
Theorem parseArgs_accepts argv q :
  parseArgs' argv = Continue q <->
  WellFormed (skipn 2 argv)
  /\ exists t d,
      last_of "--tag" (skipn 2 argv) = Some t
      /\ last_of "--since" (skipn 2 argv) = Some d
      /\ Date_new d <> None
      /\ q = {| tag := t;
                since := Date_new d;
                outputDir :=
                  path_resolve cwd
                    (match last_of "--output" (skipn 2 argv) with
                     | Some o => o
                     | None => "output"
                     end) |}.
Proof. apply parseArgs_Continue. Qed.

Lemma parseLoop_Exit1 args : forall params printed,
  parseLoop args params = Exit1 printed ->
  exists key,
    In key args
    /\ (printed = [ToError ("エラー: " ++ key ++ " の値が指定されていません"); ToLog helpText]
        \/ (is_option key = false
            /\ printed = [ToError ("エラー: 不明なオプション " ++ key); ToLog helpText])).
Proof.
  induction args as [| k | k v rest IH] using pairs_ind; intros params printed H.
  - discriminate.
  - inversion H; subst. exists k. split; [now left | now left].
  - cbn [parseLoop] in H.
    destruct (String.eqb v "" || startsWith v "--").
    + inversion H; subst. exists k. split; [now left | now left].
    + destruct (is_option k) eqn:Ek.
      * destruct (IH _ _ H) as (key & Hin & Hp). exists key. split; [| exact Hp].
        right. now right.
      * inversion H; subst. exists k. split; [now left | right; now split].
Qed.

(** X17. When [parseArgs] does not return, it has printed one line of
    error and then the help, and nothing else: the line names the first
    argument in option position that has no proper value behind it or is
    no known option, or says that the tag or the date is missing or that
    the date is not valid. *)
Theorem parseArgs_rejects argv printed :
  parseArgs' argv = Exit1 printed ->
  exists line,
    printed = [ToError line; ToLog helpText]
    /\ ((exists key, In key (skipn 2 argv)
                     /\ (line = "エラー: " ++ key ++ " の値が指定されていません"
                         \/ (is_option key = false
                             /\ line = "エラー: 不明なオプション " ++ key)))
        \/ (WellFormed (skipn 2 argv)
            /\ (line = "エラー: --tag と --since は必須です"
                \/ line = "エラー: 無効な日付形式です"))).
Proof.
  unfold parseArgs.
  destruct (parseLoop (skipn 2 argv) no_keys) as [params | out] eqn:E.
  - destruct (parseLoop_Continue _ _ E) as [Hwf _].
    destruct (falsy (params "tag") || falsy (params "since")).
    + intros H. inversion H; subst. eexists. split; [reflexivity |]. right. auto.
    + destruct (Date_new (get_key params "since")); [discriminate |].
      intros H. inversion H; subst. eexists. split; [reflexivity |]. right. auto.
  - intros H. inversion H; subst out.
    destruct (parseLoop_Exit1 _ _ E) as (key & Hin & [-> | (Hk & ->)]);
      (eexists; split; [reflexivity |]); left; exists key; auto.
Qed.

Lemma WellFormed_even args : WellFormed args -> Nat.even (length args) = true.
Proof. induction 1; simpl; auto. Qed.

(** X18. An accepted command line has an even number of arguments behind
    the program name, and at least four: a command line with an odd number
    of arguments, or with fewer than four, is rejected. *)
Theorem parseArgs_counts_arguments argv :
  (forall q, parseArgs' argv = Continue q ->
             Nat.even (length (skipn 2 argv)) = true /\ 4 <= length (skipn 2 argv))
  /\ (Nat.odd (length (skipn 2 argv)) = true \/ length (skipn 2 argv) < 4 ->
      exists printed, parseArgs' argv = Exit1 printed).
Proof.
  assert (Acc : forall q, parseArgs' argv = Continue q ->
                  Nat.even (length (skipn 2 argv)) = true /\ 4 <= length (skipn 2 argv)).
  { intros q H. apply parseArgs_Continue in H.
    destruct H as (Hwf & t & d & Et & Ed & _). split; [now apply WellFormed_even |].
    destruct Hwf as [| k v rest Hk Hv Hs Hrest]; [discriminate |].
    destruct Hrest as [| k' v' rest' _ _ _ _]; [| simpl; lia].
    cbn [last_of] in Et, Ed.
    destruct (String.eqb k "--tag") eqn:E1; [| discriminate].
    apply String.eqb_eq in E1. subst k. discriminate. }
  split; [exact Acc |].
  intros Hbad. destruct (parseArgs' argv) as [q | printed] eqn:E; [| now exists printed].
  destruct (Acc q eq_refl) as [He Hl]. destruct Hbad as [Ho | Hlt]; [| lia].
  unfold Nat.odd in Ho. rewrite He in Ho. discriminate.
Qed.

(** X19. The cutoff of a crawl started from the command line is a date.
    With an Invalid Date as [since] the crawler would hold no item for
    stale, so that nothing but the end of the listing would stop it;
    [parseArgs] never returns such parameters, nor an empty tag or a tag
    that starts with two dashes. *)
Theorem cutoff_from_command_line_is_valid :
  (forall parseISO p t, since p = None ->
     ~ stale parseISO p t /\ fresh parseISO p t = true)
  /\ (forall argv q, parseArgs' argv = Continue q ->
        since q <> None /\ tag q <> "" /\ startsWith (tag q) "--" = false
        /\ In (tag q) (skipn 2 argv)).
Proof.
  split.
  - intros parseISO p t Hs.
    assert (Hf : fresh parseISO p t = true).
    { unfold fresh, isBefore. rewrite Hs. now destruct (parseISO (created_at t)). }
    split; [| exact Hf]. now apply fresh_not_stale.
  - intros argv q H. apply parseArgs_Continue in H.
    destruct H as (Hwf & t & d & Et & Ed & Hz & ->). cbn [since tag].
    destruct (last_of_WellFormed _ Hwf Et) as (H1 & H2 & H3). auto.
Qed.

End CommandLineFacts.

(** ** The cutoff comparison and the end of the crawl *)

Section CutoffOrder.

Variable parseISO : string -> Date.
Variable path_join : string -> string -> string.
Variable p : CrawlParams.
Variable W : World.

Local Abbreviation crawl := (crawlNvidia parseISO path_join).
Local Abbreviation crawlPage' := (crawlPage parseISO path_join).
Local Abbreviation run := (Eff.runPromise W).

(** X20. [isBefore] is a strict order on the dates that are dates, and
    the Invalid Date is before nothing and nothing is before it. So the
    cutoff is inclusive: an item created exactly at [since] is not stale,
    and its detail is fetched. *)
Theorem isBefore_is_strict :
  (forall d, isBefore d d = false)
  /\ (forall d d', isBefore d d' = true -> isBefore d' d = false)
  /\ (forall a b c, isBefore a b = true -> isBefore b c = true -> isBefore a c = true)
  /\ (forall d, isBefore None d = false /\ isBefore d None = false)
  /\ (forall t, parseISO (created_at t) = since p ->
        ~ stale parseISO p t
        /\ crawlTopic parseISO path_join p t
           = Eff.flatMap (fetchJson Detail (buildDetailUrl (id t)))
                         (fun detail => saveTopic path_join p t detail)).
Proof.
  split; [| split; [| split; [| split]]].
  - intros [a |]; simpl; [apply Z.ltb_irrefl | reflexivity].
  - intros [a |] [b |]; simpl; try discriminate. rewrite !Z.ltb_lt, Z.ltb_ge. lia.
  - intros [a |] [b |] [c |]; simpl; try discriminate. rewrite !Z.ltb_lt. lia.
  - intros [a |]; split; reflexivity.
  - intros t Ht.
    assert (Hb : isBefore (parseISO (created_at t)) (since p) = false).
    { rewrite Ht. destruct (since p); simpl; [apply Z.ltb_irrefl | reflexivity]. }
    split.
    + rewrite <- isBefore_stale, Hb. discriminate.
    + unfold crawlTopic, Eff.suspend. now rewrite Hb.
Qed.

Lemma pages_seen_app l1 l2 : pages_seen (l1 ++ l2) = pages_seen l1 ++ pages_seen l2.
Proof. apply flat_map_app. Qed.

(** A crawl of pages that is cut off has used up its bound. *)
Lemma crawlPage_cut fuel : forall page s s',
  run (crawlPage' fuel p page) s = (Unfinished, s') ->
  exists evs,
    log s' = log s ++ evs
    /\ length (pages_seen evs) = fuel
    /\ Forall (fun res => stops parseISO p res = false) (pages_seen evs).
Proof.
  induction fuel as [| fuel IH]; intros page s s' H.
  - inversion H; subst. exists []. rewrite app_nil_r. repeat split. constructor.
  - destruct (@fetch_exit_cases Listing (buildListUrl (tag p) page)
                (W (length (log s)) (listing_call p page)))
      as [(res & Hv & Hd & _) | (e & Hv & _ & _)].
    + destruct (run (Eff.forEach (topics (topic_list res))
                                 (crawlTopic parseISO path_join p))
                    (record (listing_call p page)
                            (W (length (log s)) (listing_call p page)) s))
        as [r1 s1] eqn:H1.
      pose proof (forEach_trace parseISO path_join p W _ _ H1) as (e1 & Hl1 & Hi).
      rewrite log_record in Hl1.
      destruct r1 as [us | e |].
      * rewrite (@crawlPage_decide parseISO path_join p W fuel page s res us s1 Hd H1) in H.
        destruct (stops parseISO p res) eqn:Hs; [discriminate |].
        destruct (IH _ _ _ H) as (e2 & Hl2 & Hlen & Hall).
        exists (Ev (listing_call p page) (W (length (log s)) (listing_call p page))
                  :: e1 ++ e2).
        split; [now rewrite Hl2, Hl1, <- !app_assoc |].
        destruct (@items_no_listing parseISO path_join p _ _ _ Hi) as (_ & Hp & _).
        rewrite (@pages_seen_cons p _ _ _ _ Hd), pages_seen_app, Hp. cbn [app length].
        split; [now rewrite Hlen | now constructor].
      * cbn [crawlPage] in H. rewrite run_flatMap, run_fetchJson in H.
        unfold listing_call in *. rewrite Hv, run_flatMap, H1 in H. discriminate.
      * now apply ItemsTrace_finished in Hi.
    + cbn [crawlPage] in H. rewrite run_flatMap, run_fetchJson in H.
      unfold listing_call in *. rewrite Hv in H. discriminate.
Qed.

(** X21. The crawl ends by itself unless the server keeps it going: a run
    bounded to some number of pages is cut off by that bound only if the
    header was written and the server delivered that many pages, each with
    a next-page link and without a stale item, and no call failed. *)
Theorem cut_off_only_by_endless_listing fuel s s1 :
  run (crawl fuel p) s = (Unfinished, s1) ->
  exists evs,
    log s1 = log s ++ Ev (header_call path_join p) None :: evs
    /\ Quiet evs
    /\ length (pages_seen evs) = fuel
    /\ Forall (fun res =>
                 has_next (more_topics_url (topic_list res))
                 /\ forall t, In t (topics (topic_list res)) -> ~ stale parseISO p t)
              (pages_seen evs).
Proof.
  intros H. pose proof H as H0. rewrite run_crawlNvidia in H0.
  destruct (W (length (log s)) (header_call path_join p)) as [th |] eqn:Hh;
    [discriminate |].
  destruct (run (crawlPage' fuel p 1) _) as [r2 s2] eqn:H2.
  destruct r2 as [[] | e |]; try discriminate. inversion H0; subst s2.
  destruct (crawlPage_cut _ _ _ H2) as (evs & Hl & Hlen & Hall).
  rewrite log_record in Hl. exists evs.
  split; [now rewrite Hl, <- app_assoc |]. split; [| split; [exact Hlen |]].
  - destruct (crawlPage_trace parseISO path_join p W _ _ _ H2) as (evs' & Hl' & Hp).
    rewrite log_record in Hl'. rewrite Hl in Hl'. apply app_inv_head in Hl'. subst evs'.
    exact (PagesTrace_aborts Hp).
  - eapply Forall_impl; [| exact Hall]. intros res Hs. now apply stops_false.
Qed.

End CutoffOrder.

(** ** The further properties at work on the scenarios *)

Section MoreWitnesses.

Local Abbreviation P := Demo.parseISO.
Local Abbreviation J := Demo.path_join.

Lemma escapeCsv_unchanged_iff_plain_witness : escapeCsv "cuda" = "cuda".
Proof.
  apply (proj1 (escapeCsv_unchanged_iff_plain "cuda")).
  repeat split; rewrite <- includes_occurs; vm_compute; discriminate.
Defined.

Lemma escapeCsv_round_trip_witness : "a,b" = "a,b".
Proof.
  apply (proj2 escapeCsv_round_trip "a,b" "a,b"). reflexivity.
Defined.

Lemma stripHtml_unchanged_iff_tag_free_witness : stripHtml "1 < 2" = "1 < 2".
Proof.
  apply (proj1 (proj2 (proj2 (stripHtml_unchanged_iff_tag_free "1 < 2")))).
  rewrite <- includes_occurs. vm_compute. discriminate.
Defined.

Lemma urls_are_distinct_witness : 7%Z = 7%Z.
Proof.
  apply (proj1 (proj2 urls_are_distinct) 7%Z 7%Z). reflexivity.
Defined.

Lemma row_reads_back_witness :
  read_row (csvLine Demo.params Demo.newer ("two" ++ String newline "lines") ++ "rest")
  = Some (["1"; "Hello, World"; ("two" ++ String newline "lines")%string;
           "2024-02-01T00:00:00.000Z"; "cuda"], "rest"%string).
Proof.
  apply (@row_reads_back Demo.params Demo.newer ("two" ++ String newline "lines") "rest");
    repeat split; rewrite <- includes_occurs; vm_compute; discriminate.
Defined.

Lemma file_reads_back_witness :
  exists l hs n content,
    log (snd (Eff.steps Demo.one_page 4 (crawlNvidia P J 3 Demo.params, Demo.start)))
    = log Demo.start ++ Ev (header_call J Demo.params) None :: l
    /\ Harvest P J Demo.params (listed l) l hs n
    /\ files (snd (Eff.steps Demo.one_page 4 (crawlNvidia P J 3 Demo.params, Demo.start)))
             Demo.out = Some (content ++ remnant Demo.out l)%string
    /\ (Quiet l -> remnant Demo.out l = "")
    /\ (Forall (fun t => plain (created_at t)) (listed l) ->
        Rows content (header_fields :: map (row_fields Demo.params) hs)).
Proof.
  apply (@file_reads_back P J Demo.params Demo.one_page 3 Demo.start 3).
  - reflexivity.
  - repeat split; rewrite <- includes_occurs; vm_compute; discriminate.
Defined.

Lemma pages_fetched_in_order_witness :
  exists evs k,
    log (snd (Demo.crawl Demo.two_pages 3)) = log Demo.start ++ evs
    /\ listing_urls evs
       = map (fun i => buildListUrl (tag Demo.params) (1 + Z.of_nat i)) (seq 0 k)
    /\ NoDup (listing_urls evs).
Proof.
  apply (@pages_fetched_in_order P J Demo.params Demo.two_pages 3 Demo.start
           (fst (Demo.crawl Demo.two_pages 3))).
  vm_compute. reflexivity.
Defined.

Lemma only_last_page_stops_witness :
  exists evs, log (snd (Demo.crawl Demo.two_pages 3)) = log Demo.start ++ evs.
Proof.
  destruct (@only_last_page_stops P J Demo.params Demo.two_pages 3 Demo.start
              (fst (Demo.crawl Demo.two_pages 3)) (snd (Demo.crawl Demo.two_pages 3)))
    as (evs & Hl & _).
  - vm_compute. reflexivity.
  - now exists evs.
Defined.

Lemma result_independent_of_fuel_witness :
  Demo.crawl Demo.two_pages 7 = Demo.crawl Demo.two_pages 2.
Proof.
  unfold Demo.crawl at 1.
  rewrite (@result_independent_of_fuel P J Demo.params Demo.two_pages 2 7 Demo.start
             (fst (Demo.crawl Demo.two_pages 2)) (snd (Demo.crawl Demo.two_pages 2))).
  - now destruct (Demo.crawl Demo.two_pages 2).
  - vm_compute. reflexivity.
  - vm_compute. discriminate.
  - lia.
Defined.

Lemma run_overwrites_old_file_witness :
  files (snd (Demo.crawl Demo.one_page 3)) Demo.out
  = files (snd (Eff.runPromise Demo.one_page (crawlNvidia P J 3 Demo.params)
                  DemoCli.restart)) Demo.out.
Proof.
  refine (proj1 (proj2 (proj2
            (@run_overwrites_old_file P J Demo.params Demo.one_page 3
               Demo.start DemoCli.restart
               (fst (Demo.crawl Demo.one_page 3)) (snd (Demo.crawl Demo.one_page 3))
               (fst (Eff.runPromise Demo.one_page (crawlNvidia P J 3 Demo.params)
                       DemoCli.restart))
               (snd (Eff.runPromise Demo.one_page (crawlNvidia P J 3 Demo.params)
                       DemoCli.restart))
               _ _ _)) _)).
  - reflexivity.
  - vm_compute. reflexivity.
  - vm_compute. reflexivity.
  - reflexivity.
Defined.

Lemma failure_reported_once_witness :
  exists evs,
    log (snd (Demo.crawl Demo.broken 3)) = log Demo.start ++ evs
    /\ reports evs = [ {| message := "HTTP 500" |} ].
Proof.
  destruct (@failure_reported_once P J Demo.params Demo.broken 3 Demo.start
              (Failure {| message := "HTTP 500" |}) (snd (Demo.crawl Demo.broken 3)))
    as (evs & Hl & Hr & _).
  - vm_compute. reflexivity.
  - now exists evs.
Defined.

Lemma header_comes_first_witness :
  files (snd (Demo.crawl (Demo.torn_at 0 3 Demo.one_page) 3)) Demo.out = Some "id,"
  /\ exists rest,
      log (snd (Demo.crawl (Demo.torn_at 0 3 Demo.one_page) 3))
      = log Demo.start
        ++ Ev (header_call J Demo.params) (Some (Demo.torn 3)) :: rest
      /\ Forall (fun ev => is_fetch ev = false) rest.
Proof.
  destruct (@header_comes_first P J Demo.params (Demo.torn_at 0 3 Demo.one_page) 3
              Demo.start (fst (Demo.crawl (Demo.torn_at 0 3 Demo.one_page) 3))
              (snd (Demo.crawl (Demo.torn_at 0 3 Demo.one_page) 3)))
    as (rest & Hl & Hfail).
  - vm_compute. reflexivity.
  - destruct (Hfail (Demo.torn 3) eq_refl) as (_ & Hnf & _ & _ & Hkept).
    split; [exact (Hkept 3 eq_refl) |].
    exists rest. split; [exact Hl | exact Hnf].
Defined.

Lemma fetchJson_one_request_witness :
  fst (Eff.runPromise Demo.broken (fetchJson Listing "u") Demo.start)
  = Failure {| message := "HTTP 500" |}.
Proof.
  refine (proj1 (proj2 (proj2 (proj2
            (@fetchJson_one_request Demo.broken Listing "u" Demo.start))))
            {| status := 500; json := inl Demo.boom |} eq_refl _).
  simpl. lia.
Defined.

Lemma only_output_file_is_touched_witness :
  files (snd (Demo.crawl Demo.one_page 3)) "/out/other.csv" = None.
Proof.
  apply (@only_output_file_is_touched P J Demo.params Demo.one_page 3 Demo.start
           (fst (Demo.crawl Demo.one_page 3)) (snd (Demo.crawl Demo.one_page 3))
           "/out/other.csv").
  - vm_compute. reflexivity.
  - vm_compute. discriminate.
Defined.

Lemma parseArgs_accepts_witness :
  parseArgs DemoCli.Date_new DemoCli.cwd DemoCli.path_resolve DemoCli.argv
  = Continue DemoCli.parsed.
Proof.
  apply (proj2 (@parseArgs_accepts DemoCli.Date_new DemoCli.cwd DemoCli.path_resolve
                  DemoCli.argv DemoCli.parsed)).
  split.
  - repeat (apply WellFormed_pair; [tauto | discriminate | reflexivity |]).
    apply WellFormed_nil.
  - exists "cuda", "2024-01-01".
    split; [reflexivity | split; [reflexivity | split; [discriminate | reflexivity]]].
Defined.

Lemma parseArgs_rejects_witness :
  exists line,
    [ToError "エラー: --since の値が指定されていません"; ToLog helpText]
    = [ToError line; ToLog helpText].
Proof.
  destruct (@parseArgs_rejects DemoCli.Date_new DemoCli.cwd DemoCli.path_resolve
              ["node"; "run.js"; "--tag"; "cuda"; "--since"]
              [ToError "エラー: --since の値が指定されていません"; ToLog helpText])
    as (line & Hl & _).
  - reflexivity.
  - now exists line.
Defined.

Lemma parseArgs_counts_arguments_witness :
  exists printed,
    parseArgs DemoCli.Date_new DemoCli.cwd DemoCli.path_resolve
      ["node"; "run.js"; "--tag"; "cuda"; "--since"] = Exit1 printed.
Proof.
  apply (proj2 (@parseArgs_counts_arguments DemoCli.Date_new DemoCli.cwd
                  DemoCli.path_resolve ["node"; "run.js"; "--tag"; "cuda"; "--since"])).
  left. reflexivity.
Defined.

Lemma cutoff_from_command_line_is_valid_witness :
  since DemoCli.parsed <> None /\ tag DemoCli.parsed <> ""
  /\ startsWith (tag DemoCli.parsed) "--" = false
  /\ In (tag DemoCli.parsed) (skipn 2 DemoCli.argv).
Proof.
  apply (proj2 (@cutoff_from_command_line_is_valid DemoCli.Date_new DemoCli.cwd
                  DemoCli.path_resolve) DemoCli.argv DemoCli.parsed).
  reflexivity.
Defined.

Lemma isBefore_is_strict_witness :
  isBefore (Some 3%Z) (Some 1%Z) = false.
Proof.
  apply (proj1 (proj2 (@isBefore_is_strict P J Demo.params)) (Some 1%Z) (Some 3%Z)).
  reflexivity.
Defined.

Lemma cut_off_only_by_endless_listing_witness :
  exists evs,
    log (snd (Demo.crawl Demo.two_pages 1))
    = log Demo.start ++ Ev (header_call J Demo.params) None :: evs
    /\ length (pages_seen evs) = 1.
Proof.
  destruct (@cut_off_only_by_endless_listing P J Demo.params Demo.two_pages 1 Demo.start
              (snd (Demo.crawl Demo.two_pages 1)))
    as (evs & Hl & _ & Hlen & _).
  - vm_compute. reflexivity.
  - now exists evs.
Defined.

End MoreWitnesses.
